(** * Matching and scoring engine of the link-conversion bot

    A shallow embedding of [src/utils/scoring.js]: the similarity scorer
    [calculateSongScore], the confidence labeler [getConfidenceLevel] and
    the best-match selector [findBestMatch], together with the parts of
    the JavaScript run-time they rely on (strings, objects, IEEE 754
    double-precision numbers, exceptions). *)

From Stdlib Require Import ZArith String Ascii List Bool Lia DecimalString.
From Stdlib Require Import Reals Lra.
From Stdlib Require Import Floats.SpecFloat.
From stdpp Require Import gmap gmultiset strings.

Local Open Scope Z_scope.

(** ** JavaScript strings

    A string is a sequence of code units.  The development covers the
    code units below 256 (ASCII and the Latin-1 supplement), for which
    [toLowerCase], [trim] and the regular-expression classes [\w] and
    [\s] are given exactly as ECMAScript defines them. *)
Module JsString.

Definition code (c : ascii) : N := N_of_ascii c.

Definition between (lo hi : N) (c : ascii) : bool :=
  ((lo <=? code c) && (code c <=? hi))%N.

Definition is_upper (c : ascii) : bool := between 65 90 c.
Definition is_lower (c : ascii) : bool := between 97 122 c.
Definition is_digit (c : ascii) : bool := between 48 57 c.

(** WhiteSpace and LineTerminator code units below 256: TAB, LF, VT,
    FF, CR, SP and NBSP. *)
Definition is_space (c : ascii) : bool :=
  between 9 13 c || (code c =? 32)%N || (code c =? 160)%N.

(** [\w] is [[A-Za-z0-9_]]. *)
Definition is_word (c : ascii) : bool :=
  is_upper c || is_lower c || is_digit c || (code c =? 95)%N.

(** Character classes and bracket expressions of a regular expression. *)
Inductive char_class := ClassWord | ClassSpace.

Inductive bracket :=
| Any (cs : list char_class)      (* [..]  *)
| NoneOf (cs : list char_class).  (* [^..] *)

Definition class_matches (k : char_class) (c : ascii) : bool :=
  match k with
  | ClassWord => is_word c
  | ClassSpace => is_space c
  end.

Definition bracket_matches (b : bracket) (c : ascii) : bool :=
  match b with
  | Any cs => existsb (fun k => class_matches k c) cs
  | NoneOf cs => negb (existsb (fun k => class_matches k c) cs)
  end.

(** [s.replace(/b/g, '')] and [s.replace(/b+/g, '')] for a bracket
    expression [b]: every code unit that matches is deleted. *)
Fixpoint remove_all (b : bracket) (s : string) : string :=
  match s with
  | EmptyString => EmptyString
  | String c s' =>
      if bracket_matches b c then remove_all b s'
      else String c (remove_all b s')
  end.

(** [toLowerCase] on one code unit: A-Z, and the Latin-1 capitals
    U+00C0..U+00DE except the multiplication sign U+00D7. *)
Definition lower_char (c : ascii) : ascii :=
  if is_upper c || between 192 214 c || between 216 222 c
  then ascii_of_N (code c + 32)
  else c.

Fixpoint toLowerCase (s : string) : string :=
  match s with
  | EmptyString => EmptyString
  | String c s' => String (lower_char c) (toLowerCase s')
  end.

Fixpoint trimStart (s : string) : string :=
  match s with
  | EmptyString => EmptyString
  | String c s' => if is_space c then trimStart s' else s
  end.

Fixpoint trimEnd (s : string) : string :=
  match s with
  | EmptyString => EmptyString
  | String c s' =>
      match trimEnd s' with
      | EmptyString => if is_space c then EmptyString else String c EmptyString
      | r => String c r
      end
  end.

Definition trim (s : string) : string := trimEnd (trimStart s).

(** [s.substring(i, i + 2)] for every [i] from [0] to [s.length - 2]. *)
Fixpoint bigrams (s : string) : list string :=
  match s with
  | String a (String b _ as s') => String a (String b EmptyString) :: bigrams s'
  | _ => []
  end.

End JsString.

(** ** JavaScript values, objects and exceptions *)

(** The values a property holds in this development: [undefined],
    [null], a boolean, a number that is an integer, or a string. *)
Inductive value :=
| VUndefined
| VNull
| VBool (b : bool)
| VNum (n : Z)
| VStr (s : string).

(** A plain object: its own enumerable properties. *)
Abbreviation obj := (gmap string value).

(** Reading a property that is absent gives [undefined]. *)
Definition get (o : obj) (k : string) : value := default VUndefined (o !! k).

Inductive exn := TypeError.

Inductive result (A : Type) :=
| Ok (a : A)
| Throw (e : exn).
Arguments Ok {A} a.
Arguments Throw {A} e.

(** Sequencing: an exception raised by a step ends the computation. *)
#[global] Instance result_bind : MBind result := fun A B k r =>
  match r with
  | Ok a => k a
  | Throw e => Throw e
  end.

#[global] Instance result_ret : MRet result := fun A a => Ok a.

(** ** Numbers

    A JavaScript number is an IEEE 754 binary64 value; the arithmetic is
    that of [SpecFloat] at precision 53 and maximal exponent 1024.
    Integers that the code only counts, compares or prints (lengths,
    counters, scores) are kept in [nat] and [Z]. *)
Module Number.

Abbreviation number := spec_float.

Definition prec : Z := 53.
Definition emax : Z := 1024.

Definition mul : number -> number -> number := SFmul prec emax.
Definition add : number -> number -> number := SFadd prec emax.
Definition sub : number -> number -> number := SFsub prec emax.
Definition div : number -> number -> number := SFdiv prec emax.

(** The number nearest to an integer. *)
Definition of_Z (z : Z) : number := binary_normalize prec emax z 0 false.

(** The literals [0], [1], [2], [0.4], [0.2] and [100]. *)
Definition lit_0 : number := S754_zero false.
Definition lit_1 : number := S754_finite false 4503599627370496 (-52).
Definition lit_2 : number := S754_finite false 4503599627370496 (-51).
Definition lit_0_4 : number := S754_finite false 7205759403792794 (-54).
Definition lit_0_2 : number := S754_finite false 7205759403792794 (-55).
Definition lit_100 : number := S754_finite false 7036874417766400 (-46).

(** [Math.round]: the integer closest to the argument, a tie going to
    the larger one, that is [floor (x + 1/2)] in exact arithmetic.
    It is only used on finite values; on NaN and the infinities, which
    have no integer value, the model gives 0. *)
Definition round (x : number) : Z :=
  match x with
  | S754_finite s m e =>
      let n := if s then Z.neg m else Z.pos m in
      if 0 <=? e then n * 2 ^ e
      else (2 * n + 2 ^ (- e)) / 2 ^ (1 - e)
  | _ => 0
  end.

(** *** [Number::toString] on integers

    An integer written in the program is the number nearest to it.  Up
    to [2^53] in magnitude every integer is a number, and it is printed
    digit for digit.  Above that the number is printed with the fewest
    significant digits that still identify it among the numbers (the
    digits nearest to its value when several do, the even last digit at
    a tie), followed by zeros; from 22 digits on, that is from [10^21],
    the exponent notation is used; a value beyond the largest number is
    [Infinity]. *)

(** The decimal digits of an integer, with a minus sign when negative. *)
Definition decimal (n : Z) : string := NilZero.string_of_int (Z.to_int n).

(** The number of decimal digits of a non-negative integer. *)
Definition digits (n : Z) : Z := Z.of_nat (String.length (decimal n)).

(** The text without its trailing zeros. *)
Fixpoint strip_zeros (s : string) : string :=
  match s with
  | EmptyString => EmptyString
  | String c s' =>
      match strip_zeros s' with
      | EmptyString => if Ascii.eqb c "0" then EmptyString else String c EmptyString
      | r => String c r
      end
  end.

(** The integer with the fewest significant digits whose nearest number
    is [x], the number of value [v]: the multiples of [p], a power of
    ten, on either side of [v] are tried, then those of [p / 10], and so
    on down to [v] itself. *)
Fixpoint shortest (fuel : nat) (x : number) (v p : Z) : Z :=
  match fuel with
  | O => v
  | S fuel' =>
      let lo := v / p * p in
      let hi := lo + p in
      let lo_ok := SFeqb (of_Z lo) x in
      let hi_ok := SFeqb (of_Z hi) x in
      if lo_ok && hi_ok then
        if v - lo <? hi - v then lo
        else if hi - v <? v - lo then hi
        else if Z.even (v / p) then lo else hi
      else if lo_ok then lo
      else if hi_ok then hi
      else shortest fuel' x v (p / 10)
  end.

(** The exponent notation of an integer of [n] digits [s]: its first
    significant digit, the other ones after a point when there are any,
    and [e+] with [n - 1]. *)
Definition scientific (s : string) : string :=
  let exponent := "e+" +:+ decimal (Z.of_nat (String.length s) - 1) in
  match strip_zeros s with
  | String d EmptyString => String d exponent
  | String d rest => String d ("." +:+ rest +:+ exponent)
  | EmptyString => s
  end.

(** [Number::toString] of the number nearest to the integer [a >= 0]. *)
Definition printed (a : Z) : string :=
  if a <=? 2 ^ 53 then decimal a
  else
    match of_Z a with
    | S754_finite _ m e =>
        let v := Z.pos m * 2 ^ e in
        let s := decimal (shortest (Z.to_nat (digits v - 1)) (of_Z a) v
                            (10 ^ (digits v - 1))) in
        if (String.length s <=? 21)%nat then s else scientific s
    | _ => "Infinity"
    end.

(** [Number::toString] of the number nearest to an integer. *)
Definition integer_to_string (z : Z) : string :=
  if z <? 0 then "-" +:+ printed (- z) else printed z.

End Number.

(** ** The similarity measure

    The scorer imports [compareTwoStrings] from the [string-similarity]
    package, which is not part of the repository. *)
Module StringSimilarity.
Import JsString Number.

(** Modelled from the spec: one more occurrence of the bigram [b] in the
    [Map] of bigram counts. *)
Definition count_bigram (m : gmap string nat) (b : string) : gmap string nat :=
  <[b := match m !! b with Some count => S count | None => 1%nat end]> m.

(** Modelled from the spec: the bigrams of the first string, counted. *)
Definition firstBigrams (first : string) : gmap string nat :=
  foldl count_bigram ∅ (bigrams first).

(** Modelled from the spec: a bigram of the second string that still has
    a positive count consumes one occurrence and adds one to the size of
    the intersection. *)
Definition match_bigram (st : gmap string nat * nat) (b : string)
  : gmap string nat * nat :=
  let count := default 0%nat (st.1 !! b) in
  if (0 <? count)%nat then (<[b := (count - 1)%nat]> st.1, S st.2) else st.

(** Modelled from the spec: the number of bigrams the two strings share,
    with multiplicity. *)
Definition intersectionSize (first second : string) : nat :=
  (foldl match_bigram (firstBigrams first, 0%nat) (bigrams second)).2.

(** Modelled from the spec: the source imports this function from a
    package outside the repository.  The specification asks for a bigram
    overlap ratio bounded to [0,1] under which identical strings (two
    empty strings included) score 1, disjoint strings score 0 and a
    partial overlap scores in proportion.  The definition is the measure
    of the [string-similarity] package, the Sørensen-Dice coefficient
    over character bigrams: white space is removed; equal strings score
    1; a string of fewer than two characters scores 0; otherwise the
    result is
    [(2.0 * intersectionSize) / (first.length + second.length - 2)]. *)
Definition compareTwoStrings (first second : string) : number :=
  let first := remove_all (Any [ClassSpace]) first in
  let second := remove_all (Any [ClassSpace]) second in
  if String.eqb first second then lit_1
  else if (String.length first <? 2)%nat || (String.length second <? 2)%nat then lit_0
  else
    div (mul lit_2 (of_Z (Z.of_nat (intersectionSize first second))))
        (sub (add (of_Z (Z.of_nat (String.length first)))
                  (of_Z (Z.of_nat (String.length second))))
             lit_2).

End StringSimilarity.

(** ** [src/utils/scoring.js] *)
Module Scoring.
Import JsString Number StringSimilarity.

(** [weights] *)
Definition weights_title : number := lit_0_4.
Definition weights_artist : number := lit_0_4.
Definition weights_album : number := lit_0_2.

(** [const normalize = (str) =>
      str?.toLowerCase().replace(/[^\w\s]/g, '').trim() || '']

    The optional chain stops at [undefined] and [null]; a value of
    another type has no [toLowerCase] method and the call raises. *)
Definition normalize (str : value) : result string :=
  match str with
  | VUndefined | VNull => Ok EmptyString
  | VStr s =>
      let r := trim (remove_all (NoneOf [ClassWord; ClassSpace]) (toLowerCase s)) in
      Ok (if String.eqb r EmptyString then EmptyString else r)
  | VBool _ | VNum _ => Throw TypeError
  end.

(** The weighted total, before rounding. *)
Definition totalScore (titleScore artistScore albumScore : number) : number :=
  mul (add (add (mul titleScore weights_title)
                (mul artistScore weights_artist))
           (mul albumScore weights_album))
      lit_100.

Definition calculateSongScore (originalSong candidateSong : option obj) : result Z :=
  match originalSong, candidateSong with
  | Some originalSong, Some candidateSong =>
      originalTitle ← normalize (get originalSong "name");
      originalArtist ← normalize (get originalSong "artist");
      originalAlbum ← normalize (get originalSong "album");
      candidateTitle ← normalize (get candidateSong "name");
      candidateArtist ← normalize (get candidateSong "artist");
      candidateAlbum ← normalize (get candidateSong "album");
      let titleScore := compareTwoStrings originalTitle candidateTitle in
      let artistScore := compareTwoStrings originalArtist candidateArtist in
      let albumScore := compareTwoStrings originalAlbum candidateAlbum in
      Ok (round (totalScore titleScore artistScore albumScore))
  | _, _ => Ok 0
  end.

(** The template literal [`${score}`]: [Number::toString] of the
    score. *)
Definition show (score : Z) : string := integer_to_string score.

Definition getConfidenceLevel (score : Z) : string :=
  if 98 <=? score then "Exact match"
  else if 90 <=? score then show score +:+ "% match"
  else if 80 <=? score then show score +:+ "% match"
  else if 60 <=? score then show score +:+ "% match"
  else show score +:+ "% match (low confidence)".

(** [{ ...candidate, matchScore: score }]; spreading [null] copies
    nothing. *)
Definition with_matchScore (candidate : option obj) (score : Z) : obj :=
  <["matchScore" := VNum score]> (default ∅ candidate).

(** The state of the loop: [bestMatch] and [bestScore]. *)
Definition best : Type := option obj * Z.

Definition visit (originalSong : option obj) (st : best) (candidate : option obj)
  : result best :=
  score ← calculateSongScore originalSong candidate;
  if st.2 <? score then Ok (Some (with_matchScore candidate score), score)
  else Ok st.

Fixpoint for_of (originalSong : option obj) (candidates : list (option obj))
  (st : best) : result best :=
  match candidates with
  | [] => Ok st
  | candidate :: rest =>
      st' ← visit originalSong st candidate;
      for_of originalSong rest st'
  end.

(** [candidates] is [None] for [null] or [undefined]. *)
Definition findBestMatch (originalSong : option obj)
  (candidates : option (list (option obj))) : result (option obj) :=
  match candidates with
  | None => Ok None
  | Some cs =>
      if (length cs =? 0)%nat then Ok None
      else
        st ← for_of originalSong cs (None, 0);
        Ok (if 60 <=? st.2 then st.1 else None)
  end.

End Scoring.

(** ** Numbers as real numbers

    The value of a number, and the numbers the scorer computes with:
    [+0] and the positive normal numbers of moderate size. *)
Module Binary64.
Import Number.

Definition bpow (e : Z) : R := powerRZ 2 e.

(** The real value of a finite number (0 for the others). *)
Definition B2R (x : number) : R :=
  match x with
  | S754_finite s m e => (if s then - IZR (Z.pos m) else IZR (Z.pos m)) * bpow e
  | _ => 0
  end.

(** A positive normal number: 53 significant bits, exponent in range. *)
Definition pos_normal (x : number) : bool :=
  match x with
  | S754_finite false m e => bounded 53 1024 m e && (Z.pos (digits2_pos m) =? 53)
  | _ => false
  end.

(** The relative error of one rounding, [2^-52]. *)
Definition eps : R := / 4503599627370496.

(** [+0], or a positive normal number between [2^-L] and [2^L]. *)
Definition tame (L : Z) (f : number) : Prop :=
  f = S754_zero false
  \/ (pos_normal f = true /\ (bpow (- L) <= B2R f <= bpow L)%R).

End Binary64.

(** ** The specification's wording

    Definitions that follow the sentences of the specification rather
    than the code; the theorems below compare them with the code. *)
Module Spec.
Import JsString.



(** What stays in the code: the letters A-Z and a-z only, the digits,
    the underscore and white space. *)
Definition word_or_space (c : ascii) : bool :=
  is_upper c || is_lower c || is_digit c || (code c =? 95)%N || is_space c.

Fixpoint drop_spaces (l : list ascii) : list ascii :=
  match l with
  | c :: l' => if is_space c then drop_spaces l' else l
  | [] => []
  end.

Definition trimmed (l : list ascii) : list ascii :=
  rev (drop_spaces (rev (drop_spaces l))).



(** "Combines the three field similarities with fixed weights: title
    0.4, artist 0.4, album 0.2" and "multiplies the weighted sum by
    100": the sum in exact arithmetic, on the values of the
    similarities. *)
Definition weighted_sum (titleScore artistScore albumScore : Number.number) : R :=
  (100 * (0.4 * Binary64.B2R titleScore + 0.4 * Binary64.B2R artistScore
          + 0.2 * Binary64.B2R albumScore))%R.

(** "rounds to the nearest integer (standard rounding, ties away from
    zero or to even)": no integer is nearer to [x] than [z], and where
    two are as near [z] is the one away from zero or the even one. *)
Definition rounded (x : R) (z : Z) : Prop :=
  (Rabs (IZR z - x) <= / 2)%R
  /\ ((Rabs (IZR z - x) = / 2)%R -> (Rabs x < Rabs (IZR z))%R \/ Z.even z = true).

(** "[calculateSongScore] returns an integer in [0,100] equal to the
    per-field similarities of the normalized name, artist and album
    combined with the fixed weights 0.4 (title), 0.4 (artist) and 0.2
    (album), multiplied by 100 and rounded to the nearest integer." *)
Definition weighted_rounded (originalSong candidateSong : obj) : Prop :=
  forall originalTitle originalArtist originalAlbum
         candidateTitle candidateArtist candidateAlbum : string,
    Scoring.normalize (get originalSong "name") = Ok originalTitle ->
    Scoring.normalize (get originalSong "artist") = Ok originalArtist ->
    Scoring.normalize (get originalSong "album") = Ok originalAlbum ->
    Scoring.normalize (get candidateSong "name") = Ok candidateTitle ->
    Scoring.normalize (get candidateSong "artist") = Ok candidateArtist ->
    Scoring.normalize (get candidateSong "album") = Ok candidateAlbum ->
    exists score,
      Scoring.calculateSongScore (Some originalSong) (Some candidateSong) = Ok score
      /\ 0 <= score <= 100
      /\ rounded (weighted_sum
                    (StringSimilarity.compareTwoStrings originalTitle candidateTitle)
                    (StringSimilarity.compareTwoStrings originalArtist candidateArtist)
                    (StringSimilarity.compareTwoStrings originalAlbum candidateAlbum))
                 score.

(** The labeler with its two real boundaries; "{score}" is the score
    in decimal digits. *)
Definition label (score : Z) : string :=
  if 98 <=? score then "Exact match"
  else if 60 <=? score then Number.decimal score +:+ "% match"
  else Number.decimal score +:+ "% match (low confidence)".

(** "For every candidate sequence containing two or more candidates
    attaining the maximal score, [findBestMatch] returns the candidate
    that appears earliest in the sequence among those attaining the
    maximum." *)
Definition earliest_wins (originalSong : option obj) (candidates : list (option obj))
  : Prop :=
  forall (l1 : list (option obj)) (c : obj) (l2 : list (option obj)) (m : Z),
    candidates = l1 ++ Some c :: l2 ->
    Forall (fun c' => exists s,
              Scoring.calculateSongScore originalSong c' = Ok s /\ s < m) l1 ->
    Scoring.calculateSongScore originalSong (Some c) = Ok m ->
    Forall (fun c' => exists s,
              Scoring.calculateSongScore originalSong c' = Ok s /\ s <= m) l2 ->
    (exists c', In c' l2 /\ Scoring.calculateSongScore originalSong c' = Ok m) ->
    Scoring.findBestMatch originalSong (Some candidates)
    = Ok (Some (Scoring.with_matchScore (Some c) m)).

(** "two records differing only in [album] score lower than identical
      records but still [> 70]", for albums whose normalized texts are
      not fully similar. *)
Definition album_only_lower (a b : obj) : Prop :=
  forall name artist albumA albumB la lb : string,
    a !! "name" = Some (VStr name) -> b !! "name" = Some (VStr name) ->
    a !! "artist" = Some (VStr artist) -> b !! "artist" = Some (VStr artist) ->
    a !! "album" = Some (VStr albumA) -> b !! "album" = Some (VStr albumB) ->
    Scoring.normalize (VStr albumA) = Ok la ->
    Scoring.normalize (VStr albumB) = Ok lb ->
    StringSimilarity.compareTwoStrings la lb <> Number.lit_1 ->
    exists score,
      Scoring.calculateSongScore (Some a) (Some b) = Ok score /\ 70 < score < 100.

End Spec.

Import JsString Number StringSimilarity Scoring Binary64.

(** A record with the three compared fields. *)
Definition song (name artist album : string) : obj :=
  {[ "name" := VStr name; "artist" := VStr artist; "album" := VStr album ]}.

(** ** Notions used by the statements *)

(** [candidate] is scored against [originalSong] without an exception,
    with result [score]. *)
Definition scored (originalSong candidate : option obj) (score : Z) : Prop :=
  calculateSongScore originalSong candidate = Ok score.

(** A string of fewer than [2^53] code units, the most a JavaScript
    string can have. *)
Definition short (s : string) : Prop := Z.of_nat (String.length s) < 2 ^ 53.

(** A compared field as the data model has it: absent, [null] or a
    string. *)
Definition field_ok (v : value) : Prop :=
  match v with
  | VUndefined | VNull => True
  | VStr s => short s
  | VBool _ | VNum _ => False
  end.

Definition well_formed (o : obj) : Prop :=
  field_ok (get o "name") /\ field_ok (get o "artist") /\ field_ok (get o "album").

(** The [Map] of bigram counts [m] holds the multiset [X]. *)
Definition counts (m : gmap string nat) (X : gmultiset string) : Prop :=
  forall b, default 0%nat (m !! b) = multiplicity b X.

(** Closed goals are settled by evaluation. *)
Ltac evaluate := vm_compute; reflexivity.

(** ** Values the scorer rejects

    [normalize] calls [toLowerCase] on every value that is neither
    [undefined] nor [null]; booleans and numbers have no such method. *)
Definition raises (v : value) : bool :=
  match v with
  | VBool _ | VNum _ => true
  | VUndefined | VNull | VStr _ => false
  end.

(** The values [normalize] takes: [undefined] and [null], where the
    optional chain stops, and strings. *)
Definition accepted (v : value) : bool :=
  match v with
  | VUndefined | VNull | VStr _ => true
  | VBool _ | VNum _ => false
  end.

(** The three properties [calculateSongScore] reads. *)
Definition compared_fields : list string := ["name"; "artist"; "album"].

(** ** More string methods *)
Module StringMethods.
Import JsString.

(** What is left of [s] after its prefix [p], when [s] starts with [p]. *)
Fixpoint strip_prefix (p s : string) : option string :=
  match p, s with
  | EmptyString, _ => Some s
  | String a p', String b s' => if Ascii.eqb a b then strip_prefix p' s' else None
  | String _ _, EmptyString => None
  end.

(** [s.includes(sub)] *)
Fixpoint includes (s sub : string) : bool :=
  match strip_prefix sub s with
  | Some _ => true
  | None =>
      match s with
      | String _ s' => includes s' sub
      | EmptyString => false
      end
  end.

(** Every code unit of [s] satisfies [p]. *)
Fixpoint all_chars (p : ascii -> bool) (s : string) : bool :=
  match s with
  | EmptyString => true
  | String c s' => p c && all_chars p s'
  end.

(** [s] is empty or starts with a code unit outside [p]. *)
Definition stops (p : ascii -> bool) (s : string) : bool :=
  match s with
  | EmptyString => true
  | String c _ => negb (p c)
  end.

(** The part of [s] before its suffix [s']. *)
Definition taken (s s' : string) : string :=
  substring 0 (String.length s - String.length s') s.

End StringMethods.

(** ** Regular expressions

    The regular expressions of the services and of the bot are written
    with literal text, the one-or-more quantifier on a character class,
    the optional quantifier and capture groups.  The matcher is the
    backtracking matcher of ECMAScript in continuation-passing style:
    a pattern is run on the text that is left, with the captures so
    far and the continuation that matches the rest of the pattern;
    quantifiers are greedy. *)
Module RegExp.
Import JsString StringMethods.

Inductive atom :=
| Chr (c : ascii)          (* a character *)
| Range (lo hi : ascii)    (* lo-hi *)
| Digit.                   (* \d *)

Inductive class :=
| Among (atoms : list atom)     (* [..], or an atom alone *)
| Except (atoms : list atom).   (* [^..] *)

Definition atom_matches (a : atom) (c : ascii) : bool :=
  match a with
  | Chr x => Ascii.eqb x c
  | Range lo hi => between (code lo) (code hi) c
  | Digit => is_digit c
  end.

Definition class_has (k : class) (c : ascii) : bool :=
  match k with
  | Among atoms => existsb (fun a => atom_matches a c) atoms
  | Except atoms => negb (existsb (fun a => atom_matches a c) atoms)
  end.

Inductive regex :=
| Lit (s : string)               (* literal text *)
| Plus (k : class)               (* k+ *)
| Opt (r : regex)                (* r? *)
| Group (n : nat) (r : regex)    (* (r), the n-th group *)
| Seq (r1 r2 : regex).           (* r1 r2 *)

(** The captures: group number to captured text; a group that did not
    take part is absent ([undefined]). *)
Abbreviation captures := (gmap nat string).

Section Matcher.
Context {A : Type}.

(** [k+]: as many code units of the class as possible, then fewer. *)
Fixpoint many (p : ascii -> bool) (k : string -> option A) (s : string) : option A :=
  match s with
  | String c s' =>
      if p c then
        match many p k s' with
        | Some x => Some x
        | None => k s'
        end
      else None
  | EmptyString => None
  end.

(** An optional part is tried first, and an empty match of it is not
    accepted (RepeatMatcher, step 2.b). *)
Fixpoint run (r : regex) (s : string) (caps : captures)
  (k : string -> captures -> option A) : option A :=
  match r with
  | Lit l =>
      match strip_prefix l s with
      | Some s' => k s' caps
      | None => None
      end
  | Plus c => many (class_has c) (fun s' => k s' caps) s
  | Opt r' =>
      match run r' s caps
              (fun s' caps' =>
                 if (String.length s' =? String.length s)%nat then None else k s' caps') with
      | Some x => Some x
      | None => k s caps
      end
  | Group n r' => run r' s caps (fun s' caps' => k s' (<[n := taken s s']> caps'))
  | Seq r1 r2 => run r1 s caps (fun s' caps' => run r2 s' caps' k)
  end.

End Matcher.

(** The match array: [index], [match[0]] and the groups. *)
Record match_result := {
  index : nat;
  whole : string;
  groups : captures
}.

(** The leftmost match at or after the start of [s], which stands at
    position [i] of the text. *)
Fixpoint search (r : regex) (s : string) (i : nat) : option match_result :=
  match run r s ∅ (fun s' caps => Some (s', caps)) with
  | Some (s', caps) => Some {| index := i; whole := taken s s'; groups := caps |}
  | None =>
      match s with
      | String _ s' => search r s' (S i)
      | EmptyString => None
      end
  end.

(** [r.exec(s)] for a pattern without flags. *)
Definition exec (r : regex) (s : string) : option match_result := search r s 0.

(** The matches of a pattern with the [g] flag, from left to right and
    without overlap: after a match the search goes on where the match
    ended ([skip] code units further), or one code unit further after
    an empty match. *)
Fixpoint scan (r : regex) (s : string) (skip : nat) : list string :=
  match skip with
  | S n =>
      match s with
      | String _ s' => scan r s' n
      | EmptyString => []
      end
  | O =>
      match run r s ∅ (fun s' _ => Some s') with
      | Some rest =>
          taken s rest ::
            match s with
            | String _ s' => scan r s' (String.length (taken s rest) - 1)
            | EmptyString => []
            end
      | None =>
          match s with
          | String _ s' => scan r s' 0
          | EmptyString => []
          end
      end
  end.

(** [s.match(r)] for a pattern with the [g] flag: [null] without a
    match. *)
Definition match_all (s : string) (r : regex) : option (list string) :=
  match scan r s 0 with
  | [] => None
  | l => Some l
  end.

(** The texts a pattern matches, with the captures before and after. *)
Fixpoint denotes (r : regex) (t : string) (c c' : captures) : Prop :=
  match r with
  | Lit l => t = l /\ c' = c
  | Plus k => t <> EmptyString /\ all_chars (class_has k) t = true /\ c' = c
  | Opt r' => (t = EmptyString /\ c' = c) \/ (t <> EmptyString /\ denotes r' t c c')
  | Group n r' => exists c1, denotes r' t c c1 /\ c' = <[n := t]> c1
  | Seq r1 r2 =>
      exists t1 t2 c1, t = t1 +:+ t2 /\ denotes r1 t1 c c1 /\ denotes r2 t2 c1 c'
  end.

End RegExp.

(** ** A [Set] of primitive values

    Its elements in insertion order, none twice. *)
Module JsSet.
Section Elements.
Context {A : Type} `{EqDecision A}.

Definition has (s : list A) (x : A) : bool := bool_decide (x ∈ s).

Definition add (s : list A) (x : A) : list A := if has s x then s else s ++ [x].

Definition delete (s : list A) (x : A) : list A :=
  List.filter (fun y => negb (bool_decide (y = x))) s.

(** [new Set(l)] *)
Definition of_list (l : list A) : list A := foldl add [] l.

End Elements.
End JsSet.

(** ** Values in conditions and in text *)
Module JsValue.
Import StringMethods.

(** ToBoolean *)
Definition truthy (v : value) : bool :=
  match v with
  | VUndefined | VNull => false
  | VBool b => b
  | VNum n => negb (n =? 0)
  | VStr s => negb (String.eqb s EmptyString)
  end.

(** [a || b] *)
Definition or_else (a b : value) : value := if truthy a then a else b.

(** A value in a template literal. *)
Definition to_string (v : value) : string :=
  match v with
  | VUndefined => "undefined"
  | VNull => "null"
  | VBool true => "true"
  | VBool false => "false"
  | VNum n => Scoring.show n
  | VStr s => s
  end.

(** [s.replace(pattern, replacement)] for a pattern that is a string
    and a replacement without [$]: the first occurrence is replaced. *)
Fixpoint replace (s pattern replacement : string) : string :=
  match strip_prefix pattern s with
  | Some rest => replacement +:+ rest
  | None =>
      match s with
      | String c s' => String c (replace s' pattern replacement)
      | EmptyString => EmptyString
      end
  end.

End JsValue.

(** ** [src/services/spotify.js] *)
Module SpotifyService.
Import StringMethods RegExp.

(** [[a-zA-Z0-9]] *)
Definition alnum : class :=
  Among [Range "a"%char "z"%char; Range "A"%char "Z"%char; Range "0"%char "9"%char].

(** [/spotify\.com\/track\/([a-zA-Z0-9]+)/] *)
Definition trackRegex : regex :=
  Seq (Lit "spotify.com/track/") (Group 1%nat (Plus alnum)).

(** [/spotify\.com\/album\/([a-zA-Z0-9]+)/] *)
Definition albumRegex : regex :=
  Seq (Lit "spotify.com/album/") (Group 1%nat (Plus alnum)).

(** [match ? match[1] : null] *)
Definition extractTrackIdFromUrl (url : string) : option string :=
  match exec trackRegex url with
  | Some m => groups m !! 1%nat
  | None => None
  end.

Definition extractAlbumIdFromUrl (url : string) : option string :=
  match exec albumRegex url with
  | Some m => groups m !! 1%nat
  | None => None
  end.

Definition isValidUrl (url : string) : bool :=
  includes url "spotify.com/" || includes url "open.spotify.com/".

(** The data of the Web API, as far as the service reads it; an
    optional part is [None] when the property is missing or [null]. *)
Record Artist := { artist_name : value }.
Record Image := { image_url : value }.
Record AlbumRef := { album_name : value; album_images : option (list Image) }.
Record ExternalUrls := { spotify : value }.

Record Track := {
  track_id : value;
  track_name : value;
  track_artists : option (list Artist);
  track_album : option AlbumRef;
  preview_url : value;
  track_external_urls : option ExternalUrls
}.

Record Album := {
  album_id : value;
  name : value;
  artists : option (list Artist);
  images : option (list Image);
  external_urls : option ExternalUrls
}.

(** [artists.length > 0 ? artists[0].name : 'Unknown Artist'] *)
Definition artistName (artists : list Artist) : value :=
  match artists with
  | a :: _ => artist_name a
  | [] => VStr "Unknown Artist"
  end.

(** [images.length > 0 ? images[0].url : null] *)
Definition imageUrl (images : list Image) : value :=
  match images with
  | i :: _ => image_url i
  | [] => VNull
  end.

(** [x?.spotify] *)
Definition spotify_of (urls : option ExternalUrls) : value :=
  match urls with
  | Some u => spotify u
  | None => VUndefined
  end.

Definition createSongFromSpotifyTrack (track : Track) : obj :=
  let artists := default [] (track_artists track) in
  let images := default [] (track_album track ≫= album_images) in
  {[ "id" := track_id track;
     "name" := track_name track;
     "artist" := artistName artists;
     "album" := JsValue.or_else (from_option album_name VUndefined (track_album track))
                  (VStr "Unknown Album");
     "imageUrl" := imageUrl images;
     "previewUrl" := preview_url track;
     "externalUrl" := spotify_of (track_external_urls track);
     "platform" := VStr "spotify" ]}.

Definition createSongFromSpotifyAlbum (album : Album) : obj :=
  let artists := default [] (artists album) in
  let images := default [] (images album) in
  {[ "id" := album_id album;
     "name" := name album;
     "artist" := artistName artists;
     "album" := name album;
     "imageUrl" := imageUrl images;
     "previewUrl" := VNull;
     "externalUrl" := spotify_of (external_urls album);
     "platform" := VStr "spotify" ]}.

End SpotifyService.

Module AppleMusicService.
Import StringMethods RegExp.

(** [[^/]] and [\d] *)
Definition no_slash : class := Except [Chr "/"%char].
Definition digit : class := Among [Digit].

(** [/music\.apple\.com\/[^/]+\/song\/[^/]+\/(\d+)/] *)
Definition songRegex : regex :=
  Seq (Lit "music.apple.com/")
    (Seq (Plus no_slash)
       (Seq (Lit "/song/")
          (Seq (Plus no_slash)
             (Seq (Lit "/") (Group 1%nat (Plus digit)))))).

(** [/music\.apple\.com\/[^/]+\/album\/[^/]+\/\d+\?i=(\d+)/] *)
Definition albumTrackRegex : regex :=
  Seq (Lit "music.apple.com/")
    (Seq (Plus no_slash)
       (Seq (Lit "/album/")
          (Seq (Plus no_slash)
             (Seq (Lit "/")
                (Seq (Plus digit)
                   (Seq (Lit "?i=") (Group 1%nat (Plus digit)))))))).

(** [/music\.apple\.com\/[^/]+\/album\/[^/]+\/(\d+)/] *)
Definition albumRegex : regex :=
  Seq (Lit "music.apple.com/")
    (Seq (Plus no_slash)
       (Seq (Lit "/album/")
          (Seq (Plus no_slash)
             (Seq (Lit "/") (Group 1%nat (Plus digit)))))).

Definition extractTrackIdFromUrl (url : string) : option string :=
  match exec songRegex url with
  | Some songMatch => groups songMatch !! 1%nat
  | None =>
      match exec albumTrackRegex url with
      | Some albumTrackMatch => groups albumTrackMatch !! 1%nat
      | None => None
      end
  end.

Definition extractAlbumIdFromUrl (url : string) : option string :=
  match exec albumRegex url with
  | Some m => groups m !! 1%nat
  | None => None
  end.

Definition isValidUrl (url : string) : bool := includes url "music.apple.com/".

(** A resource of the Apple Music API, as far as the service reads
    it. *)
Record Artwork := { artwork_url : value }.
Record Preview := { preview_url : value }.

Record Attributes := {
  name : value;
  artistName : value;
  albumName : value;
  artwork : option Artwork;
  previews : option (list Preview);
  url : value
}.

Record Resource := {
  id : value;
  attributes : option Attributes
}.

(** [track.attributes || {}] *)
Definition no_attributes : Attributes :=
  {| name := VUndefined; artistName := VUndefined; albumName := VUndefined;
     artwork := None; previews := None; url := VUndefined |}.

(** [artwork.url.replace('{w}', '640').replace('{h}', '640')], when
    there is an artwork with a url; a url that is not a string has no
    [replace]. *)
Definition imageUrl (artwork : option Artwork) : result value :=
  match artwork with
  | Some a =>
      if JsValue.truthy (artwork_url a) then
        match artwork_url a with
        | VStr u => Ok (VStr (JsValue.replace (JsValue.replace u "{w}" "640") "{h}" "640"))
        | _ => Throw TypeError
        end
      else Ok VNull
  | None => Ok VNull
  end.

(** [previews.length > 0 ? previews[0].url : null] *)
Definition previewUrl (previews : list Preview) : value :=
  match previews with
  | p :: _ => preview_url p
  | [] => VNull
  end.

Definition createSongFromAppleMusicTrack (track : Resource) : result obj :=
  let attributes := default no_attributes (attributes track) in
  imageUrl ← imageUrl (artwork attributes);
  let previews := default [] (previews attributes) in
  Ok {[ "id" := id track;
        "name" := JsValue.or_else (name attributes) (VStr "Unknown Track");
        "artist" := JsValue.or_else (artistName attributes) (VStr "Unknown Artist");
        "album" := JsValue.or_else (albumName attributes) (VStr "Unknown Album");
        "imageUrl" := imageUrl;
        "previewUrl" := previewUrl previews;
        "externalUrl" :=
          JsValue.or_else (url attributes)
            (VStr ("https://music.apple.com/song/" +:+ JsValue.to_string (id track)));
        "platform" := VStr "apple_music" ]}.

Definition createSongFromAppleMusicAlbum (album : Resource) : result obj :=
  let attributes := default no_attributes (attributes album) in
  imageUrl ← imageUrl (artwork attributes);
  Ok {[ "id" := id album;
        "name" := JsValue.or_else (name attributes) (VStr "Unknown Album");
        "artist" := JsValue.or_else (artistName attributes) (VStr "Unknown Artist");
        "album" := JsValue.or_else (name attributes) (VStr "Unknown Album");
        "imageUrl" := imageUrl;
        "previewUrl" := VNull;
        "externalUrl" :=
          JsValue.or_else (url attributes)
            (VStr ("https://music.apple.com/album/" +:+ JsValue.to_string (id album)));
        "platform" := VStr "apple_music" ]}.

End AppleMusicService.

(** ** [src/services/converter.js]: [detectMusicLink] *)
Module Converter.

(** [{ platform, type, id, originalUrl }] *)
Record link := {
  platform : string;
  type : string;
  id : string;
  originalUrl : string
}.

(** An id is taken when it is neither [null] nor the empty string. *)
Definition truthy (id : option string) : bool :=
  match id with
  | Some (String _ _) => true
  | _ => false
  end.

(** The two branches of one service: the track id first, then the album
    id. *)
Definition link_of (platform : string) (trackId albumId : option string) (url : string)
  : option link :=
  if truthy trackId then
    Some {| platform := platform; type := "track";
            id := default EmptyString trackId; originalUrl := url |}
  else if truthy albumId then
    Some {| platform := platform; type := "album";
            id := default EmptyString albumId; originalUrl := url |}
  else None.

Definition detectMusicLink (url : value) : option link :=
  match url with
  | VStr url =>
      if String.eqb url EmptyString then None
      else
        match
          (if SpotifyService.isValidUrl url then
             link_of "spotify" (SpotifyService.extractTrackIdFromUrl url)
               (SpotifyService.extractAlbumIdFromUrl url) url
           else None)
        with
        | Some l => Some l
        | None =>
            if AppleMusicService.isValidUrl url then
              link_of "apple_music" (AppleMusicService.extractTrackIdFromUrl url)
                (AppleMusicService.extractAlbumIdFromUrl url) url
            else None
        end
  | VUndefined | VNull | VBool _ | VNum _ => None
  end.

End Converter.

(** ** The segments of a link

    The texts between the slashes of a string, and the string they
    come from. *)
Module Segments.

Fixpoint segs (s : string) : list string :=
  match s with
  | EmptyString => [EmptyString]
  | String c s' =>
      if Ascii.eqb "/" c then EmptyString :: segs s'
      else String c (hd EmptyString (segs s')) :: tl (segs s')
  end.

Fixpoint join (l : list string) : string :=
  match l with
  | [] => EmptyString
  | [x] => x
  | x :: l' => x +:+ String "/" (join l')
  end.

(** [s.endsWith(w)] *)
Definition ends_with (s w : string) : bool :=
  String.eqb (substring (String.length s - String.length w) (String.length w) s) w.

End Segments.

(** ** The shapes of the links

    The links the two services hand out, as the statements below build
    them: [http://] or [https://], the host, and the path. *)
Module Links.

Definition scheme (secure : bool) : string :=
  if secure then "https://" else "http://".

(** [https://open.spotify.com/track/ID...]; the host is [spotify.com]
    when [open] is off. *)
Definition spotify_url (secure open : bool) (kind id rest : string) : string :=
  scheme secure +:+ (if open then "open." else "") +:+ "spotify.com/" +:+ kind +:+ "/"
  +:+ id +:+ rest.

(** [https://music.apple.com/us/song/some-name/ID...] *)
Definition apple_url (secure : bool) (storefront kind name tail : string) : string :=
  scheme secure +:+ "music.apple.com/" +:+ storefront +:+ "/" +:+ kind +:+ "/"
  +:+ name +:+ "/" +:+ tail.

End Links.

(** ** [src/bot/bot.js] *)
Module SMBot.
Import RegExp.

(** [https?:\/\/] followed by [rest] *)
Definition http (rest : regex) : regex :=
  Seq (Lit "http") (Seq (Opt (Lit "s")) (Seq (Lit "://") rest)).

Definition spotifyPatterns : list regex :=
  [ http (Seq (Lit "open.spotify.com/track/") (Plus SpotifyService.alnum));
    http (Seq (Lit "open.spotify.com/album/") (Plus SpotifyService.alnum));
    http (Seq (Lit "spotify.com/track/") (Plus SpotifyService.alnum));
    http (Seq (Lit "spotify.com/album/") (Plus SpotifyService.alnum)) ].

Definition appleMusicPatterns : list regex :=
  [ http (Seq (Lit "music.apple.com/")
            (Seq (Plus AppleMusicService.no_slash)
               (Seq (Lit "/song/")
                  (Seq (Plus AppleMusicService.no_slash)
                     (Seq (Lit "/") (Plus AppleMusicService.digit))))));
    http (Seq (Lit "music.apple.com/")
            (Seq (Plus AppleMusicService.no_slash)
               (Seq (Lit "/album/")
                  (Seq (Plus AppleMusicService.no_slash)
                     (Seq (Lit "/")
                        (Seq (Plus AppleMusicService.digit)
                           (Opt (Group 1%nat
                                   (Seq (Lit "?i=") (Plus AppleMusicService.digit))))))))))
  ].

Definition allPatterns : list regex := spotifyPatterns ++ appleMusicPatterns.

(** One turn of the loop: the matches of a pattern are pushed, if there
    are any. *)
Definition push_matches (text : string) (links : list string) (pattern : regex)
  : list string :=
  match match_all text pattern with
  | Some matches => links ++ matches
  | None => links
  end.

Definition extractMusicLinks (text : string) : list string :=
  JsSet.of_list (foldl (push_matches text) [] allPatterns).

(** *** Subscriptions

    The bot keeps the subscribed chats in the Set [this.chats] and, as
    a JSON array, in the row [telegram_chat_ids] of the setup table;
    [JSON.parse] gives back the array [JSON.stringify] was given, and
    the row is modelled by that array ([None]: there is no row).  A
    chat id is an integer, or [undefined] when the update has no
    chat. *)
Record bot := {
  chats : list Z;
  saved : option (list Z)
}.

(** [!chatId] *)
Definition missing (chatId : option Z) : bool :=
  match chatId with
  | None => true
  | Some n => n =? 0
  end.

(** [this.chats.has(chatId)] *)
Definition subscribed (b : bot) (chatId : option Z) : bool :=
  match chatId with
  | None => false
  | Some n => JsSet.has (chats b) n
  end.

Definition addChatId (b : bot) (chatId : Z) : bot :=
  if JsSet.has (chats b) chatId then b
  else
    let chats' := JsSet.add (chats b) chatId in
    {| chats := chats'; saved := Some chats' |}.

Definition removeChatId (b : bot) (chatId : Z) : bot :=
  if negb (JsSet.has (chats b) chatId) then b
  else
    let chats' := JsSet.delete (chats b) chatId in
    {| chats := chats'; saved := Some chats' |}.

(** [getSetupValue(SETUP_CHATS_KEY, [], true)], then [new Set(chatIds)] *)
Definition loadChatIds (b : bot) : bot :=
  {| chats := JsSet.of_list (default [] (saved b)); saved := saved b |}.

(** The replies, by what they say (their texts hold characters outside
    Latin-1). *)
Inductive reply :=
| UnableToIdentifyChat
| IncorrectPassword
| Welcome (chatId : Z)
| Stopped.

Definition handleStartCommand (botPassword : string) (b : bot)
  (chatId : option Z) (password : string) : bot * reply :=
  match chatId with
  | Some id =>
      if missing chatId then (b, UnableToIdentifyChat)
      else if negb (String.eqb password botPassword) then (b, IncorrectPassword)
      else (addChatId b id, Welcome id)
  | None => (b, UnableToIdentifyChat)
  end.

Definition handleStopCommand (b : bot) (chatId : option Z) : bot * reply :=
  match chatId with
  | Some id =>
      if missing chatId then (b, UnableToIdentifyChat)
      else (removeChatId b id, Stopped)
  | None => (b, UnableToIdentifyChat)
  end.

(** The link [handleTextMessage] hands to
    [processAndReplyWithConversion], if any; [messageText] is
    [ctx.message?.text]. *)
Definition handleTextMessage (b : bot) (chatId : option Z) (messageText : option string)
  : option string :=
  if negb (subscribed b chatId) then None
  else
    match messageText with
    | None | Some EmptyString => None
    | Some text =>
        match extractMusicLinks text with
        | [] => None
        | link :: _ => Some link
        end
    end.

(** The updates the bot handles, and the handlers applied to a sequence
    of updates, each handled to its end before the next. *)
Inductive update :=
| StartCommand (chatId : option Z) (payload : string)
| StopCommand (chatId : option Z)
| TextMessage (chatId : option Z) (text : option string).

Definition handle (botPassword : string) (b : bot) (u : update) : bot :=
  match u with
  | StartCommand chatId payload => (handleStartCommand botPassword b chatId payload).1
  | StopCommand chatId => (handleStopCommand b chatId).1
  | TextMessage _ _ => b
  end.

Definition handle_all (botPassword : string) (b : bot) (us : list update) : bot :=
  foldl (handle botPassword) b us.

End SMBot.

(** * Theorems *)

(** ** The tests of the repository, evaluated on the embedding *)

Example test_identical_songs :
  calculateSongScore
    (Some (song "Never Gonna Give You Up" "Rick Astley" "Whenever You Need Somebody"))
    (Some (song "Never Gonna Give You Up" "Rick Astley" "Whenever You Need Somebody"))
  = Ok 100.
Proof. evaluate. Qed.

Example test_null_inputs :
  calculateSongScore None (Some ∅) = Ok 0
  /\ calculateSongScore (Some ∅) None = Ok 0
  /\ calculateSongScore None None = Ok 0.
Proof. repeat split. Qed.

Example test_partial_match :
  calculateSongScore
    (Some (song "Bohemian Rhapsody" "Queen" "A Night at the Opera"))
    (Some (song "Bohemian Rhapsody" "Queen" "Queen Greatest Hits"))
  = Ok 83.
Proof. evaluate. Qed.

Example test_case_insensitive :
  calculateSongScore (Some (song "HELLO" "ADELE" "25")) (Some (song "hello" "adele" "25"))
  = Ok 100.
Proof. evaluate. Qed.

Example test_punctuation :
  calculateSongScore
    (Some (song "Don't Stop Me Now" "Queen" "Jazz"))
    (Some (song "Dont Stop Me Now" "Queen" "Jazz"))
  = Ok 100.
Proof. evaluate. Qed.

Example test_labels :
  getConfidenceLevel 95 = "95% match"
  /\ getConfidenceLevel 90 = "90% match"
  /\ getConfidenceLevel 50 = "50% match (low confidence)"
  /\ getConfidenceLevel 30 = "30% match (low confidence)".
Proof. repeat split. Qed.

Example test_empty_candidates :
  findBestMatch (Some (song "Imagine" "John Lennon" "Imagine")) (Some []) = Ok None
  /\ findBestMatch (Some (song "Imagine" "John Lennon" "Imagine")) None = Ok None.
Proof. split; reflexivity. Qed.

Example test_best_candidate :
  findBestMatch (Some (song "Imagine" "John Lennon" "Imagine"))
    (Some [Some (song "Imagine" "John Lennon" "The John Lennon Collection");
           Some (song "Imagine" "John Lennon" "Imagine");
           Some (song "Yesterday" "The Beatles" "Help!")])
  = Ok (Some (<["matchScore" := VNum 100]> (song "Imagine" "John Lennon" "Imagine"))).
Proof. evaluate. Qed.

Example test_no_good_match :
  findBestMatch (Some (song "Imagine" "John Lennon" "Imagine"))
    (Some [Some (song "Completely Different Song" "Different Artist" "Different Album")])
  = Ok None.
Proof. evaluate. Qed.

(** A field that is not a string makes the scorer raise. *)
Example number_as_name_raises :
  calculateSongScore (Some (song "Imagine" "John Lennon" "Imagine"))
    (Some {[ "name" := VNum 7 ]})
  = Throw TypeError.
Proof. evaluate. Qed.

(** The literals are the numbers nearest to 0.4, 0.2, 100 and 1. *)
Example literals_nearest :
  div (of_Z 4) (of_Z 10) = lit_0_4
  /\ div (of_Z 2) (of_Z 10) = lit_0_2
  /\ of_Z 100 = lit_100
  /\ of_Z 1 = lit_1
  /\ of_Z 2 = lit_2
  /\ of_Z 0 = lit_0.
Proof. repeat split; evaluate. Qed.

(** The similarities documented by the [string-similarity] package. *)
Example similarity_samples :
  compareTwoStrings "healed" "sealed" = div (of_Z 8) (of_Z 10)
  /\ compareTwoStrings "french" "quebec" = lit_0
  /\ compareTwoStrings "" "" = lit_1
  /\ compareTwoStrings "a" "b" = lit_0.
Proof. repeat split; evaluate. Qed.

(** ** Normalization *)

Lemma trimEnd_nil (s : string) :
  trimEnd s = EmptyString <-> forallb is_space (list_ascii_of_string s) = true.
Proof.
  induction s as [|c s IH]; simpl; [tauto|].
  destruct (trimEnd s) eqn:E.
  - destruct (is_space c); simpl.
    + split; [intros _; apply IH; reflexivity | reflexivity].
    + split; discriminate.
  - rewrite andb_true_iff. split; [discriminate|].
    intros [_ H]. apply IH in H. discriminate.
Qed.

Lemma drop_spaces_snoc (l : list ascii) (c : ascii) :
  Spec.drop_spaces (l ++ [c]) =
    if forallb is_space l then (if is_space c then [] else [c])
    else Spec.drop_spaces l ++ [c].
Proof.
  induction l as [|a l IH]; simpl; [reflexivity|].
  destruct (is_space a); simpl; [exact IH | reflexivity].
Qed.

Lemma forallb_rev {A} (p : A -> bool) (l : list A) :
  forallb p (rev l) = forallb p l.
Proof.
  induction l as [|a l IH]; simpl; [reflexivity|].
  rewrite forallb_app, IH. simpl. rewrite andb_true_r. apply andb_comm.
Qed.

Lemma trimEnd_list (s : string) :
  list_ascii_of_string (trimEnd s) =
    rev (Spec.drop_spaces (rev (list_ascii_of_string s))).
Proof.
  induction s as [|c s IH]; simpl; [reflexivity|].
  rewrite drop_spaces_snoc, forallb_rev.
  destruct (trimEnd s) eqn:E.
  - assert (H : forallb is_space (list_ascii_of_string s) = true)
      by (apply trimEnd_nil; exact E).
    rewrite H. destruct (is_space c); reflexivity.
  - destruct (forallb is_space (list_ascii_of_string s)) eqn:H.
    + apply trimEnd_nil in H. congruence.
    + rewrite rev_app_distr. simpl. rewrite <- IH. reflexivity.
Qed.

Lemma trimStart_list (s : string) :
  list_ascii_of_string (trimStart s) = Spec.drop_spaces (list_ascii_of_string s).
Proof.
  induction s as [|c s IH]; simpl; [reflexivity|].
  destruct (is_space c); [exact IH | reflexivity].
Qed.

Lemma trim_list (s : string) :
  list_ascii_of_string (trim s) = Spec.trimmed (list_ascii_of_string s).
Proof. unfold trim, Spec.trimmed. rewrite trimEnd_list, trimStart_list. reflexivity. Qed.

Lemma toLowerCase_list (s : string) :
  list_ascii_of_string (toLowerCase s) = map lower_char (list_ascii_of_string s).
Proof. induction s as [|c s IH]; simpl; [|rewrite IH]; reflexivity. Qed.

Lemma remove_all_list (b : bracket) (s : string) :
  list_ascii_of_string (remove_all b s) =
    List.filter (fun c => negb (bracket_matches b c)) (list_ascii_of_string s).
Proof.
  induction s as [|c s IH]; simpl; [reflexivity|].
  destruct (bracket_matches b c); simpl; [exact IH | now f_equal].
Qed.

Lemma word_or_space_bracket (c : ascii) :
  negb (bracket_matches (NoneOf [ClassWord; ClassSpace]) c) = Spec.word_or_space c.
Proof.
  unfold Spec.word_or_space. simpl. unfold is_word.
  rewrite negb_involutive, orb_false_r. reflexivity.
Qed.

(** Beyond ASCII nothing is kept but the no-break space inside the
    text: U+00C0 is lower-cased to U+00E0 and stripped, the superscript
    two U+00B2 is stripped, a no-break space at either end is
    trimmed. *)
Example normalize_latin1 :
  normalize (VStr (String "192" "BBA")) = Ok "bba"
  /\ normalize (VStr ("x" +:+ String "178" EmptyString)) = Ok "x"
  /\ normalize (VStr (String "160" "AC/DC" +:+ String "160" EmptyString)) = Ok "acdc"
  /\ normalize (VStr ("Bon" +:+ String "160" "Jovi"))
     = Ok ("bon" +:+ String "160" "jovi").
Proof. vm_compute. repeat split. Qed.



(** ** The labeler *)

Lemma decimal_negative (n : Z) : n < 0 -> decimal n = "-" +:+ decimal (- n).
Proof. intros H. destruct n as [|p|p]; [lia | lia | reflexivity]. Qed.

(** An integer of magnitude up to [2^53] is printed digit for digit. *)
Lemma show_decimal (score : Z) :
  - 2 ^ 53 <= score <= 2 ^ 53 -> show score = decimal score.
Proof.
  intros H. unfold show, integer_to_string, printed.
  destruct (Z.ltb_spec score 0) as [Hn|Hn].
  - destruct (Z.leb_spec (- score) (2 ^ 53)) as [_|Hb]; [|lia].
    symmetry. now apply decimal_negative.
  - destruct (Z.leb_spec score (2 ^ 53)) as [_|Hb]; [reflexivity | lia].
Qed.

(** The printing of integers on either side of [2^53] and of [10^21]. *)
Example show_samples :
  show 0 = "0" /\ show (-3) = "-3" /\ show 250 = "250"
  /\ show (2 ^ 53) = "9007199254740992"
  /\ show (2 ^ 53 + 1) = "9007199254740992"
  /\ show (2 ^ 53 + 2) = "9007199254740994"
  /\ show (2 ^ 60) = "1152921504606847000"
  /\ show (10 ^ 21 - 2 ^ 17) = "999999999999999900000"
  /\ show (10 ^ 21) = "1e+21"
  /\ show (10 ^ 23) = "1e+23"
  /\ show (2 ^ 70) = "1.1805916207174113e+21"
  /\ show (- 2 ^ 1023) = "-8.98846567431158e+307"
  /\ show (2 ^ 1024) = "Infinity".
Proof. vm_compute. repeat split. Qed.

(** C4, as the code has it: [getConfidenceLevel] is defined on every
    integer and has two boundaries only: it returns "Exact match" from
    98 up, [`${score}% match`] from 60 to 97 and
    [`${score}% match (low confidence)`] below 60.  On every integer
    from [-2^53] up the template literal prints the score in decimal
    digits, and the label is the one of the specification. *)
Theorem getConfidenceLevel_label (score : Z) :
  getConfidenceLevel score
  = (if 98 <=? score then "Exact match"
     else if 60 <=? score then show score +:+ "% match"
     else show score +:+ "% match (low confidence)")
  /\ (- 2 ^ 53 <= score -> getConfidenceLevel score = Spec.label score)
  /\ getConfidenceLevel 100 = "Exact match"
  /\ getConfidenceLevel 98 = "Exact match"
  /\ getConfidenceLevel 97 = "97% match"
  /\ getConfidenceLevel 60 = "60% match"
  /\ getConfidenceLevel 59 = "59% match (low confidence)"
  /\ getConfidenceLevel (-3) = "-3% match (low confidence)"
  /\ getConfidenceLevel 250 = "Exact match".
Proof.
  assert (E : getConfidenceLevel score
              = (if 98 <=? score then "Exact match"
                 else if 60 <=? score then show score +:+ "% match"
                 else show score +:+ "% match (low confidence)")).
  { unfold getConfidenceLevel.
    destruct (98 <=? score) eqn:H98; [reflexivity|].
    destruct (90 <=? score) eqn:H90.
    { assert (H : (60 <=? score) = true) by lia. now rewrite H. }
    destruct (80 <=? score) eqn:H80.
    { assert (H : (60 <=? score) = true) by lia. now rewrite H. }
    reflexivity. }
  split; [exact E|]. split; [|repeat split; reflexivity].
  intros H. rewrite E. unfold Spec.label.
  destruct (Z.leb_spec 98 score) as [_|H98]; [reflexivity|].
  assert (Hb : 98 < 2 ^ 53) by reflexivity.
  rewrite show_decimal by lia. reflexivity.
Qed.

Lemma getConfidenceLevel_label_witness :
  - 2 ^ 53 <= - 2 ^ 53
  /\ getConfidenceLevel (- 2 ^ 53) = "-9007199254740992% match (low confidence)"
  /\ getConfidenceLevel (- 2 ^ 53) = Spec.label (- 2 ^ 53).
Proof.
  split; [lia|]. split; [vm_compute; reflexivity|].
  apply (getConfidenceLevel_label (- 2 ^ 53)). lia.
Defined.

(** C4, as worded, fails on integers of large magnitude, which the
    template literal does not print digit for digit: the number nearest
    to [-2^60] is printed with its 16 significant digits and three
    zeros, and [-10^21] with an exponent. *)
Lemma getConfidenceLevel_exponent :
  getConfidenceLevel (- 10 ^ 21) = "-1e+21% match (low confidence)"
  /\ Spec.label (- 10 ^ 21) = "-1000000000000000000000% match (low confidence)"
  /\ getConfidenceLevel (- 10 ^ 21) <> Spec.label (- 10 ^ 21)
  /\ getConfidenceLevel (- 2 ^ 60) = "-1152921504606847000% match (low confidence)"
  /\ Spec.label (- 2 ^ 60) = "-1152921504606846976% match (low confidence)"
  /\ getConfidenceLevel (- 2 ^ 60) <> Spec.label (- 2 ^ 60).
Proof. repeat split; try (vm_compute; reflexivity); vm_compute; discriminate. Qed.

(** ** Binary64 arithmetic against the real numbers

    [SpecFloat] rounds a mantissa and an exponent by shifting the
    mantissa right until 53 bits are left and rounding the last place to
    nearest, ties to even.  For a positive value in the normal range the
    result is one of the two neighbours of the exact value on the grid of
    53-bit mantissas, hence within a relative error of [2^-52].  This is
    proved for the rounding first, then for each operation the scorer
    uses. *)

(** *** Powers of two *)

Lemma bpow_pos e : (0 < bpow e)%R.
Proof. apply powerRZ_lt. lra. Qed.

Lemma bpow_add a b : bpow (a + b) = (bpow a * bpow b)%R.
Proof. apply powerRZ_add. lra. Qed.

Lemma bpow_IZR e : 0 <= e -> bpow e = IZR (2 ^ e).
Proof.
  intros H. destruct e as [|p|p]; [reflexivity| |lia].
  unfold bpow. rewrite <- Zpower_pos_powerRZ. reflexivity.
Qed.

Lemma bpow_ge_1 e : 0 <= e -> (1 <= bpow e)%R.
Proof.
  intros H. rewrite bpow_IZR by exact H. apply IZR_le.
  pose proof (Z.pow_pos_nonneg 2 e). lia.
Qed.

Lemma bpow_le a b : a <= b -> (bpow a <= bpow b)%R.
Proof.
  intros H. replace b with (a + (b - a)) by lia. rewrite bpow_add.
  pose proof (bpow_pos a). pose proof (bpow_ge_1 (b - a)).
  assert (1 <= bpow (b - a))%R by (apply H1; lia). nra.
Qed.

Lemma bpow_lt a b : a < b -> (bpow a < bpow b)%R.
Proof.
  intros H. replace b with (a + 1 + (b - a - 1)) by lia. rewrite !bpow_add.
  pose proof (bpow_pos a).
  assert (1 <= bpow (b - a - 1))%R by (apply bpow_ge_1; lia).
  replace (bpow 1) with 2%R by (unfold bpow; simpl; lra). nra.
Qed.

Lemma bpow_lt_inv a b : (bpow a < bpow b)%R -> a < b.
Proof.
  intros H. destruct (Z_lt_le_dec a b) as [|Hle]; [assumption|].
  apply bpow_le in Hle. lra.
Qed.

(** *** Binary digits *)

(** [digits2_pos p] is the number of binary digits of [p]. *)
Lemma digits2_bounds (p : positive) :
  2 ^ (Z.pos (digits2_pos p) - 1) <= Z.pos p < 2 ^ Z.pos (digits2_pos p).
Proof.
  induction p as [p IH|p IH|]; simpl digits2_pos.
  - rewrite Pos2Z.inj_succ.
    replace (Z.succ (Z.pos (digits2_pos p)) - 1)
      with (Z.succ (Z.pos (digits2_pos p) - 1)) by lia.
    rewrite !Z.pow_succ_r by lia. lia.
  - rewrite Pos2Z.inj_succ.
    replace (Z.succ (Z.pos (digits2_pos p)) - 1)
      with (Z.succ (Z.pos (digits2_pos p) - 1)) by lia.
    rewrite !Z.pow_succ_r by lia. lia.
  - simpl. lia.
Qed.

Lemma digits2_unique (p : positive) (k : Z) :
  2 ^ (k - 1) <= Z.pos p < 2 ^ k -> Z.pos (digits2_pos p) = k.
Proof.
  intros [Hlo Hhi]. pose proof (digits2_bounds p) as [Dlo Dhi].
  set (d := Z.pos (digits2_pos p)) in *.
  assert (0 < k).
  { destruct (Z_lt_le_dec 0 k); [assumption|].
    assert (2 ^ k <= 1).
    { destruct (Z.eq_dec k 0) as [->|]; [simpl; lia|]. rewrite Z.pow_neg_r by lia. lia. }
    lia. }
  destruct (Z.lt_trichotomy d k) as [Hlt|[Heq|Hgt]]; [|assumption|].
  - assert (2 ^ d <= 2 ^ (k - 1)) by (apply Z.pow_le_mono_r; lia). lia.
  - assert (2 ^ k <= 2 ^ (d - 1)) by (apply Z.pow_le_mono_r; lia). lia.
Qed.

Lemma pow2_gt0 (n : Z) : 0 <= n -> 0 < 2 ^ n.
Proof. intros H. apply Z.pow_pos_nonneg; lia. Qed.

(** *** Shifting and rounding *)

(** One shift halves the mantissa; the bits that fall off only go to the round and sticky flags. *)
Lemma shr_1_m (mrs : shr_record) :
  0 <= shr_m mrs -> shr_m (shr_1 mrs) = shr_m mrs / 2.
Proof.
  destruct mrs as [m r s]. simpl. intros H.
  destruct m as [|p|p]; [reflexivity| |lia].
  destruct p as [p|p|]; simpl.
  - rewrite (Pos2Z.inj_xI p). apply Z.div_unique with 1; lia.
  - rewrite (Pos2Z.inj_xO p). apply Z.div_unique with 0; lia.
  - reflexivity.
Qed.

Lemma iter_shr_1_m (n : positive) (mrs : shr_record) :
  0 <= shr_m mrs -> shr_m (SpecFloat.iter_pos shr_1 n mrs) = shr_m mrs / 2 ^ Z.pos n.
Proof.
  revert mrs. induction n as [n IH|n IH|]; intros mrs H; simpl SpecFloat.iter_pos.
  - assert (H1 : 0 <= shr_m (shr_1 mrs)).
    { rewrite shr_1_m by exact H. apply Z.div_pos; lia. }
    assert (H2 : 0 <= shr_m (SpecFloat.iter_pos shr_1 n (shr_1 mrs))).
    { rewrite IH by exact H1. apply Z.div_pos; [lia|]. apply Z.pow_pos_nonneg; lia. }
    rewrite IH by exact H2. rewrite IH by exact H1. rewrite shr_1_m by exact H.
    rewrite (Pos2Z.inj_xI n).
    replace (2 * Z.pos n + 1) with (1 + Z.pos n + Z.pos n) by lia.
    rewrite !Z.pow_add_r by lia.
    rewrite !Z.div_div by (pose proof (pow2_gt0 (Z.pos n)); lia).
    f_equal. change (2 ^ 1) with 2. lia.
  - assert (H2 : 0 <= shr_m (SpecFloat.iter_pos shr_1 n mrs)).
    { rewrite IH by exact H. apply Z.div_pos; [lia|]. apply Z.pow_pos_nonneg; lia. }
    rewrite IH by exact H2. rewrite IH by exact H.
    rewrite (Pos2Z.inj_xO n). replace (2 * Z.pos n) with (Z.pos n + Z.pos n) by lia.
    rewrite Z.pow_add_r by lia.
    rewrite Z.div_div by (pose proof (pow2_gt0 (Z.pos n)); lia).
    reflexivity.
  - rewrite shr_1_m by exact H. reflexivity.
Qed.

Lemma shr_m_shr (mrs : shr_record) (e n : Z) :
  0 <= shr_m mrs -> 0 <= n ->
  shr_m (fst (shr mrs e n)) = shr_m mrs / 2 ^ n /\ snd (shr mrs e n) = e + n.
Proof.
  intros H Hn. destruct n as [|p|p]; [|simpl|lia].
  - simpl. rewrite Z.div_1_r. split; [reflexivity | lia].
  - split; [apply iter_shr_1_m; exact H | reflexivity].
Qed.

Lemma shr_m_of_loc m l : shr_m (shr_record_of_loc m l) = m.
Proof. destruct l as [|[]]; reflexivity. Qed.

(** Whatever the flags, rounding keeps the mantissa or adds one. *)
Lemma round_nearest_even_cases m l :
  round_nearest_even m l = m \/ round_nearest_even m l = m + 1.
Proof.
  destruct l as [|[]]; simpl; auto. destruct (Z.even m); auto.
Qed.

(** In the normal range the exponent of the result leaves 53 bits. *)
Lemma fexp_normal (k : Z) : -1074 <= k - 53 -> fexp 53 1024 k = k - 53.
Proof. intros H. unfold fexp, emin. lia. Qed.

Lemma pos_normal_intro (m : positive) (e : Z) :
  Z.pos (digits2_pos m) = 53 -> -1074 <= e <= 971 ->
  pos_normal (S754_finite false m e) = true.
Proof.
  intros Hd He. unfold pos_normal, bounded, canonical_mantissa.
  rewrite Hd, fexp_normal by lia.
  rewrite andb_true_iff, andb_true_iff, Z.eqb_eq, Z.leb_le, Z.eqb_eq. lia.
Qed.

(** Rounding a positive mantissa of at least 53 bits, in the normal
    range: the result is a positive normal number, the exact value
    rounded down to 53 bits or that plus one unit in the last place. *)
Lemma round_aux_normal (mx : positive) (ex : Z) (lx : location) :
  let d := Z.pos (digits2_pos mx) in
  53 <= d -> -1074 <= d + ex - 53 -> d + ex <= 1023 ->
  exists m' e',
    binary_round_aux 53 1024 false (Z.pos mx) ex lx = S754_finite false m' e'
    /\ pos_normal (S754_finite false m' e') = true
    /\ (B2R (S754_finite false m' e')
          = IZR (Z.pos mx / 2 ^ (d - 53)) * bpow (ex + (d - 53))
        \/ B2R (S754_finite false m' e')
          = IZR (Z.pos mx / 2 ^ (d - 53) + 1) * bpow (ex + (d - 53)))%R.
Proof.
  intros d Hd Hlo Hhi.
  unfold binary_round_aux, shr_fexp. simpl Zdigits2. fold d.
  rewrite fexp_normal by exact Hlo.
  replace (d + ex - 53 - ex) with (d - 53) by lia.
  set (n := d - 53). set (q := Z.pos mx / 2 ^ n).
  destruct (shr_m_shr (shr_record_of_loc (Z.pos mx) lx) ex n) as [Hm He];
    [rewrite shr_m_of_loc; lia | lia |].
  rewrite shr_m_of_loc in Hm. fold q in Hm.
  destruct (shr (shr_record_of_loc (Z.pos mx) lx) ex n) as [mrs' e'].
  simpl in Hm, He. subst e'. rewrite Hm.
  assert (Hq : 2 ^ 52 <= q < 2 ^ 53).
  { pose proof (digits2_bounds mx) as [Dlo Dhi]. fold d in Dlo, Dhi.
    pose proof (pow2_gt0 n ltac:(lia)) as Hn.
    replace (d - 1) with (n + 52) in Dlo by lia.
    replace d with (n + 53) in Dhi by lia.
    rewrite Z.pow_add_r in Dlo, Dhi by lia.
    split.
    - apply Z.div_le_lower_bound; [exact Hn | exact Dlo].
    - apply Z.div_lt_upper_bound; [exact Hn | exact Dhi]. }
  set (m1 := round_nearest_even q (loc_of_shr_record mrs')).
  assert (Hm1 : m1 = q \/ m1 = q + 1) by apply round_nearest_even_cases.
  destruct (Z_lt_le_dec m1 (2 ^ 53)) as [Hlt|Hge].
  - (* the rounded mantissa still has 53 digits *)
    destruct m1 as [|p1|p1] eqn:E1; [lia| |lia].
    assert (Hd1 : Z.pos (digits2_pos p1) = 53) by (apply digits2_unique; lia).
    simpl Zdigits2. rewrite Hd1. rewrite fexp_normal by lia.
    replace (53 + (ex + n) - 53 - (ex + n)) with 0 by lia.
    cbn [shr shr_record_of_loc shr_m].
    destruct (Z.leb_spec (ex + n) (1024 - 53)); [|lia].
    exists p1, (ex + n). split; [reflexivity|]. split.
    + apply pos_normal_intro; [exact Hd1 | lia].
    + unfold B2R. destruct Hm1 as [<-|<-]; [left | right]; reflexivity.
  - (* rounding up reached 2^53 *)
    assert (E : m1 = 2 ^ 53) by lia. rewrite E.
    change (Zdigits2 (2 ^ 53)) with 54. rewrite fexp_normal by lia.
    replace (54 + (ex + n) - 53 - (ex + n)) with 1 by lia.
    cbn [shr shr_record_of_loc shr_m SpecFloat.iter_pos shr_1].
    change (2 ^ 53) with 9007199254740992.
    cbn [shr shr_record_of_loc shr_m SpecFloat.iter_pos shr_1 orb].
    destruct (Z.leb_spec (ex + n + 1) (1024 - 53)); [|lia].
    exists 4503599627370496%positive, (ex + n + 1). split; [reflexivity|]. split.
    + apply pos_normal_intro; [reflexivity | lia].
    + right. unfold B2R. replace (q + 1) with (2 ^ 53) by lia.
      rewrite bpow_add. replace (bpow 1) with 2%R by (unfold bpow; simpl; lra).
      change (2 ^ 53) with 9007199254740992. lra.
Qed.

Lemma IZR_digits_bounds (p : positive) :
  (bpow (Z.pos (digits2_pos p) - 1) <= IZR (Z.pos p)
   /\ IZR (Z.pos p + 1) <= bpow (Z.pos (digits2_pos p)))%R.
Proof.
  pose proof (digits2_bounds p) as [Hlo Hhi].
  rewrite !bpow_IZR by lia. split; apply IZR_le; lia.
Qed.

(** A value and its rounding lie between the same two neighbours, one unit
    in the last place apart, and that unit is at most [eps] times the
    lower neighbour. *)
Lemma between_neighbours (Q bn be M x r : R) :
  (4503599627370496 <= Q -> 0 < bn -> 0 < be ->
   Q * bn <= M -> M + 1 <= (Q + 1) * bn ->
   M * be <= x -> x < (M + 1) * be ->
   r = Q * (bn * be) \/ r = (Q + 1) * (bn * be) ->
   x * (1 - eps) <= r <= x * (1 + eps))%R.
Proof.
  intros Hq3 Hbn Hex Hq1 Hq2 Hx1 Hx2 Hv.
  assert (Hxl : (Q * bn * be <= x)%R).
  { apply Rle_trans with (M * be)%R; [|exact Hx1].
    apply Rmult_le_compat_r; lra. }
  assert (Hxu : (x <= (Q + 1) * bn * be)%R).
  { apply Rle_trans with ((M + 1) * be)%R; [lra|].
    apply Rmult_le_compat_r; lra. }
  assert (Hu0 : (0 < bn * be)%R) by (apply Rmult_lt_0_compat; assumption).
  assert (Hue : (bn * be <= eps * (Q * bn * be))%R).
  { unfold eps. replace (/ 4503599627370496 * (Q * bn * be))%R
      with ((/ 4503599627370496 * Q) * (bn * be))%R by ring.
    assert (1 <= / 4503599627370496 * Q)%R by lra.
    replace (bn * be)%R with (1 * (bn * be))%R at 1 by ring.
    apply Rmult_le_compat_r; lra. }
  set (u := (bn * be)%R) in *.
  replace (Q * bn * be)%R with (Q * u)%R in * by (unfold u; ring).
  replace ((Q + 1) * bn * be)%R with (Q * u + u)%R in * by (unfold u; ring).
  assert (Hex' : (eps * (Q * u) <= eps * x)%R).
  { apply Rmult_le_compat_l; [unfold eps; lra | exact Hxl]. }
  destruct Hv as [-> | ->].
  - split; lra.
  - replace ((Q + 1) * u)%R with (Q * u + u)%R by ring. split; lra.
Qed.

(** The same in the real numbers: for any [x] between the mantissa and the
    next one (the position the location flags stand for), in the normal
    range, the result is within [eps * x] of [x]. *)
Lemma round_aux_real (mx : positive) (ex : Z) (lx : location) (x : R) :
  53 <= Z.pos (digits2_pos mx) ->
  (IZR (Z.pos mx) * bpow ex <= x < IZR (Z.pos mx + 1) * bpow ex)%R ->
  (bpow (-1022) <= x < bpow 1023)%R ->
  exists r,
    binary_round_aux 53 1024 false (Z.pos mx) ex lx = r
    /\ pos_normal r = true
    /\ (x * (1 - eps) <= B2R r <= x * (1 + eps))%R.
Proof.
  intros Hd [Hx1 Hx2] [Hr1 Hr2].
  set (d := Z.pos (digits2_pos mx)) in *.
  pose proof (IZR_digits_bounds mx) as [Dlo Dhi]. fold d in Dlo, Dhi.
  pose proof (bpow_pos ex) as Hex.
  assert (Hlo : -1074 <= d + ex - 53).
  { assert (bpow (-1022) < bpow (d + ex))%R.
    { rewrite bpow_add. nra. }
    apply bpow_lt_inv in H. lia. }
  assert (Hhi : d + ex <= 1023).
  { assert (bpow (d - 1 + ex) < bpow 1023)%R.
    { rewrite bpow_add. nra. }
    apply bpow_lt_inv in H. lia. }
  destruct (round_aux_normal mx ex lx Hd Hlo Hhi) as (m' & e' & E & Hn & Hv).
  fold d in Hv. set (n := d - 53) in *. set (q := Z.pos mx / 2 ^ n) in *.
  exists (S754_finite false m' e'). split; [exact E|]. split; [exact Hn|].
  pose proof (pow2_gt0 n ltac:(lia)) as Hn0.
  assert (Hq1 : q * 2 ^ n <= Z.pos mx).
  { rewrite Z.mul_comm. apply Z.mul_div_le. exact Hn0. }
  assert (Hq2 : Z.pos mx + 1 <= (q + 1) * 2 ^ n).
  { pose proof (Z.mul_succ_div_gt (Z.pos mx) (2 ^ n) Hn0). fold q in H. lia. }
  assert (Hq3 : 2 ^ 52 <= q).
  { pose proof (digits2_bounds mx) as [Zlo _]. fold d in Zlo.
    replace (d - 1) with (n + 52) in Zlo by lia. rewrite Z.pow_add_r in Zlo by lia.
    apply Z.div_le_lower_bound; [exact Hn0 | exact Zlo]. }
  apply IZR_le in Hq1, Hq2, Hq3. rewrite mult_IZR in Hq1, Hq2.
  rewrite <- bpow_IZR in Hq1, Hq2 by lia.
  change (IZR (2 ^ 52)) with 4503599627370496%R in Hq3.
  rewrite (plus_IZR q 1) in Hq2, Hv. rewrite (plus_IZR (Z.pos mx) 1) in Hq2, Hx2.
  assert (Hu : bpow (ex + n) = (bpow n * bpow ex)%R)
    by (rewrite Z.add_comm; apply bpow_add).
  rewrite Hu in Hv.
  apply (between_neighbours (IZR q) (bpow n) (bpow ex) (IZR (Z.pos mx)) x);
    try assumption; apply bpow_pos.
Qed.

(** What [pos_normal] says. *)
Lemma pos_normal_inv (f : spec_float) :
  pos_normal f = true ->
  exists m e, f = S754_finite false m e
              /\ Z.pos (digits2_pos m) = 53 /\ -1074 <= e <= 971.
Proof.
  destruct f as [| | |[] m e]; try discriminate. unfold pos_normal.
  rewrite andb_true_iff, Z.eqb_eq. intros [Hb Hd].
  exists m, e. split; [reflexivity|]. split; [exact Hd|].
  unfold bounded, canonical_mantissa in Hb. rewrite Hd in Hb.
  rewrite andb_true_iff, Z.eqb_eq, Z.leb_le in Hb. unfold fexp, emin in Hb. lia.
Qed.

Lemma normal_value_bounds (m : positive) (e : Z) :
  Z.pos (digits2_pos m) = 53 ->
  (bpow (52 + e) <= IZR (Z.pos m) * bpow e
   /\ IZR (Z.pos m + 1) * bpow e <= bpow (53 + e))%R.
Proof.
  intros Hd. pose proof (IZR_digits_bounds m) as [Hlo Hhi]. rewrite Hd in Hlo, Hhi.
  change (53 - 1) with 52 in Hlo. rewrite !bpow_add. pose proof (bpow_pos e).
  split; apply Rmult_le_compat_r; lra.
Qed.

Lemma digits2_ge (p : positive) (k : Z) :
  2 ^ k <= Z.pos p -> k < Z.pos (digits2_pos p).
Proof.
  intros H. pose proof (digits2_bounds p) as [_ Hhi].
  destruct (Z_lt_le_dec k (Z.pos (digits2_pos p))) as [|Hle]; [assumption|].
  assert (2 ^ Z.pos (digits2_pos p) <= 2 ^ k) by (apply Z.pow_le_mono_r; lia). lia.
Qed.

(** *** Multiplication *)

(** The product of two positive normal numbers. *)
Lemma mul_normal (a b : spec_float) :
  pos_normal a = true -> pos_normal b = true ->
  (bpow (-1022) <= B2R a * B2R b < bpow 1023)%R ->
  pos_normal (SFmul 53 1024 a b) = true
  /\ (B2R a * B2R b * (1 - eps) <= B2R (SFmul 53 1024 a b)
      <= B2R a * B2R b * (1 + eps))%R.
Proof.
  intros Ha Hb Hr.
  destruct (pos_normal_inv a Ha) as (ma & ea & -> & Hda & Hea).
  destruct (pos_normal_inv b Hb) as (mb & eb & -> & Hdb & Heb).
  unfold B2R in *. cbn [SFmul xorb].
  assert (Hx : (IZR (Z.pos ma) * bpow ea * (IZR (Z.pos mb) * bpow eb)
                = IZR (Z.pos (ma * mb)) * bpow (ea + eb))%R).
  { rewrite Pos2Z.inj_mul, mult_IZR, bpow_add. ring. }
  rewrite Hx in *.
  destruct (round_aux_real (ma * mb) (ea + eb) loc_Exact
              (IZR (Z.pos (ma * mb)) * bpow (ea + eb))%R) as (r & E & Hn & He).
  - pose proof (digits2_bounds ma) as [La _]. pose proof (digits2_bounds mb) as [Lb _].
    rewrite Hda in La. rewrite Hdb in Lb.
    assert (2 ^ 52 <= Z.pos (ma * mb)).
    { rewrite Pos2Z.inj_mul. change (53 - 1) with 52 in *.
      change (2 ^ 52) with 4503599627370496 in *. nia. }
    apply digits2_ge in H. lia.
  - split; [lra|]. rewrite plus_IZR. pose proof (bpow_pos (ea + eb)). nra.
  - exact Hr.
  - rewrite E. split; [exact Hn | exact He].
Qed.

(** *** Rounding an exact value: sums and integers *)

Lemma iter_xO (m d : positive) : Z.pos (Pos.iter xO m d) = Z.pos m * 2 ^ Z.pos d.
Proof.
  induction d as [|d IH] using Pos.peano_ind.
  - simpl Pos.iter. rewrite (Pos2Z.inj_xO m). change (2 ^ 1) with 2. ring.
  - rewrite Pos.iter_succ, Pos2Z.inj_xO, IH, Pos2Z.inj_succ, Z.pow_succ_r by lia. ring.
Qed.

(** [shl_align] lowers the exponent to [ex'] without changing the value,
    or does nothing when [ex'] is not below [ex]. *)
Lemma shl_align_spec (mx : positive) (ex ex' : Z) :
  (ex' < ex ->
   shl_align mx ex ex' = (Pos.iter xO mx (Z.to_pos (ex - ex')), ex')
   /\ Z.pos (Pos.iter xO mx (Z.to_pos (ex - ex'))) = Z.pos mx * 2 ^ (ex - ex'))
  /\ (ex <= ex' -> shl_align mx ex ex' = (mx, ex)).
Proof.
  unfold shl_align. split; intros H.
  - destruct (ex' - ex) as [|p|p] eqn:E; try lia.
    replace (ex - ex') with (Z.pos p) by lia. simpl Z.to_pos.
    split; [reflexivity | apply iter_xO].
  - destruct (ex' - ex) as [|p|p] eqn:E; try lia; reflexivity.
Qed.

Lemma digits2_shift (m : positive) (k : Z) (p : positive) :
  0 <= k -> Z.pos p = Z.pos m * 2 ^ k ->
  Z.pos (digits2_pos p) = Z.pos (digits2_pos m) + k.
Proof.
  intros Hk E. apply digits2_unique. rewrite E.
  pose proof (digits2_bounds m) as [Hlo Hhi]. pose proof (pow2_gt0 k Hk).
  replace (Z.pos (digits2_pos m) + k - 1) with (Z.pos (digits2_pos m) - 1 + k) by lia.
  rewrite !Z.pow_add_r by lia. nia.
Qed.

(** Rounding an exact positive value [p * 2^e] in the normal range. *)
Lemma binary_round_real (p : positive) (e : Z) :
  (bpow (-1022) <= IZR (Z.pos p) * bpow e < bpow 1023)%R ->
  exists r,
    binary_round 53 1024 false p e = r
    /\ pos_normal r = true
    /\ (IZR (Z.pos p) * bpow e * (1 - eps) <= B2R r
        <= IZR (Z.pos p) * bpow e * (1 + eps))%R.
Proof.
  intros [Hr1 Hr2]. set (d := Z.pos (digits2_pos p)).
  pose proof (IZR_digits_bounds p) as [Dlo Dhi]. fold d in Dlo, Dhi.
  pose proof (bpow_pos e) as He.
  assert (Hlo : -1074 <= d + e - 53).
  { assert (bpow (-1022) < bpow (d + e))%R.
    { rewrite bpow_add. rewrite plus_IZR in Dhi. nra. }
    apply bpow_lt_inv in H. lia. }
  unfold binary_round. fold d. rewrite fexp_normal by exact Hlo.
  destruct (shl_align_spec p e (d + e - 53)) as [Hshift Hsame].
  destruct (Z_lt_le_dec (d + e - 53) e) as [Hlt|Hge].
  - destruct (Hshift Hlt) as [-> Hv]. clear Hshift Hsame.
    set (mz := Pos.iter xO p (Z.to_pos (e - (d + e - 53)))) in *.
    assert (Hdz : Z.pos (digits2_pos mz) = 53).
    { rewrite (digits2_shift p (e - (d + e - 53)) mz) by (try exact Hv; lia).
      fold d. lia. }
    assert (Hx : (IZR (Z.pos mz) * bpow (d + e - 53) = IZR (Z.pos p) * bpow e)%R).
    { rewrite Hv, mult_IZR, <- bpow_IZR by lia. rewrite Rmult_assoc, <- bpow_add.
      f_equal. f_equal. lia. }
    destruct (round_aux_real mz (d + e - 53) loc_Exact (IZR (Z.pos p) * bpow e)%R)
      as (r & E & Hn & Hb).
    + lia.
    + rewrite <- Hx. split; [lra|]. rewrite plus_IZR.
      pose proof (bpow_pos (d + e - 53)). nra.
    + split; assumption.
    + exists r. auto.
  - rewrite (Hsame Hge).
    destruct (round_aux_real p e loc_Exact (IZR (Z.pos p) * bpow e)%R) as (r & E & Hn & Hb).
    + fold d. lia.
    + split; [lra|]. rewrite plus_IZR. nra.
    + split; assumption.
    + exists r. auto.
Qed.

(** *** Addition *)

(** The sum of two positive normal numbers. *)
Lemma add_normal (a b : spec_float) :
  pos_normal a = true -> pos_normal b = true ->
  (B2R a + B2R b < bpow 1023)%R ->
  pos_normal (SFadd 53 1024 a b) = true
  /\ ((B2R a + B2R b) * (1 - eps) <= B2R (SFadd 53 1024 a b)
      <= (B2R a + B2R b) * (1 + eps))%R.
Proof.
  intros Ha Hb Hr.
  destruct (pos_normal_inv a Ha) as (ma & ea & -> & Hda & Hea).
  destruct (pos_normal_inv b Hb) as (mb & eb & -> & Hdb & Heb).
  unfold B2R in *. cbn [SFadd cond_Zopp].
  set (ez := Z.min ea eb).
  assert (Va : Z.pos (fst (shl_align ma ea ez)) = Z.pos ma * 2 ^ (ea - ez)).
  { destruct (shl_align_spec ma ea ez) as [H1 H2].
    destruct (Z_lt_le_dec ez ea) as [Hlt|Hge].
    - destruct (H1 Hlt) as [-> Hv]. exact Hv.
    - rewrite (H2 Hge). replace (ea - ez) with 0 by lia. simpl fst. lia. }
  assert (Vb : Z.pos (fst (shl_align mb eb ez)) = Z.pos mb * 2 ^ (eb - ez)).
  { destruct (shl_align_spec mb eb ez) as [H1 H2].
    destruct (Z_lt_le_dec ez eb) as [Hlt|Hge].
    - destruct (H1 Hlt) as [-> Hv]. exact Hv.
    - rewrite (H2 Hge). replace (eb - ez) with 0 by lia. simpl fst. lia. }
  set (ma' := fst (shl_align ma ea ez)) in *.
  set (mb' := fst (shl_align mb eb ez)) in *.
  change (Z.pos ma' + Z.pos mb') with (Z.pos (ma' + mb')).
  cbn [binary_normalize].
  assert (Hx : (IZR (Z.pos (ma' + mb')) * bpow ez
                = IZR (Z.pos ma) * bpow ea + IZR (Z.pos mb) * bpow eb)%R).
  { rewrite Pos2Z.inj_add, plus_IZR, Va, Vb, !mult_IZR, <- !bpow_IZR by lia.
    rewrite Rmult_plus_distr_r, !Rmult_assoc, <- !bpow_add.
    replace (ea - ez + ez) with ea by lia. replace (eb - ez + ez) with eb by lia.
    reflexivity. }
  destruct (binary_round_real (ma' + mb') ez) as (r & E & Hn & He).
  - rewrite Hx. split; [|exact Hr].
    pose proof (normal_value_bounds ma ea Hda) as [La _].
    pose proof (normal_value_bounds mb eb Hdb) as [Lb _].
    pose proof (bpow_pos (52 + eb)).
    assert (bpow (-1022) <= bpow (52 + ea))%R by (apply bpow_le; lia). lra.
  - rewrite E. rewrite <- Hx. split; [exact Hn | exact He].
Qed.

(** *** Subtraction *)

(** The difference of two positive normal numbers, the first one larger. *)
Lemma sub_normal (a b : spec_float) :
  pos_normal a = true -> pos_normal b = true ->
  (bpow (-1022) <= B2R a - B2R b < bpow 1023)%R ->
  pos_normal (SFsub 53 1024 a b) = true
  /\ ((B2R a - B2R b) * (1 - eps) <= B2R (SFsub 53 1024 a b)
      <= (B2R a - B2R b) * (1 + eps))%R.
Proof.
  intros Ha Hb Hr.
  destruct (pos_normal_inv a Ha) as (ma & ea & -> & Hda & Hea).
  destruct (pos_normal_inv b Hb) as (mb & eb & -> & Hdb & Heb).
  unfold B2R in *. cbn [SFsub cond_Zopp].
  set (ez := Z.min ea eb).
  assert (Va : Z.pos (fst (shl_align ma ea ez)) = Z.pos ma * 2 ^ (ea - ez)).
  { destruct (shl_align_spec ma ea ez) as [H1 H2].
    destruct (Z_lt_le_dec ez ea) as [Hlt|Hge].
    - destruct (H1 Hlt) as [-> Hv]. exact Hv.
    - rewrite (H2 Hge). replace (ea - ez) with 0 by lia. simpl fst. lia. }
  assert (Vb : Z.pos (fst (shl_align mb eb ez)) = Z.pos mb * 2 ^ (eb - ez)).
  { destruct (shl_align_spec mb eb ez) as [H1 H2].
    destruct (Z_lt_le_dec ez eb) as [Hlt|Hge].
    - destruct (H1 Hlt) as [-> Hv]. exact Hv.
    - rewrite (H2 Hge). replace (eb - ez) with 0 by lia. simpl fst. lia. }
  set (ma' := fst (shl_align ma ea ez)) in *.
  set (mb' := fst (shl_align mb eb ez)) in *.
  assert (Hx : (IZR (Z.pos ma' - Z.pos mb') * bpow ez
                = IZR (Z.pos ma) * bpow ea - IZR (Z.pos mb) * bpow eb)%R).
  { rewrite minus_IZR, Va, Vb, !mult_IZR, <- !bpow_IZR by lia.
    rewrite Rmult_minus_distr_r, !Rmult_assoc, <- !bpow_add.
    replace (ea - ez + ez) with ea by lia. replace (eb - ez + ez) with eb by lia.
    reflexivity. }
  pose proof (bpow_pos ez) as Pz. pose proof (bpow_pos (-1022)) as Pm.
  destruct (Z.pos ma' - Z.pos mb') as [|p|p] eqn:E.
  - simpl in Hx. lra.
  - cbn [binary_normalize].
    destruct (binary_round_real p ez) as (r & Er & Hn & He).
    + rewrite Hx. exact Hr.
    + rewrite Er. rewrite <- Hx. split; [exact Hn | exact He].
  - assert (IZR (Z.neg p) < 0)%R by (apply IZR_lt; lia). nra.
Qed.

(** *** Integers *)

(** The number nearest to a positive integer. *)
Lemma of_Z_normal (z : Z) :
  0 < z < 2 ^ 1023 ->
  pos_normal (binary_normalize 53 1024 z 0 false) = true
  /\ (IZR z * (1 - eps) <= B2R (binary_normalize 53 1024 z 0 false)
      <= IZR z * (1 + eps))%R.
Proof.
  intros [Hz1 Hz2]. destruct z as [|p|p]; try lia. cbn [binary_normalize].
  destruct (binary_round_real p 0) as (r & E & Hn & He).
  - replace (bpow 0) with 1%R by reflexivity. rewrite Rmult_1_r. split.
    + apply Rle_trans with (bpow 0); [apply bpow_le; lia|].
      replace (bpow 0) with 1%R by reflexivity. apply IZR_le. lia.
    + rewrite bpow_IZR by lia. apply IZR_lt. exact Hz2.
  - rewrite E. replace (bpow 0) with 1%R in He by reflexivity.
    rewrite Rmult_1_r in He. split; [exact Hn | exact He].
Qed.

(** *** Division *)

(** The quotient of two positive normal numbers. *)
Lemma div_normal (a b : spec_float) :
  pos_normal a = true -> pos_normal b = true ->
  (bpow (-1000) <= B2R a / B2R b < bpow 1000)%R ->
  pos_normal (SFdiv 53 1024 a b) = true
  /\ (B2R a / B2R b * (1 - eps) <= B2R (SFdiv 53 1024 a b)
      <= B2R a / B2R b * (1 + eps))%R.
Proof.
  intros Ha Hb Hr.
  destruct (pos_normal_inv a Ha) as (ma & ea & -> & Hda & Hea).
  destruct (pos_normal_inv b Hb) as (mb & eb & -> & Hdb & Heb).
  unfold B2R in *. cbn [SFdiv xorb].
  pose proof (normal_value_bounds ma ea Hda) as [La Ua].
  pose proof (normal_value_bounds mb eb Hdb) as [Lb Ub].
  pose proof (bpow_pos ea) as Pea. pose proof (bpow_pos eb) as Peb.
  assert (PA : (0 < IZR (Z.pos ma))%R) by (apply IZR_lt; lia).
  assert (PB : (0 < IZR (Z.pos mb))%R) by (apply IZR_lt; lia).
  set (A := IZR (Z.pos ma)) in *. set (B := IZR (Z.pos mb)) in *.
  assert (Hquot : (A * bpow ea / (B * bpow eb) = A / B * bpow (ea - eb))%R).
  { replace (ea - eb) with (ea + - eb) by lia. rewrite bpow_add.
    unfold bpow at 4. rewrite powerRZ_neg'. fold (bpow eb). field. split; lra. }
  assert (He : -1000 <= ea - eb).
  { assert (bpow (-1000) < bpow (ea - eb + 1))%R.
    { apply Rle_lt_trans with (A * bpow ea / (B * bpow eb))%R; [lra|].
      rewrite Hquot, bpow_add. replace (bpow 1) with 2%R by (unfold bpow; simpl; lra).
      pose proof (bpow_pos (ea - eb)).
      assert (A / B < 2)%R.
      { apply Rmult_lt_reg_r with B; [exact PB|]. unfold Rdiv.
        rewrite Rmult_assoc, Rinv_l, Rmult_1_r by lra.
        pose proof (IZR_digits_bounds ma) as [_ H1]. pose proof (IZR_digits_bounds mb) as [H2 _].
        rewrite Hda in H1. rewrite Hdb in H2. rewrite plus_IZR in H1. fold A in H1. fold B in H2.
        change (53 - 1) with 52 in H2.
        replace (bpow 53) with (2 * bpow 52)%R in H1 by (unfold bpow; simpl; lra). lra. }
      nra. }
    apply bpow_lt_inv in H. lia. }
  unfold SFdiv_core_binary. simpl Zdigits2. rewrite Hda, Hdb.
  replace (53 + ea - (53 + eb)) with (ea - eb) by lia.
  rewrite fexp_normal by lia.
  replace (Z.min (ea - eb - 53) (ea - eb)) with (ea - eb - 53) by lia.
  replace (ea - eb - (ea - eb - 53)) with 53 by lia.
  cbv beta iota zeta.
  rewrite Z.shiftl_mul_pow2 by lia.
  pose proof (Z_div_mod (Z.pos ma * 2 ^ 53) (Z.pos mb) ltac:(lia)) as Hdm.
  destruct (Z.div_eucl (Z.pos ma * 2 ^ 53) (Z.pos mb)) as [q r]. destruct Hdm as [Hdm Hrem].
  assert (Hq : 2 ^ 52 <= q).
  { pose proof (digits2_bounds ma) as [H1 _]. pose proof (digits2_bounds mb) as [_ H2].
    rewrite Hda in H1. rewrite Hdb in H2. change (53 - 1) with 52 in H1.
    change (2 ^ 52) with 4503599627370496 in *. change (2 ^ 53) with 9007199254740992 in *.
    nia. }
  destruct q as [|pq|pq]; try (change (2 ^ 52) with 4503599627370496 in Hq; lia).
  destruct (round_aux_real pq (ea - eb - 53) (new_location (Z.pos mb) r)
              (A * bpow ea / (B * bpow eb))%R) as (res & E & Hn & Hb').
  - apply digits2_ge in Hq. lia.
  - assert (Hb53 : bpow (ea - eb) = (IZR (2 ^ 53) * bpow (ea - eb - 53))%R).
    { rewrite <- (bpow_IZR 53), <- bpow_add by lia. f_equal. lia. }
    rewrite Hquot, Hb53.
    pose proof (bpow_pos (ea - eb - 53)) as Pe.
    assert (HA : (A * IZR (2 ^ 53) = B * IZR (Z.pos pq) + IZR r)%R).
    { unfold A, B. rewrite <- !mult_IZR, <- plus_IZR. f_equal. exact Hdm. }
    assert (Hr0 : (0 <= IZR r < B)%R).
    { split; [apply IZR_le; lia | apply IZR_lt; lia]. }
    assert (Hq1 : (IZR (Z.pos pq) <= A / B * IZR (2 ^ 53))%R).
    { apply Rmult_le_reg_r with B; [exact PB|].
      replace (A / B * IZR (2 ^ 53) * B)%R with (A * IZR (2 ^ 53))%R by (field; lra). lra. }
    assert (Hq2 : (A / B * IZR (2 ^ 53) < IZR (Z.pos pq + 1))%R).
    { apply Rmult_lt_reg_r with B; [exact PB|]. rewrite plus_IZR.
      replace (A / B * IZR (2 ^ 53) * B)%R with (A * IZR (2 ^ 53))%R by (field; lra). lra. }
    split.
    + rewrite <- Rmult_assoc. apply Rmult_le_compat_r; lra.
    + rewrite <- Rmult_assoc. apply Rmult_lt_compat_r; lra.
  - split; [|apply Rlt_trans with (bpow 1000); [lra | apply bpow_lt; lia]].
    apply Rle_trans with (bpow (-1000)); [apply bpow_le; lia | lra].
  - rewrite E. split; [exact Hn | exact Hb'].
Qed.

Lemma bpow_neg_IZR (e : Z) : 0 <= e -> bpow (- e) = (/ IZR (2 ^ e))%R.
Proof. intros H. unfold bpow. rewrite powerRZ_neg'. fold (bpow e). now rewrite bpow_IZR. Qed.

(** [Math.round] is [floor (x + 1/2)]. *)
Lemma round_spec (f : number) :
  (IZR (round f) <= B2R f + / 2 < IZR (round f) + 1)%R.
Proof.
  destruct f as [s|s| |s m e]; simpl; try lra.
  set (n := if s then Z.neg m else Z.pos m).
  assert (Hn : ((if s then - IZR (Z.pos m) else IZR (Z.pos m)) = IZR n)%R).
  { unfold n. destruct s; [|reflexivity]. rewrite <- opp_IZR. reflexivity. }
  rewrite Hn. destruct (Z.leb_spec 0 e) as [He|He].
  - rewrite mult_IZR, <- bpow_IZR by exact He. lra.
  - pose proof (pow2_gt0 (- e) ltac:(lia)) as Hp.
    assert (Hb : bpow e = (/ IZR (2 ^ (- e)))%R).
    { rewrite <- bpow_neg_IZR by lia. f_equal. lia. }
    assert (Hpw : 2 ^ (1 - e) = 2 * 2 ^ (- e)).
    { replace (1 - e) with (1 + - e) by lia. rewrite Z.pow_add_r by lia. reflexivity. }
    rewrite Hb, Hpw. set (k := 2 ^ (- e)) in *.
    pose proof (Z.mul_div_le (2 * n + k) (2 * k) ltac:(lia)) as H1.
    pose proof (Z.mul_succ_div_gt (2 * n + k) (2 * k) ltac:(lia)) as H2.
    set (q := (2 * n + k) / (2 * k)) in *.
    apply IZR_le in H1. apply IZR_lt in H2. unfold Z.succ in H2.
    rewrite !mult_IZR, (plus_IZR (2 * n) k), mult_IZR in H1, H2.
    rewrite (plus_IZR q 1) in H2.
    assert (Hk : (0 < IZR k)%R) by (apply IZR_lt; lia).
    assert (E : (IZR n * / IZR k + / 2 = (2 * IZR n + IZR k) / (2 * IZR k))%R)
      by (field; lra).
    rewrite E. split.
    + apply Rmult_le_reg_r with (2 * IZR k)%R; [lra|].
      replace ((2 * IZR n + IZR k) / (2 * IZR k) * (2 * IZR k))%R
        with (2 * IZR n + IZR k)%R by (field; lra).
      lra.
    + apply Rmult_lt_reg_r with (2 * IZR k)%R; [lra|].
      replace ((2 * IZR n + IZR k) / (2 * IZR k) * (2 * IZR k))%R
        with (2 * IZR n + IZR k)%R by (field; lra).
      lra.
Qed.

(** *** Numbers that are [+0] or positive, normal and of moderate size *)

Lemma tame_nonneg L f : tame L f -> (0 <= B2R f)%R.
Proof.
  intros [->|[_ [H _]]]; [simpl; lra|]. pose proof (bpow_pos (- L)). lra.
Qed.

Lemma tame_weaken L L' f : L <= L' -> tame L f -> tame L' f.
Proof.
  intros H [->|[Hn [H1 H2]]]; [left; reflexivity | right]. split; [exact Hn|].
  assert (bpow (- L') <= bpow (- L))%R by (apply bpow_le; lia).
  assert (bpow L <= bpow L')%R by (apply bpow_le; lia). lra.
Qed.

Lemma eps_bounds : (0 < eps < / 2)%R.
Proof. unfold eps. lra. Qed.

Lemma bpow_succ e : bpow (e + 1) = (2 * bpow e)%R.
Proof. rewrite bpow_add. replace (bpow 1) with 2%R by (unfold bpow; simpl; lra). ring. Qed.

Lemma bpow_pred e : bpow (e - 1) = (bpow e / 2)%R.
Proof. replace e with (e - 1 + 1) at 2 by lia. rewrite bpow_succ. field. Qed.

(** The operations on tame numbers: the result is tame again and within
    [eps] of the exact result, relatively. *)
Lemma tame_mul L1 L2 a b :
  tame L1 a -> tame L2 b -> L1 + L2 + 1 <= 1000 -> 0 <= L1 + L2 + 1 ->
  tame (L1 + L2 + 1) (mul a b)
  /\ (B2R a * B2R b * (1 - eps) <= B2R (mul a b) <= B2R a * B2R b * (1 + eps))%R.
Proof.
  intros Ha Hb HL HL0. pose proof eps_bounds as He.
  destruct Ha as [->|[Ha [A1 A2]]].
  { assert (E : mul (S754_zero false) b = S754_zero false).
    { destruct Hb as [->|[Hb _]]; [reflexivity|].
      destruct (pos_normal_inv b Hb) as (m & e & -> & _). reflexivity. }
    rewrite E. split; [left; reflexivity | simpl; lra]. }
  destruct Hb as [->|[Hb [B1 B2]]].
  { assert (E : mul a (S754_zero false) = S754_zero false).
    { destruct (pos_normal_inv a Ha) as (m & e & -> & _). reflexivity. }
    rewrite E. split; [left; reflexivity | simpl; lra]. }
  pose proof (bpow_pos (- L1)) as P1. pose proof (bpow_pos (- L2)) as P2.
  assert (X1 : (bpow (- L1 + - L2) <= B2R a * B2R b)%R).
  { rewrite bpow_add. apply Rmult_le_compat; lra. }
  assert (X2 : (B2R a * B2R b <= bpow (L1 + L2))%R).
  { rewrite bpow_add. apply Rmult_le_compat; lra. }
  pose proof (bpow_pos (- L1 + - L2)) as P3.
  destruct (mul_normal a b Ha Hb) as [Hn Hv].
  { split.
    - apply Rle_trans with (bpow (- L1 + - L2)); [apply bpow_le; lia | exact X1].
    - apply Rle_lt_trans with (bpow (L1 + L2)); [exact X2 | apply bpow_lt; lia]. }
  split; [|exact Hv]. right. split; [exact Hn|]. fold (mul a b) in Hv.
  replace (- (L1 + L2 + 1)) with (- L1 + - L2 - 1) by lia.
  rewrite bpow_pred, bpow_succ.
  set (x := (B2R a * B2R b)%R) in *. unfold eps, mul, prec, emax in *. split; lra.
Qed.

Lemma tame_add L a b :
  tame L a -> tame L b -> 0 <= L <= 998 ->
  tame (L + 2) (add a b)
  /\ ((B2R a + B2R b) * (1 - eps) <= B2R (add a b) <= (B2R a + B2R b) * (1 + eps))%R.
Proof.
  intros Ha Hb HL. pose proof eps_bounds as He.
  pose proof (tame_nonneg L a Ha) as Na. pose proof (tame_nonneg L b Hb) as Nb.
  destruct Ha as [->|[Ha [A1 A2]]].
  { assert (E : add (S754_zero false) b = b).
    { destruct Hb as [->|[Hb _]]; [reflexivity|].
      destruct (pos_normal_inv b Hb) as (m & e & -> & _). reflexivity. }
    rewrite E. split; [apply tame_weaken with L; [lia | exact Hb]|].
    unfold eps in *. simpl B2R at 1 3. split; nra. }
  destruct Hb as [->|[Hb [B1 B2]]].
  { assert (E : add a (S754_zero false) = a).
    { destruct (pos_normal_inv a Ha) as (m & e & -> & _). reflexivity. }
    rewrite E. split; [apply tame_weaken with L; [lia | right; auto]|].
    unfold eps in *. simpl B2R at 2 5. split; nra. }
  pose proof (bpow_pos (- L)) as P1.
  destruct (add_normal a b Ha Hb) as [Hn Hv].
  { apply Rle_lt_trans with (bpow (L + 1)); [rewrite bpow_succ; lra | apply bpow_lt; lia]. }
  split; [|exact Hv]. right. split; [exact Hn|].
  replace (- (L + 2)) with (- L - 1 - 1) by lia.
  replace (L + 2) with (L + 1 + 1) by lia.
  rewrite !bpow_pred, !bpow_succ. unfold eps, add, prec, emax in *. split; lra.
Qed.

Lemma tame_div L1 L2 a b :
  tame L1 a -> pos_normal b = true -> (bpow (- L2) <= B2R b <= bpow L2)%R ->
  L1 + L2 + 1 <= 1000 -> 0 <= L1 + L2 + 1 ->
  tame (L1 + L2 + 1) (div a b)
  /\ (B2R a / B2R b * (1 - eps) <= B2R (div a b) <= B2R a / B2R b * (1 + eps))%R.
Proof.
  intros Ha Hb [B1 B2] HL HL0. pose proof eps_bounds as He.
  pose proof (bpow_pos (- L2)) as P2.
  destruct Ha as [->|[Ha [A1 A2]]].
  { assert (E : div (S754_zero false) b = S754_zero false).
    { destruct (pos_normal_inv b Hb) as (m & e & -> & _). reflexivity. }
    rewrite E. split; [left; reflexivity|]. simpl B2R. unfold Rdiv. lra. }
  pose proof (bpow_pos (- L1)) as P1.
  assert (Hinv : (bpow (- L2) <= / B2R b <= bpow L2)%R).
  { assert (E1 : bpow (- L2) = (/ bpow L2)%R) by (unfold bpow; apply powerRZ_neg').
    assert (E2 : bpow L2 = (/ bpow (- L2))%R).
    { rewrite E1, Rinv_inv. reflexivity. }
    split.
    - rewrite E1. apply Rinv_le_contravar; lra.
    - rewrite E2. apply Rinv_le_contravar; lra. }
  assert (X1 : (bpow (- L1 + - L2) <= B2R a / B2R b)%R).
  { rewrite bpow_add. unfold Rdiv. apply Rmult_le_compat; lra. }
  assert (X2 : (B2R a / B2R b <= bpow (L1 + L2))%R).
  { rewrite bpow_add. unfold Rdiv. apply Rmult_le_compat; lra. }
  pose proof (bpow_pos (- L1 + - L2)) as P3.
  destruct (div_normal a b Ha Hb) as [Hn Hv].
  { split.
    - apply Rle_trans with (bpow (- L1 + - L2)); [apply bpow_le; lia | exact X1].
    - apply Rle_lt_trans with (bpow (L1 + L2)); [exact X2 | apply bpow_lt; lia]. }
  split; [|exact Hv]. right. split; [exact Hn|].
  replace (- (L1 + L2 + 1)) with (- L1 + - L2 - 1) by lia.
  rewrite bpow_pred, bpow_succ.
  set (x := (B2R a / B2R b)%R) in *. unfold eps, div, prec, emax in *. split; lra.
Qed.

Lemma tame_of_Z L z :
  0 <= z < 2 ^ L -> 0 <= L <= 1000 ->
  tame (L + 1) (of_Z z)
  /\ (IZR z * (1 - eps) <= B2R (of_Z z) <= IZR z * (1 + eps))%R.
Proof.
  intros [Hz1 Hz2] HL. pose proof eps_bounds as He.
  destruct (Z.eq_dec z 0) as [->|Hz].
  { split; [left; reflexivity | simpl; lra]. }
  destruct (of_Z_normal z) as [Hn Hv].
  { split; [lia|]. apply Z.lt_le_trans with (2 ^ L); [exact Hz2|].
    apply Z.pow_le_mono_r; lia. }
  split; [|exact Hv]. right. split; [exact Hn|].
  assert (Z1 : (1 <= IZR z)%R) by (apply IZR_le; lia).
  assert (Z2 : (IZR z <= bpow L)%R) by (rewrite bpow_IZR by lia; apply IZR_le; lia).
  assert (Z3 : (bpow (- (L + 1)) <= / 2)%R).
  { apply Rle_trans with (bpow (-1)); [apply bpow_le; lia|].
    unfold bpow. simpl. lra. }
  rewrite bpow_succ. unfold eps, of_Z, prec, emax in *. split; lra.
Qed.

Lemma Rabs_le_elim (a b : R) : (Rabs a <= b -> - b <= a <= b)%R.
Proof. unfold Rabs. destruct (Rcase_abs a); lra. Qed.

(** Addition is commutative. *)
Lemma add_comm (x y : number) : add x y = add y x.
Proof.
  unfold add. destruct x as [sx|sx| |sx mx ex], y as [sy|sy| |sy my ey];
    try reflexivity; try (destruct sx, sy; reflexivity).
  cbn [SFadd]. rewrite (Z.min_comm ey ex), Z.add_comm. reflexivity.
Qed.

(** ** Symmetry of the similarity measure

    The [Map] of counts stands for the multiset of the bigrams of the
    first string; the loop over the second string computes the size of
    the intersection of the two multisets, which does not depend on
    their order. *)

Lemma counts_count_bigram m X b :
  counts m X -> counts (count_bigram m b) ({[+ b +]} ⊎ X).
Proof.
  intros H b'. unfold count_bigram. rewrite multiplicity_disj_union.
  destruct (decide (b = b')) as [->|Hne].
  - rewrite lookup_insert_eq, multiplicity_singleton. specialize (H b').
    rewrite decide_True by reflexivity.
    destruct (m !! b'); simpl in *; lia.
  - rewrite lookup_insert_ne, multiplicity_singleton_ne by congruence. apply H.
Qed.

Lemma counts_foldl l m X :
  counts m X -> counts (foldl count_bigram m l) (list_to_set_disj l ⊎ X).
Proof.
  revert m X. induction l as [|b l IH]; intros m X H; simpl.
  - intros b. rewrite (left_id_L ∅ (⊎)). apply H.
  - replace ({[+ b +]} ⊎ list_to_set_disj l ⊎ X)
      with (list_to_set_disj l ⊎ ({[+ b +]} ⊎ X)) by multiset_solver.
    apply IH, counts_count_bigram, H.
Qed.

(** After the first loop the [Map] holds the bigrams of [first]. *)
Lemma counts_firstBigrams s : counts (firstBigrams s) (list_to_set_disj (bigrams s)).
Proof.
  unfold firstBigrams.
  rewrite <- (right_id_L ∅ (⊎) (list_to_set_disj (bigrams s))).
  apply counts_foldl. intros b. rewrite lookup_empty, multiplicity_empty. reflexivity.
Qed.

(** The second loop adds the size of the intersection to the counter. *)
Lemma match_foldl l m X n :
  counts m X ->
  (foldl match_bigram (m, n) l).2 = (n + size (X ∩ list_to_set_disj l))%nat.
Proof.
  revert m X n. induction l as [|b l IH]; intros m X n H; simpl.
  - replace (X ∩ ∅) with (∅ : gmultiset string) by multiset_solver.
    rewrite gmultiset_size_empty. lia.
  - unfold match_bigram at 2. simpl. rewrite (H b).
    destruct (Nat.ltb_spec 0 (multiplicity b X)) as [Hpos|Hzero].
    + rewrite (IH _ (X ∖ {[+ b +]})).
      * replace (X ∩ ({[+ b +]} ⊎ list_to_set_disj l))
          with ({[+ b +]} ⊎ (X ∖ {[+ b +]}) ∩ list_to_set_disj l) by multiset_solver.
        rewrite gmultiset_size_disj_union, gmultiset_size_singleton. lia.
      * intros b'. rewrite multiplicity_difference.
        destruct (decide (b = b')) as [->|Hne].
        -- rewrite lookup_insert_eq, multiplicity_singleton.
           rewrite decide_True by reflexivity. reflexivity.
        -- rewrite lookup_insert_ne, multiplicity_singleton_ne by congruence.
           rewrite Nat.sub_0_r. apply H.
    + rewrite (IH _ X _ H). f_equal. f_equal. multiset_solver.
Qed.

Lemma intersectionSize_multiset a b :
  intersectionSize a b
  = size (list_to_set_disj (bigrams a) ∩ list_to_set_disj (bigrams b) : gmultiset string).
Proof.
  unfold intersectionSize. rewrite (match_foldl _ _ _ _ (counts_firstBigrams a)). lia.
Qed.

Lemma intersectionSize_comm a b : intersectionSize a b = intersectionSize b a.
Proof. rewrite !intersectionSize_multiset. f_equal. apply (comm_L (∩)). Qed.

Lemma compareTwoStrings_comm (a b : string) :
  compareTwoStrings a b = compareTwoStrings b a.
Proof.
  unfold compareTwoStrings.
  rewrite (String.eqb_sym (remove_all _ a)), (orb_comm (_ <? _)%nat).
  rewrite (intersectionSize_comm (remove_all _ a)).
  rewrite (add_comm (of_Z (Z.of_nat (String.length (remove_all _ a))))).
  reflexivity.
Qed.

(** C9: the score does not depend on the order of the two records, be
    they records, [null], or records on which the scorer raises. *)
Theorem calculateSongScore_comm (a b : option obj) :
  calculateSongScore a b = calculateSongScore b a.
Proof.
  destruct a as [a|], b as [b|]; try reflexivity. unfold calculateSongScore.
  destruct (normalize (get a "name")) as [an|[]],
           (normalize (get a "artist")) as [aa|[]],
           (normalize (get a "album")) as [al|[]],
           (normalize (get b "name")) as [bn|[]],
           (normalize (get b "artist")) as [ba|[]],
           (normalize (get b "album")) as [bl|[]];
    cbn [mbind result_bind]; try reflexivity.
  rewrite (compareTwoStrings_comm an), (compareTwoStrings_comm aa), (compareTwoStrings_comm al).
  reflexivity.
Qed.

(** ** The range of the similarity measure and of the total *)

Lemma bigrams_length (s : string) : length (bigrams s) = (String.length s - 1)%nat.
Proof.
  induction s as [|a s IH]; [reflexivity|].
  destruct s as [|b s]; [reflexivity|].
  change (bigrams (String a (String b s)))
    with (String a (String b EmptyString) :: bigrams (String b s)).
  cbn [length]. rewrite IH. cbn [String.length]. lia.
Qed.

Lemma size_list_to_set_disj (l : list string) :
  size (list_to_set_disj l : gmultiset string) = length l.
Proof.
  induction l as [|x l IH]; [apply gmultiset_size_empty|].
  rewrite list_to_set_disj_cons, gmultiset_size_disj_union, gmultiset_size_singleton, IH.
  reflexivity.
Qed.

Lemma intersectionSize_le (a b : string) :
  (intersectionSize a b <= String.length a - 1
   /\ intersectionSize a b <= String.length b - 1)%nat.
Proof.
  rewrite intersectionSize_multiset, <- !bigrams_length, <- !size_list_to_set_disj.
  split; apply gmultiset_subseteq_size; multiset_solver.
Qed.

Lemma remove_all_length (b : bracket) (s : string) :
  (String.length (remove_all b s) <= String.length s)%nat.
Proof.
  induction s as [|c s IH]; simpl; [lia|].
  destruct (bracket_matches b c); simpl; lia.
Qed.

Lemma B2R_lit_1 : B2R lit_1 = 1%R.
Proof.
  unfold lit_1, B2R. change (bpow (-52)) with (bpow (Z.opp 52)).
  rewrite (bpow_neg_IZR 52) by lia.
  change (2 ^ 52) with 4503599627370496. field.
Qed.

Lemma B2R_lit_2 : B2R lit_2 = 2%R.
Proof.
  unfold lit_2, B2R. change (bpow (-51)) with (bpow (Z.opp 51)).
  rewrite (bpow_neg_IZR 51) by lia. change (2 ^ 51) with 2251799813685248. field.
Qed.

Lemma bpow_53 : bpow 53 = 9007199254740992%R.
Proof. rewrite bpow_IZR by lia. reflexivity. Qed.

(** The length of a string of at least two and fewer than [2^53] code
    units, as a number. *)
Lemma of_Z_length (n : Z) :
  2 <= n < 2 ^ 53 ->
  pos_normal (of_Z n) = true
  /\ (IZR n * (1 - eps) <= B2R (of_Z n) <= IZR n * (1 + eps))%R
  /\ (2 <= IZR n <= 9007199254740992)%R.
Proof.
  intros Hn. destruct (of_Z_normal n) as [H1 H2].
  { split; [lia|]. apply Z.lt_trans with (2 ^ 53); [lia | reflexivity]. }
  split; [exact H1|]. split; [exact H2|].
  split; [apply IZR_le; lia|]. apply IZR_le. change 9007199254740992 with (2 ^ 53). lia.
Qed.

(** The similarity of two strings is [+0] or a positive normal number,
    and at most 1 up to the rounding errors of its five operations. *)
Lemma compareTwoStrings_tame (a b : string) :
  short a -> short b ->
  tame 120 (compareTwoStrings a b)
  /\ (B2R (compareTwoStrings a b) <= 1 + 16 * eps)%R.
Proof.
  intros Sa Sb. unfold compareTwoStrings.
  pose proof (remove_all_length (Any [ClassSpace]) a) as La.
  pose proof (remove_all_length (Any [ClassSpace]) b) as Lb.
  set (a' := remove_all (Any [ClassSpace]) a) in *.
  set (b' := remove_all (Any [ClassSpace]) b) in *.
  pose proof eps_bounds as He.
  destruct (String.eqb a' b').
  { split; [|rewrite B2R_lit_1; lra]. right. split; [reflexivity|].
    rewrite B2R_lit_1. split.
    - apply Rle_trans with (bpow 0); [apply bpow_le; lia | simpl; lra].
    - apply Rle_trans with (bpow 0); [simpl; lra | apply bpow_le; lia]. }
  destruct (Nat.ltb_spec (String.length a') 2) as [|Ha2];
    [split; [left; reflexivity | simpl; lra]|].
  destruct (Nat.ltb_spec (String.length b') 2) as [|Hb2];
    [split; [left; reflexivity | simpl; lra]|].
  cbn [orb].
  pose proof (intersectionSize_le a' b') as [Ka Kb].
  set (k := Z.of_nat (intersectionSize a' b')) in *.
  set (la := Z.of_nat (String.length a')). set (lb := Z.of_nat (String.length b')).
  unfold short in Sa, Sb.
  assert (Hla : 2 <= la < 2 ^ 53) by (unfold la; lia).
  assert (Hlb : 2 <= lb < 2 ^ 53) by (unfold lb; lia).
  assert (Hk : 0 <= k /\ 2 * k <= la + lb - 2 /\ k < 2 ^ 53) by (unfold k, la, lb; lia).
  destruct Hk as (Hk0 & Hk1 & Hk2).
  (* the denominator *)
  destruct (of_Z_length la Hla) as (NA & EA & RA).
  destruct (of_Z_length lb Hlb) as (NB & EB & RB).
  pose proof bpow_53 as P53.
  destruct (add_normal _ _ NA NB) as [NS ES].
  { apply Rlt_trans with (bpow 55); [|apply bpow_lt; lia].
    replace (bpow 55) with (4 * bpow 53)%R
      by (replace 55 with (53 + 1 + 1) by lia; rewrite !bpow_succ; ring).
    unfold eps in *. lra. }
  change (SFadd 53 1024 (of_Z la) (of_Z lb)) with (add (of_Z la) (of_Z lb)) in NS, ES.
  assert (N2 : pos_normal lit_2 = true) by reflexivity.
  destruct (sub_normal _ _ NS N2) as [ND ED].
  { rewrite B2R_lit_2. split.
    - apply Rle_trans with (bpow 0); [apply bpow_le; lia|]. simpl. unfold eps in *. lra.
    - apply Rlt_trans with (bpow 55); [|apply bpow_lt; lia].
      replace (bpow 55) with (4 * bpow 53)%R
        by (replace 55 with (53 + 1 + 1) by lia; rewrite !bpow_succ; ring).
      unfold eps in *. lra. }
  change (SFsub 53 1024 (add (of_Z la) (of_Z lb)) lit_2)
    with (sub (add (of_Z la) (of_Z lb)) lit_2) in ND, ED.
  rewrite B2R_lit_2 in ED.
  (* the numerator *)
  destruct (tame_of_Z 53 k) as [TK EK]; [lia | lia |].
  assert (T2 : tame 2 lit_2).
  { right. split; [reflexivity|]. rewrite B2R_lit_2.
    change (bpow (-2)) with (bpow (Z.opp 2)).
    rewrite (bpow_neg_IZR 2), (bpow_IZR 2) by lia. change (2 ^ 2) with 4. lra. }
  destruct (tame_mul 2 54 _ _ T2 TK) as [TN EN]; [lia | lia |].
  rewrite B2R_lit_2 in EN.
  assert (K0 : (0 <= IZR k)%R) by (apply IZR_le; lia).
  assert (K1 : (2 * IZR k <= IZR la + IZR lb - 2)%R).
  { rewrite <- (mult_IZR 2 k), <- plus_IZR, <- (minus_IZR _ 2). apply IZR_le. lia. }
  set (A := B2R (of_Z la)) in *. set (B := B2R (of_Z lb)) in *.
  set (S := B2R (add (of_Z la) (of_Z lb))) in *.
  set (D := B2R (sub (add (of_Z la) (of_Z lb)) lit_2)) in *.
  set (K := B2R (of_Z k)) in *. set (N := B2R (mul lit_2 (of_Z k))) in *.
  assert (HD : (1 <= D <= bpow 56)%R).
  { replace (bpow 56) with (8 * bpow 53)%R
      by (replace 56 with (53 + 1 + 1 + 1) by lia; rewrite !bpow_succ; ring).
    unfold eps in *. lra. }
  destruct (tame_div (2 + 54 + 1) 56 _ _ TN ND) as [TQ EQ]; [| lia | lia |].
  { fold D. split; [|lra]. apply Rle_trans with (bpow 0); [apply bpow_le; lia | simpl; lra]. }
  split; [apply tame_weaken with (2 + 54 + 1 + 56 + 1); [lia | exact TQ]|].
  fold N D in EQ.
  assert (Hq : (N / D <= 1 + 8 * eps)%R).
  { apply Rmult_le_reg_r with D; [lra|].
    replace (N / D * D)%R with N by (field; lra). unfold eps in *. lra. }
  unfold eps in *. lra.
Qed.

Lemma B2R_lit_0_4 : B2R lit_0_4 = (7205759403792794 / 18014398509481984)%R.
Proof.
  unfold lit_0_4, B2R. change (bpow (-54)) with (bpow (Z.opp 54)).
  rewrite (bpow_neg_IZR 54) by lia. reflexivity.
Qed.

Lemma B2R_lit_0_2 : B2R lit_0_2 = (7205759403792794 / 36028797018963968)%R.
Proof.
  unfold lit_0_2, B2R. change (bpow (-55)) with (bpow (Z.opp 55)).
  rewrite (bpow_neg_IZR 55) by lia. reflexivity.
Qed.

Lemma B2R_lit_100 : B2R lit_100 = 100%R.
Proof.
  unfold lit_100, B2R. change (bpow (-46)) with (bpow (Z.opp 46)).
  rewrite (bpow_neg_IZR 46) by lia. change (2 ^ 46) with 70368744177664. field.
Qed.

Lemma tame_literal (f : number) (v : R) :
  pos_normal f = true -> B2R f = v -> (/ 8 <= v <= 128)%R -> tame 7 f.
Proof.
  intros Hn Hv [H1 H2]. right. split; [exact Hn|]. rewrite Hv.
  change (bpow (-7)) with (bpow (Z.opp 7)).
  rewrite (bpow_neg_IZR 7), (bpow_IZR 7) by lia. change (2 ^ 7) with 128. lra.
Qed.

(** The total before rounding, against the exact weighted sum. *)
Lemma totalScore_accuracy (t a l : number) :
  tame 120 t -> tame 120 a -> tame 120 l ->
  (B2R t <= 1 + 16 * eps)%R -> (B2R a <= 1 + 16 * eps)%R -> (B2R l <= 1 + 16 * eps)%R ->
  tame 140 (totalScore t a l)
  /\ (Rabs (B2R (totalScore t a l)
            - 100 * (0.4 * B2R t + 0.4 * B2R a + 0.2 * B2R l)) <= / 1000000000000)%R.
Proof.
  intros Tt Ta Tl Ut Ua Ul. unfold totalScore, weights_title, weights_artist, weights_album.
  pose proof (tame_nonneg _ _ Tt) as Nt. pose proof (tame_nonneg _ _ Ta) as Na.
  pose proof (tame_nonneg _ _ Tl) as Nl.
  assert (W4 : tame 7 lit_0_4).
  { apply (tame_literal lit_0_4 _ eq_refl B2R_lit_0_4). lra. }
  assert (W2 : tame 7 lit_0_2).
  { apply (tame_literal lit_0_2 _ eq_refl B2R_lit_0_2). lra. }
  assert (W100 : tame 7 lit_100).
  { apply (tame_literal lit_100 _ eq_refl B2R_lit_100). lra. }
  destruct (tame_mul 120 7 t lit_0_4 Tt W4) as [T1 E1]; [lia | lia |].
  destruct (tame_mul 120 7 a lit_0_4 Ta W4) as [T2 E2]; [lia | lia |].
  destruct (tame_mul 120 7 l lit_0_2 Tl W2) as [T3 E3]; [lia | lia |].
  destruct (tame_add _ _ _ T1 T2) as [T4 E4]; [lia|].
  apply (tame_weaken _ (120 + 7 + 1 + 2)) in T3; [|lia].
  destruct (tame_add _ _ _ T4 T3) as [T5 E5]; [lia|].
  destruct (tame_mul _ 7 _ lit_100 T5 W100) as [T6 E6]; [lia | lia |].
  split; [apply tame_weaken with (120 + 7 + 1 + 2 + 2 + 7 + 1); [lia | exact T6]|].
  rewrite B2R_lit_0_4 in E1, E2. rewrite B2R_lit_0_2 in E3. rewrite B2R_lit_100 in E6.
  set (y1 := B2R (mul t lit_0_4)) in *. set (y2 := B2R (mul a lit_0_4)) in *.
  set (y3 := B2R (mul l lit_0_2)) in *.
  set (s1 := B2R (add (mul t lit_0_4) (mul a lit_0_4))) in *.
  set (s2 := B2R (add (add (mul t lit_0_4) (mul a lit_0_4)) (mul l lit_0_2))) in *.
  set (T := B2R (mul (add (add (mul t lit_0_4) (mul a lit_0_4)) (mul l lit_0_2)) lit_100)) in *.
  unfold eps in *. apply Rabs_le. split; lra.
Qed.

(** ** The scorer *)

(** C6: when either record is [null] or absent the score is 0 and
    nothing is raised. *)
Theorem calculateSongScore_null (s : option obj) :
  calculateSongScore None s = Ok 0
  /\ calculateSongScore s None = Ok 0
  /\ calculateSongScore None None = Ok 0.
Proof. repeat split; destruct s; reflexivity. Qed.

Lemma compareTwoStrings_same (s : string) : compareTwoStrings s s = lit_1.
Proof. unfold compareTwoStrings. now rewrite String.eqb_refl. Qed.

Lemma normalize_string (s : string) : exists r, normalize (VStr s) = Ok r.
Proof. simpl. eauto. Qed.

(** C7: a record with [name], [artist] and [album] all strings scores
    100 against itself. *)
Theorem calculateSongScore_identity (s : obj) (name artist album : string) :
  s !! "name" = Some (VStr name) ->
  s !! "artist" = Some (VStr artist) ->
  s !! "album" = Some (VStr album) ->
  calculateSongScore (Some s) (Some s) = Ok 100.
Proof.
  intros Hn Ha Hl. unfold calculateSongScore, get. rewrite Hn, Ha, Hl. simpl default.
  destruct (normalize_string name) as [n ->].
  destruct (normalize_string artist) as [a ->].
  destruct (normalize_string album) as [l ->].
  cbn [mbind result_bind]. rewrite !compareTwoStrings_same. reflexivity.
Qed.

Lemma calculateSongScore_identity_witness :
  calculateSongScore
    (Some (song "Never Gonna Give You Up" "Rick Astley" "Whenever You Need Somebody"))
    (Some (song "Never Gonna Give You Up" "Rick Astley" "Whenever You Need Somebody"))
  = Ok 100.
Proof.
  apply (calculateSongScore_identity _ "Never Gonna Give You Up" "Rick Astley"
           "Whenever You Need Somebody"); reflexivity.
Defined.

Lemma toLowerCase_length (s : string) :
  String.length (toLowerCase s) = String.length s.
Proof. induction s as [|c s IH]; simpl; [|rewrite IH]; reflexivity. Qed.

Lemma trimStart_length (s : string) :
  (String.length (trimStart s) <= String.length s)%nat.
Proof.
  induction s as [|c s IH]; simpl; [lia|]. destruct (is_space c); simpl; lia.
Qed.

Lemma trimEnd_length (s : string) :
  (String.length (trimEnd s) <= String.length s)%nat.
Proof.
  induction s as [|c s IH]; simpl; [lia|].
  destruct (trimEnd s); [destruct (is_space c)|]; simpl in *; lia.
Qed.

Lemma normalize_field_ok (v : value) :
  field_ok v -> exists r, normalize v = Ok r /\ short r.
Proof.
  destruct v as [| | | |s]; simpl; try tauto.
  - intros _. exists EmptyString. split; [reflexivity | unfold short; simpl; lia].
  - intros _. exists EmptyString. split; [reflexivity | unfold short; simpl; lia].
  - intros Hs. eexists. split; [reflexivity|].
    set (r := trim _).
    assert (Hr : (String.length r <= String.length s)%nat).
    { unfold r, trim.
      pose proof (trimEnd_length
                    (trimStart (remove_all (NoneOf [ClassWord; ClassSpace]) (toLowerCase s)))).
      pose proof (trimStart_length (remove_all (NoneOf [ClassWord; ClassSpace]) (toLowerCase s))).
      pose proof (remove_all_length (NoneOf [ClassWord; ClassSpace]) (toLowerCase s)).
      rewrite toLowerCase_length in *. lia. }
    unfold short in *. destruct (String.eqb r EmptyString); simpl; lia.
Qed.

(** The rounded total against the exact weighted sum of the three
    similarities. *)
Lemma round_totalScore (t a l : number) :
  tame 120 t -> tame 120 a -> tame 120 l ->
  (B2R t <= 1 + 16 * eps)%R -> (B2R a <= 1 + 16 * eps)%R -> (B2R l <= 1 + 16 * eps)%R ->
  0 <= round (totalScore t a l) <= 100
  /\ (Rabs (IZR (round (totalScore t a l))
            - 100 * (0.4 * B2R t + 0.4 * B2R a + 0.2 * B2R l))
      <= / 2 + / 1000000000000)%R.
Proof.
  intros Tt Ta Tl Ut Ua Ul.
  destruct (totalScore_accuracy t a l Tt Ta Tl Ut Ua Ul) as [_ Hacc].
  pose proof (round_spec (totalScore t a l)) as [R1 R2].
  pose proof (tame_nonneg _ _ Tt) as Nt. pose proof (tame_nonneg _ _ Ta) as Na.
  pose proof (tame_nonneg _ _ Tl) as Nl.
  apply Rabs_le_elim in Hacc. destruct Hacc as [A1 A2].
  set (T := B2R (totalScore t a l)) in *. set (z := round (totalScore t a l)) in *.
  unfold eps in *. split.
  - split.
    + assert (H : (IZR (-1) < IZR z)%R) by (simpl; lra). apply lt_IZR in H. lia.
    + assert (H : (IZR z < IZR 101)%R) by (simpl; lra). apply lt_IZR in H. lia.
  - apply Rabs_le. split; lra.
Qed.

(** C2, as the code has it: for two records whose compared fields are
    strings (or absent), the score is an integer in [0,100]: the
    binary64 total of the three similarities of the normalized fields,
    weighted 0.4, 0.4 and 0.2 and multiplied by 100, each operation
    rounding its result, rounded to the nearest integer (a tie going
    up).  The total is a finite non-negative number, and the score is
    within one half, and the rounding errors of the arithmetic, of the
    exact weighted sum; it need not be the integer nearest to that
    sum. *)
Theorem calculateSongScore_weighted (originalSong candidateSong : obj) :
  well_formed originalSong -> well_formed candidateSong ->
  exists originalTitle originalArtist originalAlbum
         candidateTitle candidateArtist candidateAlbum : string,
    normalize (get originalSong "name") = Ok originalTitle
    /\ normalize (get originalSong "artist") = Ok originalArtist
    /\ normalize (get originalSong "album") = Ok originalAlbum
    /\ normalize (get candidateSong "name") = Ok candidateTitle
    /\ normalize (get candidateSong "artist") = Ok candidateArtist
    /\ normalize (get candidateSong "album") = Ok candidateAlbum
    /\ let titleScore := compareTwoStrings originalTitle candidateTitle in
       let artistScore := compareTwoStrings originalArtist candidateArtist in
       let albumScore := compareTwoStrings originalAlbum candidateAlbum in
       let total :=
         mul (add (add (mul titleScore lit_0_4) (mul artistScore lit_0_4))
                  (mul albumScore lit_0_2))
             lit_100 in
       let score := round total in
       calculateSongScore (Some originalSong) (Some candidateSong) = Ok score
       /\ 0 <= score <= 100
       /\ (total = S754_zero false \/ pos_normal total = true)
       /\ (IZR score <= B2R total + / 2 < IZR score + 1)%R
       /\ (Rabs (IZR score
                 - 100 * (0.4 * B2R titleScore + 0.4 * B2R artistScore
                          + 0.2 * B2R albumScore))
           <= / 2 + / 1000000000000)%R.
Proof.
  intros (On & Oa & Ol) (Cn & Ca & Cl).
  destruct (normalize_field_ok _ On) as (ot & Eot & Sot).
  destruct (normalize_field_ok _ Oa) as (oa & Eoa & Soa).
  destruct (normalize_field_ok _ Ol) as (ol & Eol & Sol).
  destruct (normalize_field_ok _ Cn) as (ct & Ect & Sct).
  destruct (normalize_field_ok _ Ca) as (ca & Eca & Sca).
  destruct (normalize_field_ok _ Cl) as (cl & Ecl & Scl).
  exists ot, oa, ol, ct, ca, cl. repeat (split; [assumption|]).
  intros titleScore artistScore albumScore total score.
  destruct (compareTwoStrings_tame ot ct Sot Sct) as [Tt Ut].
  destruct (compareTwoStrings_tame oa ca Soa Sca) as [Ta Ua].
  destruct (compareTwoStrings_tame ol cl Sol Scl) as [Tl Ul].
  destruct (round_totalScore titleScore artistScore albumScore Tt Ta Tl Ut Ua Ul)
    as [Hrange Hacc].
  destruct (totalScore_accuracy titleScore artistScore albumScore Tt Ta Tl Ut Ua Ul)
    as [Htame _].
  split; [|split; [exact Hrange|split; [|split; [apply round_spec | exact Hacc]]]].
  - unfold calculateSongScore. rewrite Eot, Eoa, Eol, Ect, Eca, Ecl. reflexivity.
  - destruct Htame as [E|[Hn _]]; [left; exact E | right; exact Hn].
Qed.

Lemma calculateSongScore_weighted_witness :
  let originalSong := song "Bohemian Rhapsody" "Queen" "A Night at the Opera" in
  let candidateSong := song "Bohemian Rhapsody" "Queen" "Queen Greatest Hits" in
  well_formed originalSong /\ well_formed candidateSong
  /\ calculateSongScore (Some originalSong) (Some candidateSong) = Ok 83
  /\ exists score,
       calculateSongScore (Some originalSong) (Some candidateSong) = Ok score
       /\ 0 <= score <= 100.
Proof.
  intros originalSong candidateSong.
  assert (Ho : well_formed originalSong) by (repeat split; vm_compute; reflexivity).
  assert (Hc : well_formed candidateSong) by (repeat split; vm_compute; reflexivity).
  split; [exact Ho|]. split; [exact Hc|]. split; [vm_compute; reflexivity|].
  destruct (calculateSongScore_weighted originalSong candidateSong Ho Hc)
    as (ot & oa & ol & ct & ca & cl & _ & _ & _ & _ & _ & _ & H).
  cbv zeta in H. destruct H as (E & Hr & _). eexists. split; [exact E | exact Hr].
Defined.

Lemma B2R_finite (m : positive) (e : Z) :
  0 <= e -> B2R (S754_finite false m (- e)) = (IZR (Z.pos m) / IZR (2 ^ e))%R.
Proof. intros H. unfold B2R. rewrite bpow_neg_IZR by exact H. reflexivity. Qed.

Lemma not_weighted_rounded (a b : obj) (ot oa ol ct ca cl : string) (score : Z) :
  normalize (get a "name") = Ok ot -> normalize (get a "artist") = Ok oa ->
  normalize (get a "album") = Ok ol -> normalize (get b "name") = Ok ct ->
  normalize (get b "artist") = Ok ca -> normalize (get b "album") = Ok cl ->
  calculateSongScore (Some a) (Some b) = Ok score ->
  ~ Spec.rounded (Spec.weighted_sum (compareTwoStrings ot ct) (compareTwoStrings oa ca)
               (compareTwoStrings ol cl)) score ->
  ~ Spec.weighted_rounded a b.
Proof.
  intros H1 H2 H3 H4 H5 H6 Hs Hn H.
  destruct (H ot oa ol ct ca cl H1 H2 H3 H4 H5 H6) as (s & Es & _ & Hr).
  rewrite Hs in Es. injection Es as <-. exact (Hn Hr).
Qed.

(** C2, as worded, fails: the total is computed in binary64, and its
    rounding errors decide the score where the exact weighted sum is at,
    or just below, the middle of two integers.  The first pair scores
    60, which [findBestMatch] accepts, while the weighted sum of its
    similarities is below 59.5; the second and the third pair have the
    weighted sum 57.5 both, and score 57 and 58. *)
Lemma calculateSongScore_misrounded :
  (calculateSongScore (Some (song "Help!" "Paul Simon" "Help!"))
     (Some (song "Help!" "Paul McCartney" "Help! (Remastered)")) = Ok 60
   /\ (Spec.weighted_sum (compareTwoStrings "help" "help")
         (compareTwoStrings "paul simon" "paul mccartney")
         (compareTwoStrings "help" "help remastered") < 59.5)%R
   /\ ~ Spec.weighted_rounded (song "Help!" "Paul Simon" "Help!")
          (song "Help!" "Paul McCartney" "Help! (Remastered)"))
  /\ (calculateSongScore (Some (song "Help!" "The Beatles" "Help!"))
        (Some (song "Help!" "The Kinks" "Help! (Remastered)")) = Ok 57
      /\ Spec.weighted_sum (compareTwoStrings "help" "help")
           (compareTwoStrings "the beatles" "the kinks")
           (compareTwoStrings "help" "help remastered") = 57.5%R
      /\ ~ Spec.weighted_rounded (song "Help!" "The Beatles" "Help!")
             (song "Help!" "The Kinks" "Help! (Remastered)"))
  /\ (calculateSongScore (Some (song "Thriller" "Michael Jackson" "Thriller"))
        (Some (song "Thriller" "Various Artists" "Thriller 25")) = Ok 58
      /\ Spec.weighted_sum (compareTwoStrings "thriller" "thriller")
           (compareTwoStrings "michael jackson" "various artists")
           (compareTwoStrings "thriller" "thriller 25") = 57.5%R).
Proof.
  assert (E1 : compareTwoStrings "help" "help" = lit_1) by (vm_compute; reflexivity).
  assert (E2 : compareTwoStrings "paul simon" "paul mccartney"
               = S754_finite false 5404319552844595 (- 54)) by (vm_compute; reflexivity).
  assert (E3 : compareTwoStrings "help" "help remastered"
               = S754_finite false 6755399441055744 (- 54)) by (vm_compute; reflexivity).
  assert (E4 : compareTwoStrings "the beatles" "the kinks"
               = S754_finite false 4503599627370496 (- 54)) by (vm_compute; reflexivity).
  assert (E5 : compareTwoStrings "thriller" "thriller" = lit_1) by (vm_compute; reflexivity).
  assert (E6 : compareTwoStrings "michael jackson" "various artists" = lit_0)
    by (vm_compute; reflexivity).
  assert (E7 : compareTwoStrings "thriller" "thriller 25"
               = S754_finite false 7881299347898368 (- 53)) by (vm_compute; reflexivity).
  assert (S1 : (Spec.weighted_sum (compareTwoStrings "help" "help")
                  (compareTwoStrings "paul simon" "paul mccartney")
                  (compareTwoStrings "help" "help remastered") < 59.5)%R).
  { rewrite E1, E2, E3. unfold Spec.weighted_sum, lit_1.
    rewrite (B2R_finite _ 52), !(B2R_finite _ 54) by lia.
    change (2 ^ 52) with 4503599627370496. change (2 ^ 54) with 18014398509481984. lra. }
  assert (S2 : Spec.weighted_sum (compareTwoStrings "help" "help")
                 (compareTwoStrings "the beatles" "the kinks")
                 (compareTwoStrings "help" "help remastered") = 57.5%R).
  { rewrite E1, E4, E3. unfold Spec.weighted_sum, lit_1.
    rewrite (B2R_finite _ 52), !(B2R_finite _ 54) by lia.
    change (2 ^ 52) with 4503599627370496. change (2 ^ 54) with 18014398509481984. lra. }
  assert (S3 : Spec.weighted_sum (compareTwoStrings "thriller" "thriller")
                 (compareTwoStrings "michael jackson" "various artists")
                 (compareTwoStrings "thriller" "thriller 25") = 57.5%R).
  { rewrite E5, E6, E7. unfold Spec.weighted_sum, lit_1, lit_0.
    rewrite (B2R_finite _ 52), (B2R_finite _ 53) by lia. cbn [B2R].
    change (2 ^ 52) with 4503599627370496. change (2 ^ 53) with 9007199254740992. lra. }
  split; [split; [vm_compute; reflexivity | split; [exact S1|]]|].
  { apply (not_weighted_rounded _ _ "help" "paul simon" "help"
             "help" "paul mccartney" "help remastered" 60); [evaluate ..|].
    intros [Hn _]. apply Rabs_le_elim in Hn. lra. }
  split; [split; [vm_compute; reflexivity | split; [exact S2|]]
         | split; [vm_compute; reflexivity | exact S3]].
  apply (not_weighted_rounded _ _ "help" "the beatles" "help"
           "help" "the kinks" "help remastered" 57); [evaluate ..|].
  rewrite S2. intros [_ Ht].
  assert (Hh : Rabs (IZR 57 - 57.5) = (/ 2)%R).
  { replace (IZR 57 - 57.5)%R with (- / 2)%R by lra. rewrite Rabs_Ropp.
    apply Rabs_pos_eq. lra. }
  destruct (Ht Hh) as [Hz|Hz]; [|discriminate Hz].
  rewrite !Rabs_pos_eq in Hz by lra. lra.
Qed.

(** C8, as the code has it: two records with the same [name] and [artist]
    strings and any two [album] strings score more than 70 (at least 80)
    and at most 100; the score is below 100 when the similarity of the
    normalized albums is at most 0.97. *)
Theorem calculateSongScore_album_only (a b : obj)
  (name artist albumA albumB la lb : string) :
  a !! "name" = Some (VStr name) -> b !! "name" = Some (VStr name) ->
  a !! "artist" = Some (VStr artist) -> b !! "artist" = Some (VStr artist) ->
  a !! "album" = Some (VStr albumA) -> b !! "album" = Some (VStr albumB) ->
  short albumA -> short albumB ->
  normalize (VStr albumA) = Ok la -> normalize (VStr albumB) = Ok lb ->
  exists score,
    calculateSongScore (Some a) (Some b) = Ok score
    /\ 70 < score <= 100
    /\ 80 <= score
    /\ ((B2R (compareTwoStrings la lb) <= 0.97)%R -> score < 100).
Proof.
  intros An Bn Aa Ba Al Bl Sa Sb Ela Elb.
  destruct (normalize_field_ok (VStr albumA) Sa) as (la' & Ela' & Sla).
  destruct (normalize_field_ok (VStr albumB) Sb) as (lb' & Elb' & Slb).
  rewrite Ela in Ela'. rewrite Elb in Elb'. injection Ela' as <-. injection Elb' as <-.
  destruct (normalize_string name) as [n En]. destruct (normalize_string artist) as [r Er].
  exists (round (totalScore lit_1 lit_1 (compareTwoStrings la lb))).
  split.
  - unfold calculateSongScore, get. rewrite An, Bn, Aa, Ba, Al, Bl. simpl default.
    rewrite En, Er, Ela, Elb. cbn [mbind result_bind].
    rewrite !compareTwoStrings_same. reflexivity.
  - destruct (compareTwoStrings_tame la lb Sla Slb) as [Tl Ul].
    assert (T1 : tame 120 lit_1).
    { right. split; [reflexivity|]. rewrite B2R_lit_1. split.
      - apply Rle_trans with (bpow 0); [apply bpow_le; lia | simpl; lra].
      - apply Rle_trans with (bpow 0); [simpl; lra | apply bpow_le; lia]. }
    assert (U1 : (B2R lit_1 <= 1 + 16 * eps)%R) by (rewrite B2R_lit_1; unfold eps; lra).
    destruct (round_totalScore lit_1 lit_1 _ T1 T1 Tl U1 U1 Ul) as [Hr Hacc].
    pose proof (tame_nonneg _ _ Tl) as Nl.
    rewrite B2R_lit_1 in Hacc. apply Rabs_le_elim in Hacc. destruct Hacc as [A1 A2].
    set (z := round (totalScore lit_1 lit_1 (compareTwoStrings la lb))) in *.
    assert (H80 : 80 <= z).
    { assert (H : (IZR 79 < IZR z)%R) by (simpl; lra). apply lt_IZR in H. lia. }
    split; [lia|]. split; [exact H80|].
    intros Hsim. assert (H : (IZR z < IZR 100)%R) by (simpl; lra).
    apply lt_IZR in H. exact H.
Qed.

Lemma calculateSongScore_album_only_witness :
  let a := song "Bohemian Rhapsody" "Queen" "A Night at the Opera" in
  let b := song "Bohemian Rhapsody" "Queen" "Queen Greatest Hits" in
  short "A Night at the Opera" /\ short "Queen Greatest Hits"
  /\ calculateSongScore (Some a) (Some b) = Ok 83
  /\ exists score, calculateSongScore (Some a) (Some b) = Ok score /\ 70 < score <= 100.
Proof.
  intros a b.
  assert (Sa : short "A Night at the Opera") by (vm_compute; reflexivity).
  assert (Sb : short "Queen Greatest Hits") by (vm_compute; reflexivity).
  split; [exact Sa|]. split; [exact Sb|]. split; [vm_compute; reflexivity|].
  destruct (calculateSongScore_album_only a b "Bohemian Rhapsody" "Queen"
              "A Night at the Opera" "Queen Greatest Hits"
              "a night at the opera" "queen greatest hits")
    as (score & E & Hr & _); try reflexivity; try assumption.
  exists score. split; [exact E | exact Hr].
Defined.

(** C8, as worded, fails for long album names that differ in one
    character: the album similarity is 80/82 and the total, 99.51,
    rounds to 100. *)
Lemma calculateSongScore_album_rounds_to_100 :
  ~ Spec.album_only_lower
      (song "Paint It Black" "The Rolling Stones"
         "The Very Best Of The Rolling Stones 1964-1971 Disc 1")
      (song "Paint It Black" "The Rolling Stones"
         "The Very Best Of The Rolling Stones 1964-1971 Disc 2").
Proof.
  intros H.
  destruct (H "Paint It Black" "The Rolling Stones"
              "The Very Best Of The Rolling Stones 1964-1971 Disc 1"
              "The Very Best Of The Rolling Stones 1964-1971 Disc 2"
              "the very best of the rolling stones 19641971 disc 1"
              "the very best of the rolling stones 19641971 disc 2")
    as (score & E & Hlt); try reflexivity.
  - vm_compute. discriminate.
  - assert (E' : calculateSongScore
                   (Some (song "Paint It Black" "The Rolling Stones"
                            "The Very Best Of The Rolling Stones 1964-1971 Disc 1"))
                   (Some (song "Paint It Black" "The Rolling Stones"
                            "The Very Best Of The Rolling Stones 1964-1971 Disc 2"))
                 = Ok 100) by (vm_compute; reflexivity).
    rewrite E' in E. injection E as <-. lia.
Qed.

(** ** The selector *)

Section Selector.
Variable originalSong : option obj.

Lemma visit_keep st candidate score :
  scored originalSong candidate score -> score <= st.2 ->
  visit originalSong st candidate = Ok st.
Proof.
  intros H Hle. unfold visit. rewrite H. cbn [mbind result_bind].
  destruct (Z.ltb_spec st.2 score); [lia | reflexivity].
Qed.

Lemma visit_take st candidate score :
  scored originalSong candidate score -> st.2 < score ->
  visit originalSong st candidate = Ok (Some (with_matchScore candidate score), score).
Proof.
  intros H Hlt. unfold visit. rewrite H. cbn [mbind result_bind].
  destruct (Z.ltb_spec st.2 score); [reflexivity | lia].
Qed.

(** Candidates that do not beat the current best leave the state as
    it is. *)
Lemma for_of_keep candidates st :
  Forall (fun c => exists s, scored originalSong c s /\ s <= st.2) candidates ->
  for_of originalSong candidates st = Ok st.
Proof.
  induction 1 as [|c cs (s & Hs & Hle) _ IH]; [reflexivity|].
  simpl. rewrite (visit_keep _ _ _ Hs Hle). exact IH.
Qed.

(** Candidates below [m] keep the best score below [m]. *)
Lemma for_of_below candidates st m :
  Forall (fun c => exists s, scored originalSong c s /\ s < m) candidates ->
  st.2 < m ->
  exists st', for_of originalSong candidates st = Ok st' /\ st'.2 < m.
Proof.
  intros H. revert st.
  induction H as [|c cs (s & Hs & Hlt) _ IH]; intros st Hst.
  - exists st. split; [reflexivity | exact Hst].
  - simpl. destruct (Z.lt_ge_cases st.2 s) as [Hb|Hb].
    + rewrite (visit_take _ _ _ Hs Hb). cbn [mbind result_bind]. apply IH. exact Hlt.
    + rewrite (visit_keep _ _ _ Hs Hb). cbn [mbind result_bind]. apply IH. exact Hst.
Qed.

Lemma for_of_app l1 l2 st :
  for_of originalSong (l1 ++ l2) st =
    st' ← for_of originalSong l1 st; for_of originalSong l2 st'.
Proof.
  revert st. induction l1 as [|c l1 IH]; intros st; [reflexivity|].
  simpl. destruct (visit originalSong st c); cbn [mbind result_bind]; [apply IH | reflexivity].
Qed.

(** The first candidate that reaches the largest score is the one the
    loop ends with. *)
Lemma for_of_first_max l1 c l2 m st :
  Forall (fun c' => exists s, scored originalSong c' s /\ s < m) l1 ->
  scored originalSong c m ->
  Forall (fun c' => exists s, scored originalSong c' s /\ s <= m) l2 ->
  st.2 < m ->
  for_of originalSong (l1 ++ c :: l2) st = Ok (Some (with_matchScore c m), m).
Proof.
  intros H1 Hc H2 Hst.
  destruct (for_of_below _ _ _ H1 Hst) as (st' & E & Hst').
  rewrite for_of_app, E. cbn [mbind result_bind]. simpl.
  rewrite (visit_take _ _ _ Hc Hst'). cbn [mbind result_bind].
  apply for_of_keep. exact H2.
Qed.

(** An exception raised while scoring any candidate leaves the loop. *)
Lemma for_of_throw l1 c l2 e st :
  Forall (fun c' => exists s, scored originalSong c' s) l1 ->
  calculateSongScore originalSong c = Throw e ->
  for_of originalSong (l1 ++ c :: l2) st = Throw e.
Proof.
  intros H. revert st. induction H as [|c' l1 (s & Hs) _ IH]; intros st Hc.
  - simpl. unfold visit. rewrite Hc. reflexivity.
  - simpl. unfold visit at 1. rewrite Hs. cbn [mbind result_bind].
    destruct (st.2 <? s); cbn [mbind result_bind]; apply IH; exact Hc.
Qed.

(** A scored list splits at the first place where its largest score
    is reached. *)
Lemma first_max_split (cs : list (option obj)) (ss : list Z) (c0 : option obj) (s0 : Z) :
  Forall2 (scored originalSong) (c0 :: cs) (s0 :: ss) ->
  exists l1 c l2,
    c0 :: cs = l1 ++ c :: l2
    /\ Forall (fun c' => exists s, scored originalSong c' s /\ s < foldl Z.max s0 ss) l1
    /\ scored originalSong c (foldl Z.max s0 ss)
    /\ Forall (fun c' => exists s, scored originalSong c' s /\ s <= foldl Z.max s0 ss) l2.
Proof.
  intros H. apply Forall2_cons_1 in H as [H0 H].
  revert c0 s0 H0. induction H as [|c s cs ss Hc _ IH]; intros c0 s0 H0.
  - exists [], c0, []. simpl. repeat split; [constructor | exact H0 | constructor].
  - simpl. destruct (Z.max_spec s0 s) as [[Hlt E]|[Hle E]].
    + (* the head is beaten: the first maximum is further on *)
      destruct (IH c s Hc) as (l1 & c' & l2 & El & H1 & H' & H2).
      rewrite E. exists (c0 :: l1), c', l2. rewrite El. repeat split; try assumption.
      constructor; [|exact H1].
      exists s0. split; [exact H0|].
      assert (Hm : forall l a, a <= foldl Z.max a l).
      { clear. induction l as [|x l IH]; intros a; simpl; [lia|].
        specialize (IH (Z.max a x)). lia. }
      specialize (Hm ss s). lia.
    + (* the head stays at least as good as [c] *)
      rewrite E. destruct (IH c0 s0 H0) as (l1 & c' & l2 & El & H1 & H' & H2).
      assert (Hm : forall l a, a <= foldl Z.max a l).
      { clear. induction l as [|x l IH']; intros a; simpl; [lia|].
        specialize (IH' (Z.max a x)). lia. }
      destruct l1 as [|x l1].
      * injection El as <- <-. exists [], c0, (c :: cs). repeat split; try assumption.
        constructor; [|exact H2]. exists s. split; [exact Hc|]. specialize (Hm ss s0). lia.
      * injection El as <- ->. apply Forall_cons_1 in H1 as [Hx H1].
        exists (c0 :: c :: l1), c', l2. repeat split; try assumption.
        constructor; [exact Hx|]. constructor; [|exact H1].
        exists s. split; [exact Hc|]. destruct Hx as (s0' & Hs0' & Hlt).
        unfold scored in *. rewrite H0 in Hs0'. injection Hs0' as <-. lia.
Qed.

End Selector.

Lemma foldl_max_ge (l : list Z) (a : Z) : a <= foldl Z.max a l.
Proof.
  revert a. induction l as [|x l IH]; intros a; simpl; [lia|].
  specialize (IH (Z.max a x)). lia.
Qed.

Lemma foldl_max_bound (l : list Z) (a x : Z) : In x l -> x <= foldl Z.max a l.
Proof.
  revert a. induction l as [|y l IH]; intros a; simpl; [tauto|].
  intros [->|H]; [|now apply IH].
  pose proof (foldl_max_ge l (Z.max a x)). lia.
Qed.

Lemma Forall2_in_scores (originalSong : option obj) (cs : list (option obj)) (ss : list Z) :
  Forall2 (scored originalSong) cs ss ->
  Forall (fun c => exists s, scored originalSong c s /\ In s ss) cs.
Proof.
  induction 1 as [|c s cs ss Hc _ IH]; constructor.
  - exists s. split; [exact Hc | left; reflexivity].
  - eapply Forall_impl; [exact IH|]. intros c' (s' & Hs' & Hin). exists s'.
    split; [exact Hs' | right; exact Hin].
Qed.

Lemma scored_null (originalSong : option obj) (s : Z) :
  scored originalSong None s -> s = 0.
Proof. unfold scored. destruct originalSong; simpl; congruence. Qed.

(** C1: [findBestMatch] gives [null] for a missing or empty sequence;
    otherwise, with [m] the largest score of the candidates, it gives
    [null] when [m < 60] and, when [m >= 60], a candidate of score [m]
    with all its fields as they were and [matchScore] set to [m]. *)
Theorem findBestMatch_threshold (originalSong : option obj)
  (c0 : option obj) (cs : list (option obj)) (s0 : Z) (ss : list Z) :
  Forall2 (scored originalSong) (c0 :: cs) (s0 :: ss) ->
  let m := foldl Z.max s0 ss in
  findBestMatch originalSong None = Ok None
  /\ findBestMatch originalSong (Some []) = Ok None
  /\ (m < 60 -> findBestMatch originalSong (Some (c0 :: cs)) = Ok None)
  /\ (60 <= m ->
      exists c : obj,
        In (Some c) (c0 :: cs)
        /\ scored originalSong (Some c) m
        /\ findBestMatch originalSong (Some (c0 :: cs))
           = Ok (Some (<["matchScore" := VNum m]> c))
        /\ (forall k : string, k <> "matchScore" ->
              (<["matchScore" := VNum m]> c : obj) !! k = c !! k)
        /\ (<["matchScore" := VNum m]> c : obj) !! "matchScore" = Some (VNum m)).
Proof.
  intros H m. split; [reflexivity|]. split; [reflexivity|]. split.
  - intros Hm.
    assert (Hall : Forall (fun c' => exists s, scored originalSong c' s /\ s < 60) (c0 :: cs)).
    { apply Forall2_in_scores in H. eapply Forall_impl; [exact H|].
      intros c (s & Hs & Hin). exists s. split; [exact Hs|].
      destruct Hin as [<-|Hin].
      - pose proof (foldl_max_ge ss s0). lia.
      - pose proof (foldl_max_bound ss s0 s Hin). lia. }
    destruct (for_of_below originalSong (c0 :: cs) (None, 0) 60 Hall) as (st' & E & Hst');
      [simpl; lia|].
    unfold findBestMatch. cbn [length Nat.eqb]. rewrite E. cbn [mbind result_bind].
    destruct (Z.leb_spec 60 st'.2); [lia | reflexivity].
  - intros Hm.
    destruct (first_max_split originalSong cs ss c0 s0 H) as (l1 & c & l2 & El & H1 & Hc & H2).
    fold m in H1, Hc, H2.
    destruct c as [c|]; [|apply scored_null in Hc; lia].
    exists c. split; [rewrite El; apply in_or_app; right; left; reflexivity|].
    split; [exact Hc|]. split; [|split].
    + unfold findBestMatch. cbn [length Nat.eqb]. rewrite El.
      rewrite (for_of_first_max originalSong l1 (Some c) l2 m (None, 0) H1 Hc H2)
        by (simpl; lia).
      cbn [mbind result_bind snd fst]. destruct (Z.leb_spec 60 m); [reflexivity | lia].
    + intros k Hk. apply lookup_insert_ne. congruence.
    + apply lookup_insert_eq.
Qed.

Lemma findBestMatch_threshold_witness :
  let original := Some (song "Imagine" "John Lennon" "Imagine") in
  let c1 := Some (song "Imagine" "John Lennon" "The John Lennon Collection") in
  let c2 := Some (song "Imagine" "John Lennon" "Imagine") in
  let c3 := Some (song "Yesterday" "The Beatles" "Help!") in
  Forall2 (scored original) [c1; c2; c3] [80; 100; 4]
  /\ (foldl Z.max 80 [100; 4] < 60 -> findBestMatch original (Some [c1; c2; c3]) = Ok None)
  /\ (60 <= foldl Z.max 80 [100; 4] ->
      exists c : obj,
        In (Some c) [c1; c2; c3]
        /\ scored original (Some c) (foldl Z.max 80 [100; 4])
        /\ findBestMatch original (Some [c1; c2; c3])
           = Ok (Some (<["matchScore" := VNum (foldl Z.max 80 [100; 4])]> c))
        /\ (forall k : string, k <> "matchScore" ->
              (<["matchScore" := VNum (foldl Z.max 80 [100; 4])]> c : obj) !! k = c !! k)
        /\ (<["matchScore" := VNum (foldl Z.max 80 [100; 4])]> c : obj) !! "matchScore"
           = Some (VNum (foldl Z.max 80 [100; 4]))).
Proof.
  intros original c1 c2 c3.
  assert (H : Forall2 (scored original) [c1; c2; c3] [80; 100; 4])
    by (repeat constructor; vm_compute; reflexivity).
  split; [exact H|].
  apply (findBestMatch_threshold original c1 [c2; c3] 80 [100; 4] H).
Defined.

Lemma length_middle {A} (l1 l2 : list A) (x : A) :
  (length (l1 ++ x :: l2) =? 0)%nat = false.
Proof. rewrite length_app. simpl. apply Nat.eqb_neq. lia. Qed.

(** C5, as the code has it: when the largest score is at least 60, the
    earliest candidate that reaches it is returned (with [matchScore]),
    whatever equal scores follow; and every candidate is scored, so an
    exception raised for any of them, even one after the winner, ends
    the call. *)
Theorem findBestMatch_earliest (originalSong : option obj)
  (l1 l2 : list (option obj)) (c : obj) (m : Z) :
  Forall (fun c' => exists s, scored originalSong c' s /\ s < m) l1 ->
  scored originalSong (Some c) m ->
  Forall (fun c' => exists s, scored originalSong c' s /\ s <= m) l2 ->
  60 <= m ->
  findBestMatch originalSong (Some (l1 ++ Some c :: l2))
  = Ok (Some (<["matchScore" := VNum m]> c))
  /\ (forall bad rest e,
        calculateSongScore originalSong bad = Throw e ->
        findBestMatch originalSong (Some (l1 ++ Some c :: l2 ++ bad :: rest)) = Throw e).
Proof.
  intros H1 Hc H2 Hm. split.
  - unfold findBestMatch. rewrite length_middle.
    rewrite (for_of_first_max originalSong l1 (Some c) l2 m (None, 0) H1 Hc H2)
      by (simpl; lia).
    cbn [mbind result_bind snd fst]. destruct (Z.leb_spec 60 m); [reflexivity | lia].
  - intros bad rest e Hbad. unfold findBestMatch. rewrite length_middle.
    replace (l1 ++ Some c :: l2 ++ bad :: rest)
      with ((l1 ++ Some c :: l2) ++ bad :: rest)
      by (rewrite <- app_assoc; reflexivity).
    rewrite (for_of_throw originalSong (l1 ++ Some c :: l2) bad rest e (None, 0));
      [reflexivity| |exact Hbad].
    apply Forall_app. split.
    + eapply Forall_impl; [exact H1|]. intros c' (s & Hs & _). eauto.
    + constructor; [exists m; exact Hc|].
      eapply Forall_impl; [exact H2|]. intros c' (s & Hs & _). eauto.
Qed.

Lemma findBestMatch_earliest_witness :
  let original := Some (song "Imagine" "John Lennon" "Imagine") in
  let c1 := Some (song "Imagine" "John Lennon" "The John Lennon Collection") in
  let live := <["id" := VStr "live"]> (song "Imagine" "John Lennon" "Imagine") in
  let studio := Some (<["id" := VStr "studio"]> (song "Imagine" "John Lennon" "Imagine")) in
  findBestMatch original (Some [c1; Some live; studio])
  = Ok (Some (<["matchScore" := VNum 100]> live))
  /\ findBestMatch original
       (Some [c1; Some live; studio; Some {[ "name" := VNum 7 ]}])
     = Throw TypeError.
Proof.
  intros original c1 live studio.
  destruct (findBestMatch_earliest original [c1] [studio] live 100) as [H1 H2].
  - repeat constructor. exists 80. split; [vm_compute; reflexivity | lia].
  - vm_compute; reflexivity.
  - repeat constructor. exists 100. split; [vm_compute; reflexivity | lia].
  - lia.
  - split; [exact H1|]. apply (H2 (Some {[ "name" := VNum 7 ]}) [] TypeError).
    vm_compute; reflexivity.
Defined.

(** C5, as worded, fails when the tied largest score is below 60: no
    candidate is returned at all. *)
Lemma findBestMatch_tie_below_threshold :
  ~ Spec.earliest_wins (Some (song "Imagine" "John Lennon" "Imagine"))
      [Some (<["id" := VStr "a"]> (song "Yesterday" "The Beatles" "Help!"));
       Some (<["id" := VStr "b"]> (song "Yesterday" "The Beatles" "Help!"))].
Proof.
  intros H.
  specialize (H [] (<["id" := VStr "a"]> (song "Yesterday" "The Beatles" "Help!"))
                [Some (<["id" := VStr "b"]> (song "Yesterday" "The Beatles" "Help!"))] 4).
  assert (E : findBestMatch (Some (song "Imagine" "John Lennon" "Imagine"))
                (Some [Some (<["id" := VStr "a"]> (song "Yesterday" "The Beatles" "Help!"));
                       Some (<["id" := VStr "b"]> (song "Yesterday" "The Beatles" "Help!"))])
              = Ok None) by (vm_compute; reflexivity).
  rewrite E in H. discriminate H.
  - reflexivity.
  - constructor.
  - vm_compute; reflexivity.
  - repeat constructor. exists 4. split; [vm_compute; reflexivity | lia].
  - exists (Some (<["id" := VStr "b"]> (song "Yesterday" "The Beatles" "Help!"))).
    split; [left; reflexivity | vm_compute; reflexivity].
Qed.

(** C10: with a [null] original every candidate scores 0, nothing is
    raised and no candidate is returned. *)
Theorem findBestMatch_null_original (c : option obj) (cs : list (option obj)) :
  findBestMatch None (Some (c :: cs)) = Ok None.
Proof.
  unfold findBestMatch. cbn [length Nat.eqb].
  rewrite (for_of_keep None (c :: cs) (None, 0)); [reflexivity|].
  apply Forall_forall. intros c' _. exists 0. split; [reflexivity | simpl; lia].
Qed.

(** ** The scorer: normal forms, exceptions and the threshold *)

Lemma normalize_list (s : string) :
  normalize (VStr s)
  = Ok (string_of_list_ascii
          (Spec.trimmed (List.filter Spec.word_or_space
                           (map lower_char (list_ascii_of_string s))))).
Proof.
  simpl. f_equal.
  set (r := trim _).
  assert (Hr : (if String.eqb r EmptyString then EmptyString else r) = r).
  { destruct (String.eqb_spec r EmptyString) as [->|]; reflexivity. }
  rewrite Hr. subst r.
  rewrite <- (string_of_list_ascii_of_string (trim _)).
  f_equal.
  rewrite trim_list, remove_all_list, toLowerCase_list. f_equal.
  apply List.filter_ext. exact word_or_space_bracket.
Qed.

Lemma drop_spaces_fix (l : list ascii) :
  match l with c :: _ => is_space c = false | [] => True end ->
  Spec.drop_spaces l = l.
Proof. destruct l as [|c l]; simpl; [reflexivity|]. now intros ->. Qed.

Lemma drop_spaces_head (l : list ascii) :
  match Spec.drop_spaces l with c :: _ => is_space c = false | [] => True end.
Proof.
  induction l as [|c l IH]; simpl; [exact I|].
  destruct (is_space c) eqn:E; [exact IH | exact E].
Qed.

Lemma drop_spaces_suffix (l : list ascii) : exists p, l = p ++ Spec.drop_spaces l.
Proof.
  induction l as [|c l [p IH]]; simpl; [now exists []|].
  destruct (is_space c); [|now exists []].
  exists (c :: p). simpl. now f_equal.
Qed.

Lemma trimmed_idem (l : list ascii) : Spec.trimmed (Spec.trimmed l) = Spec.trimmed l.
Proof.
  unfold Spec.trimmed.
  pose proof (drop_spaces_head l) as Hy.
  set (y := Spec.drop_spaces l) in *.
  pose proof (drop_spaces_head (rev y)) as Hz.
  destruct (drop_spaces_suffix (rev y)) as [p Hp].
  set (z := Spec.drop_spaces (rev y)) in *.
  assert (Hrz : Spec.drop_spaces (rev z) = rev z).
  { apply drop_spaces_fix.
    assert (E : y = rev z ++ rev p).
    { rewrite <- rev_app_distr, <- Hp, rev_involutive. reflexivity. }
    destruct (rev z) as [|c t]; [exact I|].
    rewrite E in Hy. exact Hy. }
  rewrite Hrz, rev_involutive.
  f_equal. apply drop_spaces_fix. exact Hz.
Qed.

Lemma trimmed_Forall (P : ascii -> Prop) (l : list ascii) :
  Forall P l -> Forall P (Spec.trimmed l).
Proof.
  assert (D : forall l, Forall P l -> Forall P (Spec.drop_spaces l)).
  { intros l0 H. destruct (drop_spaces_suffix l0) as [p Hp].
    rewrite Hp in H. apply Forall_app in H. tauto. }
  intros H. unfold Spec.trimmed.
  apply Forall_rev, D, Forall_rev, D, H.
Qed.

Lemma lower_char_idem (c : ascii) : lower_char (lower_char c) = lower_char c.
Proof. destruct c as [[] [] [] [] [] [] [] []]; reflexivity. Qed.

Lemma map_fixed {A} (f : A -> A) (l : list A) :
  Forall (fun x => f x = x) l -> map f l = l.
Proof. induction 1 as [|x l Hx _ IH]; simpl; [|rewrite Hx, IH]; reflexivity. Qed.

Lemma filter_all {A} (p : A -> bool) (l : list A) :
  Forall (fun x => p x = true) l -> List.filter p l = l.
Proof. induction 1 as [|x l Hx _ IH]; simpl; [|rewrite Hx, IH]; reflexivity. Qed.

Lemma normalize_normal (s r : string) :
  normalize (VStr s) = Ok r -> normalize (VStr r) = Ok r.
Proof.
  rewrite (normalize_list s). intros [= <-].
  set (T := Spec.trimmed _).
  rewrite normalize_list, list_ascii_of_string_of_list_ascii. f_equal. f_equal.
  assert (HT : Forall (fun c => lower_char c = c /\ Spec.word_or_space c = true) T).
  { apply trimmed_Forall, List.Forall_forall. intros c Hc.
    apply List.filter_In in Hc. destruct Hc as [Hc Hk].
    apply in_map_iff in Hc. destruct Hc as (c0 & <- & _).
    split; [apply lower_char_idem | exact Hk]. }
  rewrite map_fixed by (eapply List.Forall_impl; [|exact HT]; simpl; tauto).
  rewrite filter_all by (eapply List.Forall_impl; [|exact HT]; simpl; tauto).
  apply trimmed_idem.
Qed.

(** X1: [normalize] is idempotent: the normalized form of a string is
    its own normalized form. *)
Theorem normalize_idempotent (s r : string) :
  normalize (VStr s) = Ok r -> normalize (VStr r) = Ok r.
Proof. apply normalize_normal. Qed.

Lemma normalize_idempotent_witness :
  normalize (VStr "  Don't Stop Me Now!  ") = Ok "dont stop me now"
  /\ normalize (VStr "dont stop me now") = Ok "dont stop me now".
Proof.
  split; [reflexivity|].
  apply (normalize_idempotent "  Don't Stop Me Now!  " "dont stop me now"). reflexivity.
Defined.

Lemma get_insert (o : obj) (k k' : string) (v : value) :
  get (<[k := v]> o) k' = if decide (k = k') then v else get o k'.
Proof.
  unfold get. destruct (decide (k = k')) as [->|Hne].
  - now rewrite lookup_insert_eq.
  - now rewrite lookup_insert_ne.
Qed.

Lemma normalize_insert (a : obj) (k s r k' : string) :
  a !! k = Some (VStr s) -> normalize (VStr s) = Ok r ->
  normalize (get (<[k := VStr r]> a) k') = normalize (get a k').
Proof.
  intros Hk Hr. rewrite get_insert. destruct (decide (k = k')) as [<-|]; [|reflexivity].
  unfold get. rewrite Hk. simpl default. rewrite Hr. exact (normalize_normal s r Hr).
Qed.

(** X2: a score depends on a field only through its normalized text:
    replacing a string field of a record by its normalized form changes
    no score of that record, on either side of the comparison. *)
Theorem calculateSongScore_normalized_field (a : obj) (b : option obj) (k s r : string) :
  a !! k = Some (VStr s) -> normalize (VStr s) = Ok r ->
  calculateSongScore (Some (<[k := VStr r]> a)) b = calculateSongScore (Some a) b
  /\ calculateSongScore b (Some (<[k := VStr r]> a)) = calculateSongScore b (Some a).
Proof.
  intros Hk Hr. pose proof (normalize_insert a k s r) as H.
  split; destruct b as [b|]; try reflexivity; unfold calculateSongScore;
    rewrite !(fun k' => H k' Hk Hr); reflexivity.
Qed.

Lemma calculateSongScore_normalized_field_witness :
  let a := song "Hey Jude!" "The Beatles" "1" in
  let b := Some (song "Hey Jude (Remastered)" "Beatles" "1") in
  calculateSongScore (Some (<["name" := VStr "hey jude"]> a)) b = calculateSongScore (Some a) b
  /\ calculateSongScore b (Some (<["name" := VStr "hey jude"]> a)) = calculateSongScore b (Some a).
Proof.
  apply (calculateSongScore_normalized_field _ _ "name" "Hey Jude!" "hey jude"); reflexivity.
Defined.

Lemma compareTwoStrings_spaces (a b : string) :
  remove_all (Any [ClassSpace]) a = remove_all (Any [ClassSpace]) b ->
  compareTwoStrings a b = lit_1.
Proof. intros H. unfold compareTwoStrings. rewrite H, String.eqb_refl. reflexivity. Qed.

(** X3: two records whose three fields agree after normalization, white
    space inside the text apart, score 100; a field may be absent on one
    side and empty, or all punctuation, on the other. *)
Theorem calculateSongScore_equal_normalized (a b : obj) (t t' r r' l l' : string) :
  normalize (get a "name") = Ok t -> normalize (get b "name") = Ok t' ->
  normalize (get a "artist") = Ok r -> normalize (get b "artist") = Ok r' ->
  normalize (get a "album") = Ok l -> normalize (get b "album") = Ok l' ->
  remove_all (Any [ClassSpace]) t = remove_all (Any [ClassSpace]) t' ->
  remove_all (Any [ClassSpace]) r = remove_all (Any [ClassSpace]) r' ->
  remove_all (Any [ClassSpace]) l = remove_all (Any [ClassSpace]) l' ->
  calculateSongScore (Some a) (Some b) = Ok 100.
Proof.
  intros Ht Ht' Hr Hr' Hl Hl' Et Er El. unfold calculateSongScore.
  rewrite Ht, Ht', Hr, Hr', Hl, Hl'. cbn [mbind result_bind].
  rewrite (compareTwoStrings_spaces _ _ Et), (compareTwoStrings_spaces _ _ Er),
    (compareTwoStrings_spaces _ _ El).
  reflexivity.
Qed.

Lemma calculateSongScore_equal_normalized_witness :
  calculateSongScore (Some {[ "name" := VStr "Hey Jude"; "artist" := VStr "The Beatles" ]})
    (Some (song "HEY, JUDE!" " the beatles " "?")) = Ok 100
  /\ calculateSongScore (Some {[ "name" := VStr "Hey Jude"; "artist" := VStr "The Beatles" ]})
       (Some (song "heyjude" "TheBeatles" "")) = Ok 100.
Proof.
  split.
  - apply (calculateSongScore_equal_normalized _ _ "hey jude" "hey jude"
             "the beatles" "the beatles" "" ""); reflexivity.
  - apply (calculateSongScore_equal_normalized _ _ "hey jude" "heyjude"
             "the beatles" "thebeatles" "" ""); reflexivity.
Defined.

Lemma normalize_raises (v : value) :
  normalize v = if raises v then Throw TypeError
                else Ok (match normalize v with Ok r => r | Throw _ => EmptyString end).
Proof. destruct v; reflexivity. Qed.

(** X4: on two records the scorer raises a [TypeError] whenever one of
    the six fields it reads holds a boolean or a number, and returns a
    score whenever each of the six is [undefined], [null] or a
    string. *)
Theorem calculateSongScore_raises (a b : obj) :
  (Exists (fun k => raises (get a k) = true \/ raises (get b k) = true) compared_fields ->
   calculateSongScore (Some a) (Some b) = Throw TypeError)
  /\ (Forall (fun k => accepted (get a k) = true /\ accepted (get b k) = true)
        compared_fields ->
      exists score, calculateSongScore (Some a) (Some b) = Ok score).
Proof.
  unfold calculateSongScore, compared_fields.
  rewrite (normalize_raises (get a "name")), (normalize_raises (get a "artist")),
    (normalize_raises (get a "album")), (normalize_raises (get b "name")),
    (normalize_raises (get b "artist")), (normalize_raises (get b "album")).
  split.
  - intros H. rewrite !Exists_cons, Exists_nil in H.
    destruct (raises (get a "name")), (raises (get a "artist")), (raises (get a "album")),
      (raises (get b "name")), (raises (get b "artist")), (raises (get b "album"));
      cbn [mbind result_bind]; try reflexivity;
      exfalso; intuition discriminate.
  - intros H. rewrite !Forall_cons, Forall_nil in H.
    destruct H as ((A1 & B1) & (A2 & B2) & (A3 & B3) & _).
    destruct (get a "name"), (get a "artist"), (get a "album"); try discriminate;
      destruct (get b "name"), (get b "artist"), (get b "album"); try discriminate;
      cbn [raises mbind result_bind]; eauto.
Qed.

Lemma calculateSongScore_raises_witness :
  calculateSongScore (Some (song "Imagine" "John Lennon" "Imagine"))
    (Some (<["album" := VNum 1971]> (song "Imagine" "John Lennon" "Imagine")))
  = Throw TypeError
  /\ exists score,
       calculateSongScore (Some (song "Imagine" "John Lennon" "Imagine"))
         (Some (<["album" := VNull]> (song "Imagine" "John Lennon" "Imagine")))
       = Ok score.
Proof.
  split.
  - apply (calculateSongScore_raises (song "Imagine" "John Lennon" "Imagine")
             (<["album" := VNum 1971]> (song "Imagine" "John Lennon" "Imagine"))).
    unfold compared_fields. do 2 apply Exists_cons_tl. apply Exists_cons_hd.
    right. reflexivity.
  - apply (calculateSongScore_raises (song "Imagine" "John Lennon" "Imagine")
             (<["album" := VNull]> (song "Imagine" "John Lennon" "Imagine"))).
    unfold compared_fields. repeat constructor.
Defined.

Lemma for_of_result (originalSong : option obj) (l : list (option obj)) (st st' : best) :
  for_of originalSong l st = Ok st' ->
  st' = st
  \/ exists c m, In c l /\ scored originalSong c m /\ st.2 < m
                 /\ st' = (Some (with_matchScore c m), m).
Proof.
  revert st. induction l as [|c l IH]; intros st; simpl.
  - intros [= <-]. now left.
  - unfold visit. destruct (calculateSongScore originalSong c) as [s|e] eqn:Hs;
      cbn [mbind result_bind]; [|discriminate].
    destruct (Z.ltb_spec st.2 s) as [Hlt|Hge]; cbn [mbind result_bind]; intros H.
    + apply IH in H. right. destruct H as [->|(c' & m & Hin & Hc' & Hm & ->)].
      * exists c, s. auto.
      * exists c', m. simpl in Hm. repeat split; auto. lia.
    + apply IH in H. destruct H as [->|(c' & m & Hin & Hc' & Hm & ->)]; [now left|].
      right. exists c', m. auto.
Qed.

Lemma scored_none (originalSong : option obj) (m : Z) :
  calculateSongScore originalSong None = Ok m -> m = 0.
Proof. destruct originalSong; simpl; congruence. Qed.

Lemma scored_none_l (c : option obj) (m : Z) :
  calculateSongScore None c = Ok m -> m = 0.
Proof. simpl; congruence. Qed.

(** X5: what [findBestMatch] returns, when it returns a record: one of
    the candidates, with its score of at least 60 under [matchScore];
    the original and the candidate are records, not [null]; and the
    label [getConfidenceLevel] gives that score, as [convertMusicLink]
    does, never carries the low-confidence mark. *)
Theorem findBestMatch_result (originalSong : option obj)
  (candidates : option (list (option obj))) (bestMatch : obj) :
  findBestMatch originalSong candidates = Ok (Some bestMatch) ->
  exists (original candidate : obj) (cs : list (option obj)) (score : Z),
    originalSong = Some original
    /\ candidates = Some cs
    /\ In (Some candidate) cs
    /\ calculateSongScore originalSong (Some candidate) = Ok score
    /\ 60 <= score
    /\ bestMatch = <["matchScore" := VNum score]> candidate
    /\ get bestMatch "matchScore" = VNum score
    /\ getConfidenceLevel score
       = if 98 <=? score then "Exact match" else show score +:+ "% match".
Proof.
  unfold findBestMatch. destruct candidates as [cs|]; [|discriminate].
  destruct (length cs =? 0)%nat; [discriminate|].
  destruct (for_of originalSong cs (None, 0)) as [st|e] eqn:Hf;
    cbn [mbind result_bind]; [|discriminate].
  destruct (Z.leb_spec 60 st.2) as [H60|]; [|discriminate].
  intros [= Hst].
  apply for_of_result in Hf. destruct Hf as [->|(c & m & Hin & Hc & _ & ->)]; [simpl in H60; lia|].
  simpl in H60, Hst. injection Hst as Hst.
  destruct originalSong as [original|]; [|apply scored_none_l in Hc; lia].
  destruct c as [candidate|]; [|apply scored_none in Hc; lia].
  exists original, candidate, cs, m. subst bestMatch. unfold with_matchScore. simpl default.
  repeat split; auto.
  - unfold get. now rewrite lookup_insert_eq.
  - unfold getConfidenceLevel.
    destruct (98 <=? m); [reflexivity|]. destruct (90 <=? m); [reflexivity|].
    destruct (80 <=? m); [reflexivity|].
    destruct (Z.leb_spec 60 m); [reflexivity | lia].
Qed.

Lemma findBestMatch_result_witness :
  exists (original candidate : obj) (cs : list (option obj)) (score : Z),
    Some (song "Imagine" "John Lennon" "Imagine") = Some original
    /\ Some [Some (song "Yesterday" "The Beatles" "Help!");
             Some (song "Imagine" "John Lennon" "The John Lennon Collection")] = Some cs
    /\ In (Some candidate) cs
    /\ calculateSongScore (Some (song "Imagine" "John Lennon" "Imagine")) (Some candidate)
       = Ok score
    /\ 60 <= score
    /\ <["matchScore" := VNum 80]> (song "Imagine" "John Lennon" "The John Lennon Collection")
       = <["matchScore" := VNum score]> candidate
    /\ get (<["matchScore" := VNum 80]>
              (song "Imagine" "John Lennon" "The John Lennon Collection")) "matchScore"
       = VNum score
    /\ getConfidenceLevel score
       = if 98 <=? score then "Exact match" else show score +:+ "% match".
Proof.
  apply (findBestMatch_result (Some (song "Imagine" "John Lennon" "Imagine"))
           (Some [Some (song "Yesterday" "The Beatles" "Help!");
                  Some (song "Imagine" "John Lennon" "The John Lennon Collection")])).
  vm_compute. reflexivity.
Defined.

Lemma for_of_raises (originalSong : option obj) (l : list (option obj)) (st : best) (e : exn) :
  for_of originalSong l st = Throw e
  <-> exists c, In c l /\ calculateSongScore originalSong c = Throw e.
Proof.
  revert st. induction l as [|c l IH]; intros st; simpl.
  - split; [discriminate | intros (c & H & _); destruct H].
  - unfold visit. destruct (calculateSongScore originalSong c) as [s|e'] eqn:Hs;
      cbn [mbind result_bind].
    + destruct (st.2 <? s); cbn [mbind result_bind]; rewrite IH;
        (split; [intros (c' & Hin & Hc'); eauto
                | intros (c' & [<-|Hin] & Hc'); [congruence | eauto]]).
    + destruct e, e'. split; [intros _; eauto | reflexivity].
Qed.

(** X6: [findBestMatch] scores every candidate and catches nothing: it
    raises exactly when the scorer raises on one of the candidates,
    wherever that candidate stands and however well another one
    matches. *)
Theorem findBestMatch_raises (originalSong : option obj) (cs : list (option obj)) :
  findBestMatch originalSong (Some cs) = Throw TypeError
  <-> exists c, In c cs /\ calculateSongScore originalSong c = Throw TypeError.
Proof.
  unfold findBestMatch. destruct cs as [|c0 cs].
  - simpl. split; [discriminate | intros (c & H & _); destruct H].
  - cbn [length Nat.eqb]. rewrite <- for_of_raises with (st := (None, 0)).
    destruct (for_of originalSong (c0 :: cs) (None, 0)) as [st|[]]; cbn [mbind result_bind];
      split; congruence.
Qed.

(** X7: a title that shares nothing with the original caps the score at
    60; with the artist and the album agreeing the score is exactly 60,
    which [findBestMatch] accepts: a different song of the same artist
    on the same album is returned as a match. *)
Theorem calculateSongScore_title_mismatch (a b : obj) (t t' r r' l l' : string) :
  normalize (get a "name") = Ok t -> normalize (get b "name") = Ok t' ->
  normalize (get a "artist") = Ok r -> normalize (get b "artist") = Ok r' ->
  normalize (get a "album") = Ok l -> normalize (get b "album") = Ok l' ->
  short r -> short r' -> short l -> short l' ->
  compareTwoStrings t t' = lit_0 ->
  exists score,
    calculateSongScore (Some a) (Some b) = Ok score
    /\ 0 <= score <= 60
    /\ (r = r' -> l = l' ->
        score = 60
        /\ findBestMatch (Some a) (Some [Some b])
           = Ok (Some (<["matchScore" := VNum 60]> b))).
Proof.
  intros Ht Ht' Hr Hr' Hl Hl' Sr Sr' Sl Sl' H0.
  assert (Hs : calculateSongScore (Some a) (Some b)
               = Ok (round (totalScore lit_0 (compareTwoStrings r r') (compareTwoStrings l l')))).
  { unfold calculateSongScore. rewrite Ht, Ht', Hr, Hr', Hl, Hl'. cbn [mbind result_bind].
    now rewrite H0. }
  eexists. split; [exact Hs|]. split.
  - destruct (compareTwoStrings_tame r r' Sr Sr') as [Ta Ua].
    destruct (compareTwoStrings_tame l l' Sl Sl') as [Tl Ul].
    assert (T0 : tame 120 lit_0) by (left; reflexivity).
    assert (U0 : (B2R lit_0 <= 1 + 16 * eps)%R) by (simpl; unfold eps; lra).
    destruct (round_totalScore _ _ _ T0 Ta Tl U0 Ua Ul) as [[Hlo _] Hacc].
    split; [exact Hlo|].
    apply Rabs_le_elim in Hacc. destruct Hacc as [_ A2].
    pose proof (tame_nonneg _ _ Ta) as Na. pose proof (tame_nonneg _ _ Tl) as Nl.
    set (z := round _) in *. change (B2R lit_0) with 0%R in A2.
    unfold eps in *.
    assert (H : (IZR z < IZR 61)%R) by (simpl; lra). apply lt_IZR in H. lia.
  - intros <- <-. rewrite !compareTwoStrings_same in Hs |- *.
    change (round (totalScore lit_0 lit_1 lit_1)) with 60 in Hs |- *.
    split; [reflexivity|].
    unfold findBestMatch, for_of, visit. cbn [length Nat.eqb]. rewrite Hs. reflexivity.
Qed.

Lemma calculateSongScore_title_mismatch_witness :
  let a := song "Yesterday" "The Beatles" "Help!" in
  let b := song "Help!" "The Beatles" "Help!" in
  exists score,
    calculateSongScore (Some a) (Some b) = Ok score
    /\ 0 <= score <= 60
    /\ ("the beatles" = "the beatles" -> "help" = "help" ->
        score = 60
        /\ findBestMatch (Some a) (Some [Some b])
           = Ok (Some (<["matchScore" := VNum 60]> b))).
Proof.
  apply (calculateSongScore_title_mismatch _ _ "yesterday" "help"
           "the beatles" "the beatles" "help" "help");
    try reflexivity; unfold short; simpl; lia.
Defined.

(** ** Links: the tests of the repository *)

Example test_detect_spotify_track :
  Converter.detectMusicLink (VStr "https://open.spotify.com/track/track123")
  = Some {| Converter.platform := "spotify"; Converter.type := "track";
            Converter.id := "track123";
            Converter.originalUrl := "https://open.spotify.com/track/track123" |}.
Proof. evaluate. Qed.

Example test_detect_spotify_album :
  Converter.detectMusicLink (VStr "https://open.spotify.com/album/album123")
  = Some {| Converter.platform := "spotify"; Converter.type := "album";
            Converter.id := "album123";
            Converter.originalUrl := "https://open.spotify.com/album/album123" |}.
Proof. evaluate. Qed.

Example test_detect_invalid :
  Converter.detectMusicLink (VStr "https://youtube.com/watch?v=123") = None
  /\ Converter.detectMusicLink VNull = None
  /\ Converter.detectMusicLink VUndefined = None
  /\ Converter.detectMusicLink (VStr "") = None.
Proof. repeat split; evaluate. Qed.

Example test_apple_extract :
  AppleMusicService.isValidUrl "https://music.apple.com/us/song/test-song/123456" = true
  /\ AppleMusicService.isValidUrl "https://open.spotify.com/track/123456" = false
  /\ AppleMusicService.extractTrackIdFromUrl
       "https://music.apple.com/us/song/test-song/123456" = Some "123456"
  /\ AppleMusicService.extractTrackIdFromUrl
       "https://music.apple.com/us/album/test-album/123456?i=789012" = Some "789012"
  /\ AppleMusicService.extractTrackIdFromUrl
       "https://music.apple.com/us/album/test-album/123456" = None
  /\ AppleMusicService.extractAlbumIdFromUrl
       "https://music.apple.com/us/album/test-album/123456" = Some "123456".
Proof. repeat split; evaluate. Qed.

Example test_extract_links :
  SMBot.extractMusicLinks
    "Check out this song: https://open.spotify.com/track/4iV5W9uYEdYUVa79Axb7Rh"
  = ["https://open.spotify.com/track/4iV5W9uYEdYUVa79Axb7Rh"]
  /\ SMBot.extractMusicLinks
       "Spotify: https://open.spotify.com/track/123 Apple Music: https://music.apple.com/us/song/test/456 Same Spotify: https://open.spotify.com/track/123"
     = ["https://open.spotify.com/track/123"; "https://music.apple.com/us/song/test/456"]
  /\ SMBot.extractMusicLinks "Just a regular message without any links" = []
  /\ SMBot.extractMusicLinks
       "Spotify album: https://open.spotify.com/album/1DFixLWuPkv3KT3TnV35m3 Apple Music album: https://music.apple.com/us/album/test-album/123456"
     = ["https://open.spotify.com/album/1DFixLWuPkv3KT3TnV35m3";
        "https://music.apple.com/us/album/test-album/123456"].
Proof. repeat split; evaluate. Qed.

Example test_spotify_extract :
  SpotifyService.isValidUrl "https://open.spotify.com/track/1234567890" = true
  /\ SpotifyService.isValidUrl "https://spotify.com/album/1234567890" = true
  /\ SpotifyService.isValidUrl "https://music.apple.com/us/song/test/123" = false
  /\ SpotifyService.isValidUrl "https://youtube.com/watch?v=123" = false
  /\ SpotifyService.extractTrackIdFromUrl
       "https://open.spotify.com/track/4iV5W9uYEdYUVa79Axb7Rh" = Some "4iV5W9uYEdYUVa79Axb7Rh"
  /\ SpotifyService.extractTrackIdFromUrl "https://open.spotify.com/album/123" = None
  /\ SpotifyService.extractAlbumIdFromUrl
       "https://open.spotify.com/album/1DFixLWuPkv3KT3TnV35m3" = Some "1DFixLWuPkv3KT3TnV35m3"
  /\ SpotifyService.extractAlbumIdFromUrl "https://open.spotify.com/track/123" = None.
Proof. repeat split; evaluate. Qed.

Example test_spotify_track_data :
  SpotifyService.createSongFromSpotifyTrack
    {| SpotifyService.track_id := VStr "track123";
       SpotifyService.track_name := VStr "Test Track";
       SpotifyService.track_artists := Some [ {| SpotifyService.artist_name := VStr "Test Artist" |} ];
       SpotifyService.track_album :=
         Some {| SpotifyService.album_name := VStr "Test Album";
                 SpotifyService.album_images :=
                   Some [ {| SpotifyService.image_url := VStr "https://example.com/image.jpg" |} ] |};
       SpotifyService.preview_url := VStr "https://example.com/preview.mp3";
       SpotifyService.track_external_urls :=
         Some {| SpotifyService.spotify := VStr "https://open.spotify.com/track/track123" |} |}
  = {[ "id" := VStr "track123"; "name" := VStr "Test Track"; "artist" := VStr "Test Artist";
       "album" := VStr "Test Album"; "imageUrl" := VStr "https://example.com/image.jpg";
       "previewUrl" := VStr "https://example.com/preview.mp3";
       "externalUrl" := VStr "https://open.spotify.com/track/track123";
       "platform" := VStr "spotify" ]}.
Proof. evaluate. Qed.

Example test_spotify_missing_data :
  let song :=
    SpotifyService.createSongFromSpotifyTrack
      {| SpotifyService.track_id := VStr "track123";
         SpotifyService.track_name := VStr "Test Track";
         SpotifyService.track_artists := Some [];
         SpotifyService.track_album :=
           Some {| SpotifyService.album_name := VUndefined;
                   SpotifyService.album_images := None |};
         SpotifyService.preview_url := VUndefined;
         SpotifyService.track_external_urls := None |} in
  get song "artist" = VStr "Unknown Artist"
  /\ get song "album" = VStr "Unknown Album"
  /\ get song "imageUrl" = VNull.
Proof. repeat split; evaluate. Qed.

Example test_apple_track_data :
  AppleMusicService.createSongFromAppleMusicTrack
    {| AppleMusicService.id := VStr "track123";
       AppleMusicService.attributes :=
         Some {| AppleMusicService.name := VStr "Test Track";
                 AppleMusicService.artistName := VStr "Test Artist";
                 AppleMusicService.albumName := VStr "Test Album";
                 AppleMusicService.artwork :=
                   Some {| AppleMusicService.artwork_url :=
                             VStr "https://example.com/{w}x{h}.jpg" |};
                 AppleMusicService.previews :=
                   Some [ {| AppleMusicService.preview_url :=
                               VStr "https://example.com/preview.mp3" |} ];
                 AppleMusicService.url :=
                   VStr "https://music.apple.com/us/song/test-track/track123" |} |}
  = Ok {[ "id" := VStr "track123"; "name" := VStr "Test Track";
          "artist" := VStr "Test Artist"; "album" := VStr "Test Album";
          "imageUrl" := VStr "https://example.com/640x640.jpg";
          "previewUrl" := VStr "https://example.com/preview.mp3";
          "externalUrl" := VStr "https://music.apple.com/us/song/test-track/track123";
          "platform" := VStr "apple_music" ]}.
Proof. evaluate. Qed.

Example test_apple_missing_data :
  AppleMusicService.createSongFromAppleMusicTrack
    {| AppleMusicService.id := VStr "track123";
       AppleMusicService.attributes := Some AppleMusicService.no_attributes |}
  = Ok {[ "id" := VStr "track123"; "name" := VStr "Unknown Track";
          "artist" := VStr "Unknown Artist"; "album" := VStr "Unknown Album";
          "imageUrl" := VNull; "previewUrl" := VNull;
          "externalUrl" := VStr "https://music.apple.com/song/track123";
          "platform" := VStr "apple_music" ]}.
Proof. evaluate. Qed.

(** ** Strings and the matcher *)

Section StringFacts.
Import StringMethods.

Lemma append_cons (c : ascii) (a b : string) : String c a +:+ b = String c (a +:+ b).
Proof. reflexivity. Qed.

Lemma append_nil_l (a : string) : EmptyString +:+ a = a.
Proof. reflexivity. Qed.

Lemma append_assoc (a b c : string) : (a +:+ b) +:+ c = a +:+ (b +:+ c).
Proof.
  induction a as [|x a IH]; [reflexivity|]. rewrite !append_cons, IH. reflexivity.
Qed.

Lemma append_nil_r (a : string) : a +:+ EmptyString = a.
Proof. induction a as [|x a IH]; [reflexivity|]. rewrite append_cons, IH. reflexivity. Qed.

Lemma append_length (a b : string) :
  String.length (a +:+ b) = (String.length a + String.length b)%nat.
Proof.
  induction a as [|x a IH]; [reflexivity|]. rewrite append_cons. simpl. now rewrite IH.
Qed.

Lemma append_nil_inv (a b : string) : a +:+ b = EmptyString -> a = EmptyString.
Proof. destruct a; [reflexivity | discriminate]. Qed.

Lemma strip_prefix_app (p s : string) : strip_prefix p (p +:+ s) = Some s.
Proof.
  induction p as [|a p IH]; [now destruct s|].
  rewrite append_cons. simpl. now rewrite Ascii.eqb_refl.
Qed.

Lemma strip_prefix_spec (p s s' : string) : strip_prefix p s = Some s' -> s = p +:+ s'.
Proof.
  revert s. induction p as [|a p IH]; intros s; simpl.
  - destruct s; intros [= <-]; reflexivity.
  - destruct s as [|b s]; [discriminate|].
    destruct (Ascii.eqb_spec a b) as [<-|]; [|discriminate].
    intros H. apply IH in H. now rewrite H, append_cons.
Qed.

Lemma includes_spec (s sub : string) :
  includes s sub = true <-> exists a b, s = a +:+ sub +:+ b.
Proof.
  split.
  - induction s as [|c s IH]; simpl.
    + destruct (strip_prefix sub EmptyString) as [r|] eqn:E; [|discriminate].
      intros _. exists EmptyString, r. rewrite append_nil_l. now apply strip_prefix_spec.
    + destruct (strip_prefix sub (String c s)) as [r|] eqn:E.
      * intros _. exists EmptyString, r. rewrite append_nil_l. now apply strip_prefix_spec.
      * intros H. destruct (IH H) as (a & b & ->). now exists (String c a), b.
  - intros (a & b & ->). induction a as [|c a IH].
    + rewrite append_nil_l.
      destruct (sub +:+ b) eqn:E; simpl; rewrite <- E, strip_prefix_app; reflexivity.
    + rewrite append_cons. simpl. rewrite IH. now destruct (strip_prefix sub _).
Qed.

Lemma substring_app (t s : string) : substring 0 (String.length t) (t +:+ s) = t.
Proof.
  induction t as [|c t IH]; [now destruct s|]. rewrite append_cons. simpl. now rewrite IH.
Qed.

Lemma taken_app (t s : string) : taken (t +:+ s) s = t.
Proof.
  unfold taken. rewrite append_length.
  replace (String.length t + String.length s - String.length s)%nat
    with (String.length t) by lia.
  apply substring_app.
Qed.

Lemma all_chars_app (p : ascii -> bool) (a b : string) :
  all_chars p (a +:+ b) = all_chars p a && all_chars p b.
Proof.
  induction a as [|c a IH]; [reflexivity|].
  rewrite append_cons. simpl. now rewrite IH, andb_assoc.
Qed.

End StringFacts.

Section MatcherFacts.
Import StringMethods RegExp.

Lemma many_sound {A} (p : ascii -> bool) (k : string -> option A) (s : string) (x : A) :
  many p k s = Some x ->
  exists t s', s = t +:+ s' /\ t <> EmptyString /\ all_chars p t = true /\ k s' = Some x.
Proof.
  induction s as [|c s IH]; simpl; [discriminate|].
  destruct (p c) eqn:Hc; [|discriminate].
  destruct (many p k s) as [y|] eqn:Hm.
  - intros [= <-]. destruct (IH eq_refl) as (t & s' & -> & _ & Ht & Hk).
    exists (String c t), s'. simpl. rewrite Hc, Ht. repeat split; auto; discriminate.
  - intros Hk. exists (String c EmptyString), s. simpl. rewrite Hc.
    repeat split; auto; discriminate.
Qed.

(** A maximal run of the class, followed by a text the rest of the
    pattern accepts. *)
Lemma many_greedy {A} (p : ascii -> bool) (k : string -> option A) (t s : string) (x : A) :
  t <> EmptyString -> all_chars p t = true -> stops p s = true -> k s = Some x ->
  many p k (t +:+ s) = Some x.
Proof.
  intros Hne Ht Hs Hk. induction t as [|c t IH]; [congruence|].
  simpl in Ht. apply andb_true_iff in Ht. destruct Ht as [Hc Ht].
  rewrite append_cons. simpl. rewrite Hc.
  destruct t as [|c' t].
  - rewrite append_nil_l. assert (Hm : many p k s = None).
    { destruct s as [|d s]; simpl; [reflexivity|]. simpl in Hs.
      now destruct (p d). }
    now rewrite Hm.
  - rewrite IH; [reflexivity | discriminate | exact Ht].
Qed.

Lemma run_sound {A} (r : regex) :
  forall (s : string) (caps : captures) (k : string -> captures -> option A) (x : A),
    run r s caps k = Some x ->
    exists t s' caps', s = t +:+ s' /\ denotes r t caps caps' /\ k s' caps' = Some x.
Proof.
  induction r as [l|c|r IH|n r IH|r1 IH1 r2 IH2]; intros s caps k x; simpl.
  - destruct (strip_prefix l s) as [s'|] eqn:E; [|discriminate].
    intros Hk. exists l, s', caps. split; [now apply strip_prefix_spec | auto].
  - intros H. apply many_sound in H. destruct H as (t & s' & -> & Hne & Ht & Hk).
    exists t, s', caps. auto.
  - destruct (run r s caps _) as [y|] eqn:E.
    + intros [= <-]. apply IH in E. destruct E as (t & s' & caps' & -> & Hd & Hk).
      destruct (Nat.eqb_spec (String.length s') (String.length (t +:+ s'))) as [Hl|Hl];
        [discriminate|].
      exists t, s', caps'. split; [reflexivity|]. split; [|exact Hk].
      right. split; [|exact Hd]. intros ->. now apply Hl.
    + intros Hk. exists EmptyString, s, caps. split; [reflexivity|]. split; [|exact Hk].
      now left.
  - intros H. apply IH in H. destruct H as (t & s' & caps' & -> & Hd & Hk).
    rewrite taken_app in Hk. exists t, s', (<[n := t]> caps'). eauto.
  - intros H. apply IH1 in H. destruct H as (t1 & s1 & c1 & -> & Hd1 & H).
    apply IH2 in H. destruct H as (t2 & s2 & c2 & -> & Hd2 & Hk).
    exists (t1 +:+ t2), s2, c2. split; [now rewrite append_assoc|]. split; [|exact Hk].
    exists t1, t2, c1. auto.
Qed.

Lemma run_top (r : regex) (s s' : string) (caps : captures) :
  run r s ∅ (fun s' caps => Some (s', caps)) = Some (s', caps) ->
  s = taken s s' +:+ s' /\ denotes r (taken s s') ∅ caps.
Proof.
  intros E. apply run_sound in E. destruct E as (t & s1 & caps' & -> & Hd & [= <- <-]).
  rewrite taken_app. auto.
Qed.

Lemma run_top_text (r : regex) (s s' : string) :
  run r s ∅ (fun s' _ => Some s') = Some s' ->
  exists caps, s = taken s s' +:+ s' /\ denotes r (taken s s') ∅ caps.
Proof.
  intros E. apply run_sound in E. destruct E as (t & s1 & caps' & -> & Hd & [= <-]).
  rewrite taken_app. eauto.
Qed.

Lemma search_sound (r : regex) (s : string) (i : nat) (m : match_result) :
  search r s i = Some m ->
  exists a b, s = a +:+ whole m +:+ b /\ denotes r (whole m) ∅ (groups m).
Proof.
  revert i. induction s as [|c s IH]; intros i; simpl.
  - destruct (run r EmptyString ∅ _) as [[s' caps]|] eqn:E; [|discriminate].
    intros [= <-]. simpl. apply run_top in E. exists EmptyString, s'.
    rewrite append_nil_l. exact E.
  - destruct (run r (String c s) ∅ _) as [[s' caps]|] eqn:E.
    + intros [= <-]. simpl. apply run_top in E. exists EmptyString, s'.
      rewrite append_nil_l. exact E.
    + intros H. apply IH in H. destruct H as (a & b & -> & Hd).
      exists (String c a), b. auto.
Qed.

Lemma scan_sound (r : regex) (s : string) :
  forall (skip : nat) (t : string),
    In t (scan r s skip) ->
    exists a b caps, s = a +:+ t +:+ b /\ denotes r t ∅ caps.
Proof.
  induction s as [|c s IH]; intros skip t.
  - destruct skip as [|n]; simpl; [|tauto].
    destruct (run r EmptyString ∅ _) as [rest|] eqn:E; [|simpl; tauto].
    intros [<-|[]]. apply run_top_text in E. destruct E as (caps & E).
    exists EmptyString, rest, caps. rewrite append_nil_l. exact E.
  - assert (Hrec : forall n, In t (scan r s n) ->
              exists a b caps, String c s = a +:+ t +:+ b /\ denotes r t ∅ caps).
    { intros n H. apply IH in H. destruct H as (a & b & caps & -> & Hd).
      exists (String c a), b, caps. auto. }
    destruct skip as [|n]; simpl; [|apply Hrec].
    destruct (run r (String c s) ∅ _) as [rest|] eqn:E; [|apply Hrec].
    intros [<-|H]; [|now apply Hrec in H].
    apply run_top_text in E. destruct E as (caps & E).
    exists EmptyString, rest, caps. rewrite append_nil_l. exact E.
Qed.

End MatcherFacts.

(** ** Segments *)

Section SegmentFacts.
Import StringMethods RegExp Segments.

Lemma segs_nonempty (s : string) : segs s <> [].
Proof. destruct s as [|c s]; cbn [segs]; [|destruct (Ascii.eqb "/" c)]; discriminate. Qed.

Lemma segs_eta (s : string) : hd EmptyString (segs s) :: tl (segs s) = segs s.
Proof. pose proof (segs_nonempty s). now destruct (segs s). Qed.

Lemma segs_app_slash (x y : string) : segs (x +:+ String "/" y) = segs x ++ segs y.
Proof.
  induction x as [|c x IH]; [reflexivity|].
  rewrite append_cons. cbn [segs]. rewrite IH.
  destruct (Ascii.eqb "/" c); [reflexivity|].
  pose proof (segs_nonempty x). destruct (segs x); [congruence | reflexivity].
Qed.

Lemma no_slash_has (c : ascii) :
  class_has AppleMusicService.no_slash c = negb (Ascii.eqb "/" c).
Proof. simpl. now rewrite orb_false_r. Qed.

Lemma segs_free (x : string) :
  all_chars (class_has AppleMusicService.no_slash) x = true -> segs x = [x].
Proof.
  induction x as [|c x IH]; [reflexivity|].
  cbn [all_chars]. rewrite no_slash_has. intros H. apply andb_true_iff in H.
  destruct H as [Hc Hx]. cbn [segs]. destruct (Ascii.eqb "/" c); [discriminate|].
  now rewrite (IH Hx).
Qed.

(** The last segment takes what follows without a slash. *)
Lemma segs_app_free (a w : string) :
  all_chars (class_has AppleMusicService.no_slash) w = true ->
  exists P l, segs (a +:+ w) = P ++ [l +:+ w].
Proof.
  intros Hw. induction a as [|c a (P & l & IH)].
  - exists [], EmptyString. rewrite !append_nil_l. now apply segs_free.
  - rewrite append_cons. cbn [segs]. rewrite IH. destruct (Ascii.eqb "/" c).
    + now exists (EmptyString :: P), l.
    + destruct P as [|p P]; simpl.
      * now exists [], (String c l).
      * now exists (String c p :: P), l.
Qed.

Lemma join_segs (s : string) : join (segs s) = s.
Proof.
  induction s as [|c s IH]; [reflexivity|]. cbn [segs].
  pose proof (segs_nonempty s) as Hne.
  destruct (Ascii.eqb_spec "/" c) as [<-|_].
  - simpl. destruct (segs s) as [|x l] eqn:E; [congruence|]. now rewrite IH.
  - destruct (segs s) as [|x l] eqn:E; [congruence|]. simpl in *.
    destruct l; [now rewrite IH | now rewrite <- IH].
Qed.

Lemma segs_single (s w : string) : segs s = [w] -> s = w.
Proof. intros H. rewrite <- (join_segs s), H. reflexivity. Qed.

Lemma substring_skip (a w : string) :
  substring (String.length a) (String.length w) (a +:+ w) = w.
Proof.
  induction a as [|c a IH]; [|exact IH].
  rewrite append_nil_l. cbn [String.length].
  induction w as [|d w IHw]; [reflexivity|]. simpl. now rewrite IHw.
Qed.

Lemma ends_with_app (a w : string) : ends_with (a +:+ w) w = true.
Proof.
  unfold ends_with. rewrite append_length.
  replace (String.length a + String.length w - String.length w)%nat
    with (String.length a) by lia.
  rewrite substring_skip. apply String.eqb_refl.
Qed.

Lemma ends_with_false (a w s : string) : ends_with s w = false -> a +:+ w <> s.
Proof. intros H <-. rewrite ends_with_app in H. discriminate. Qed.

End SegmentFacts.

(** ** The extractors of the two services *)

Section ExtractorFacts.
Import StringMethods RegExp Segments Links.

Lemma alnum_no_slash (c : ascii) :
  class_has SpotifyService.alnum c = true -> class_has AppleMusicService.no_slash c = true.
Proof. destruct c as [[] [] [] [] [] [] [] []]; vm_compute; congruence. Qed.

Lemma digit_no_slash (c : ascii) :
  class_has AppleMusicService.digit c = true -> class_has AppleMusicService.no_slash c = true.
Proof. destruct c as [[] [] [] [] [] [] [] []]; vm_compute; congruence. Qed.

Lemma digit_alnum (c : ascii) :
  class_has AppleMusicService.digit c = true -> class_has SpotifyService.alnum c = true.
Proof. destruct c as [[] [] [] [] [] [] [] []]; vm_compute; congruence. Qed.

Lemma all_chars_impl (p q : ascii -> bool) (s : string) :
  (forall c, p c = true -> q c = true) -> all_chars p s = true -> all_chars q s = true.
Proof.
  intros Hpq. induction s as [|c s IH]; [reflexivity|]. simpl.
  rewrite !andb_true_iff. intros [Hc Hs]. auto.
Qed.

Lemma search_skip (r : regex) (c : ascii) (s : string) (i : nat) :
  run r (String c s) ∅ (fun s' caps => Some (s', caps)) = None ->
  search r (String c s) i = search r s (S i).
Proof. intros H. simpl. now rewrite H. Qed.

Lemma search_hit (r : regex) (s s' : string) (caps : captures) (i : nat) :
  run r s ∅ (fun s' caps => Some (s', caps)) = Some (s', caps) ->
  search r s i = Some {| index := i; whole := taken s s'; groups := caps |}.
Proof. intros H. destruct s; simpl; now rewrite H. Qed.

End ExtractorFacts.

(** The pattern is run on a text whose literal parts are written out. *)
Ltac run_pattern :=
  cbn [RegExp.run]; simpl StringMethods.strip_prefix; cbv beta iota;
  lazymatch goal with
  | |- RegExp.many _ _ (_ +:+ _) = Some _ =>
      apply many_greedy;
      [assumption | assumption | first [assumption | reflexivity] | run_pattern]
  | |- Some _ = Some _ => reflexivity
  end.

Ltac find_match :=
  rewrite ?append_cons, ?append_nil_l;
  repeat (rewrite search_skip by reflexivity);
  erewrite search_hit; [|run_pattern].

Section ExtractorRoundTrips.
Import StringMethods RegExp Segments Links.

Lemma spotify_track_found (secure open : bool) (id rest : string) :
  id <> EmptyString -> all_chars (class_has SpotifyService.alnum) id = true ->
  stops (class_has SpotifyService.alnum) rest = true ->
  SpotifyService.extractTrackIdFromUrl (spotify_url secure open "track" id rest) = Some id.
Proof.
  intros Hne Hid Hrest.
  unfold SpotifyService.extractTrackIdFromUrl, exec, SpotifyService.trackRegex, spotify_url,
    scheme.
  destruct secure, open; find_match; cbn [groups];
    now rewrite lookup_insert_eq, taken_app.
Qed.

Lemma spotify_album_found (secure open : bool) (id rest : string) :
  id <> EmptyString -> all_chars (class_has SpotifyService.alnum) id = true ->
  stops (class_has SpotifyService.alnum) rest = true ->
  SpotifyService.extractAlbumIdFromUrl (spotify_url secure open "album" id rest) = Some id.
Proof.
  intros Hne Hid Hrest.
  unfold SpotifyService.extractAlbumIdFromUrl, exec, SpotifyService.albumRegex, spotify_url,
    scheme.
  destruct secure, open; find_match; cbn [groups];
    now rewrite lookup_insert_eq, taken_app.
Qed.

Lemma apple_song_found (secure : bool) (storefront name id rest : string) :
  storefront <> EmptyString ->
  all_chars (class_has AppleMusicService.no_slash) storefront = true ->
  name <> EmptyString -> all_chars (class_has AppleMusicService.no_slash) name = true ->
  id <> EmptyString -> all_chars (class_has AppleMusicService.digit) id = true ->
  stops (class_has AppleMusicService.digit) rest = true ->
  exists m,
    exec AppleMusicService.songRegex (apple_url secure storefront "song" name (id +:+ rest))
    = Some m /\ groups m !! 1%nat = Some id.
Proof.
  intros Hs1 Hs2 Hn1 Hn2 Hi1 Hi2 Hrest.
  unfold exec, AppleMusicService.songRegex, apple_url, scheme.
  destruct secure; find_match; eexists; (split; [reflexivity|]); cbn [groups];
    now rewrite lookup_insert_eq, taken_app.
Qed.

Lemma apple_album_track_found (secure : bool) (storefront name album id rest : string) :
  storefront <> EmptyString ->
  all_chars (class_has AppleMusicService.no_slash) storefront = true ->
  name <> EmptyString -> all_chars (class_has AppleMusicService.no_slash) name = true ->
  album <> EmptyString -> all_chars (class_has AppleMusicService.digit) album = true ->
  id <> EmptyString -> all_chars (class_has AppleMusicService.digit) id = true ->
  stops (class_has AppleMusicService.digit) rest = true ->
  exists m,
    exec AppleMusicService.albumTrackRegex
      (apple_url secure storefront "album" name (album +:+ "?i=" +:+ id +:+ rest))
    = Some m /\ groups m !! 1%nat = Some id.
Proof.
  intros Hs1 Hs2 Hn1 Hn2 Ha1 Ha2 Hi1 Hi2 Hrest.
  unfold exec, AppleMusicService.albumTrackRegex, apple_url, scheme.
  destruct secure; find_match; eexists; (split; [reflexivity|]); cbn [groups];
    now rewrite lookup_insert_eq, taken_app.
Qed.

Lemma apple_album_found (secure : bool) (storefront name album rest : string) :
  storefront <> EmptyString ->
  all_chars (class_has AppleMusicService.no_slash) storefront = true ->
  name <> EmptyString -> all_chars (class_has AppleMusicService.no_slash) name = true ->
  album <> EmptyString -> all_chars (class_has AppleMusicService.digit) album = true ->
  stops (class_has AppleMusicService.digit) rest = true ->
  AppleMusicService.extractAlbumIdFromUrl
    (apple_url secure storefront "album" name (album +:+ rest)) = Some album.
Proof.
  intros Hs1 Hs2 Hn1 Hn2 Ha1 Ha2 Hrest.
  unfold AppleMusicService.extractAlbumIdFromUrl, exec, AppleMusicService.albumRegex,
    apple_url, scheme.
  destruct secure; find_match; cbn [groups];
    now rewrite lookup_insert_eq, taken_app.
Qed.

End ExtractorRoundTrips.

(** ** What a match of the services' patterns looks like *)

Ltac denote :=
  repeat match goal with
  | H : RegExp.denotes (RegExp.Seq _ _) _ _ _ |- _ =>
      let t1 := fresh "t" in let t2 := fresh "t" in let c := fresh "c" in
      let E := fresh "E" in let H1 := fresh "D" in let H2 := fresh "D" in
      destruct H as (t1 & t2 & c & E & H1 & H2)
  | H : RegExp.denotes (RegExp.Lit _) _ _ _ |- _ =>
      let E := fresh "E" in let C := fresh "C" in destruct H as [E C]
  | H : RegExp.denotes (RegExp.Plus _) _ _ _ |- _ =>
      let N := fresh "N" in let K := fresh "K" in let C := fresh "C" in
      destruct H as (N & K & C)
  | H : RegExp.denotes (RegExp.Group _ _) _ _ _ |- _ =>
      let c := fresh "c" in let H1 := fresh "D" in let C := fresh "C" in
      destruct H as (c & H1 & C)
  | H : RegExp.denotes (RegExp.Opt _) _ _ _ |- _ =>
      let E := fresh "E" in let C := fresh "C" in let N := fresh "N" in
      let H1 := fresh "D" in
      destruct H as [[E C]|[N H1]]
  end.

Section MatchShapes.
Import StringMethods RegExp Segments Links.

(** [host/kind/ID] with a capture of the id, as in the two patterns of
    Spotify. *)
Lemma exec_host_kind (lit : string) (k : class) (url : string) (m : match_result) :
  exec (Seq (Lit lit) (Group 1%nat (Plus k))) url = Some m ->
  exists a id b,
    url = a +:+ lit +:+ id +:+ b /\ id <> EmptyString /\ all_chars (class_has k) id = true
    /\ groups m !! 1%nat = Some id.
Proof.
  intros H. apply search_sound in H. destruct H as (a & b & Hu & Hd).
  destruct m as [i w g]. cbn [whole groups] in *. denote. subst.
  rewrite !append_assoc, lookup_insert_eq.
  eexists a, _, b. split; [reflexivity | auto].
Qed.

(** [music.apple.com/storefront/kind/name/ID], the three patterns of
    Apple Music up to the id. *)
Lemma denotes_apple (kind : string) (r : regex) (t : string) (c' : captures) :
  denotes
    (Seq (Lit "music.apple.com/")
       (Seq (Plus AppleMusicService.no_slash)
          (Seq (Lit kind)
             (Seq (Plus AppleMusicService.no_slash) (Seq (Lit "/") r))))) t ∅ c' ->
  exists x y d,
    t = "music.apple.com/" +:+ x +:+ kind +:+ y +:+ "/" +:+ d
    /\ x <> EmptyString /\ all_chars (class_has AppleMusicService.no_slash) x = true
    /\ y <> EmptyString /\ all_chars (class_has AppleMusicService.no_slash) y = true
    /\ denotes r d ∅ c'.
Proof.
  intros H. denote. subst. eexists _, _, _. split; [reflexivity | auto].
Qed.

End MatchShapes.

(** ** Links a pattern does not match *)

Section SegmentShapes.
Import StringMethods RegExp Segments Links.

Lemma segs_two (a host kind rest : string) :
  all_chars (class_has AppleMusicService.no_slash) host = true ->
  all_chars (class_has AppleMusicService.no_slash) kind = true ->
  exists P la,
    segs (a +:+ host +:+ String "/" (kind +:+ String "/" rest))
    = P ++ (la +:+ host) :: kind :: segs rest.
Proof.
  intros Hh Hk. destruct (segs_app_free a host Hh) as (P & la & E).
  exists P, la. rewrite <- append_assoc, !segs_app_slash, E, (segs_free kind Hk).
  rewrite <- app_assoc. reflexivity.
Qed.

Lemma segs_four (a host x kind y rest : string) :
  all_chars (class_has AppleMusicService.no_slash) host = true ->
  all_chars (class_has AppleMusicService.no_slash) x = true ->
  all_chars (class_has AppleMusicService.no_slash) kind = true ->
  all_chars (class_has AppleMusicService.no_slash) y = true ->
  exists P la,
    segs (a +:+ host +:+ String "/" (x +:+ String "/" (kind +:+ String "/"
            (y +:+ String "/" rest))))
    = P ++ (la +:+ host) :: x :: kind :: y :: segs rest.
Proof.
  intros Hh Hx Hk Hy. destruct (segs_app_free a host Hh) as (P & la & E).
  exists P, la.
  rewrite <- append_assoc, !segs_app_slash, E, (segs_free x Hx), (segs_free kind Hk),
    (segs_free y Hy).
  rewrite <- app_assoc. reflexivity.
Qed.

Lemma segs_spotify_url (secure open : bool) (kind id rest : string) :
  all_chars (class_has AppleMusicService.no_slash) kind = true ->
  all_chars (class_has AppleMusicService.no_slash) (id +:+ rest) = true ->
  segs (spotify_url secure open kind id rest)
  = [ if secure then "https:" else "http:"; EmptyString;
      if open then "open.spotify.com" else "spotify.com"; kind; id +:+ rest ].
Proof.
  intros Hk Hi. unfold spotify_url, scheme.
  destruct secure, open; rewrite ?append_cons, ?append_nil_l; cbn;
    rewrite segs_app_slash, (segs_free kind Hk), (segs_free _ Hi); reflexivity.
Qed.

Lemma segs_apple_url (secure : bool) (storefront kind name tail : string) :
  all_chars (class_has AppleMusicService.no_slash) storefront = true ->
  all_chars (class_has AppleMusicService.no_slash) kind = true ->
  all_chars (class_has AppleMusicService.no_slash) name = true ->
  all_chars (class_has AppleMusicService.no_slash) tail = true ->
  segs (apple_url secure storefront kind name tail)
  = [ if secure then "https:" else "http:"; EmptyString; "music.apple.com";
      storefront; kind; name; tail ].
Proof.
  intros Hs Hk Hn Ht. unfold apple_url, scheme.
  destruct secure; rewrite ?append_cons, ?append_nil_l; cbn;
    rewrite !segs_app_slash, (segs_free _ Hs), (segs_free kind Hk), (segs_free _ Hn),
      (segs_free _ Ht); reflexivity.
Qed.

End SegmentShapes.

Ltac absurd_segs :=
  match goal with
  | H : _ +:+ _ = _ |- _ => exfalso; revert H; apply ends_with_false; reflexivity
  | H : _ = _ +:+ _ |- _ =>
      exfalso; symmetry in H; revert H; apply ends_with_false; reflexivity
  | H : Segments.segs _ = [] |- _ => exfalso; exact (segs_nonempty _ H)
  | H : [] = Segments.segs _ |- _ => exfalso; exact (segs_nonempty _ (eq_sym H))
  end.

Ltac split_segs P H :=
  destruct P as [|? [|? [|? [|? [|? [|? [|? [|? P]]]]]]]]; cbn [app] in H; simplify_eq;
  try absurd_segs.

Section NoMatch.
Import StringMethods RegExp Segments Links.

Lemma spotify_track_none_on_apple (secure : bool) (storefront kind name tail : string) :
  kind = "song" \/ kind = "album" ->
  all_chars (class_has AppleMusicService.no_slash) storefront = true ->
  all_chars (class_has AppleMusicService.no_slash) name = true ->
  all_chars (class_has AppleMusicService.no_slash) tail = true ->
  SpotifyService.extractTrackIdFromUrl (apple_url secure storefront kind name tail) = None.
Proof.
  intros Hkind Hs Hn Ht. unfold SpotifyService.extractTrackIdFromUrl.
  destruct (exec _ _) as [m|] eqn:E; [exfalso|reflexivity].
  apply exec_host_kind in E. destruct E as (a & id & b & Hu & _).
  apply (f_equal segs) in Hu.
  rewrite segs_apple_url in Hu by (try assumption; now destruct Hkind as [->| ->]).
  destruct (segs_two a "spotify.com" "track" (id +:+ b) eq_refl eq_refl) as (P & la & HP).
  change (segs (a +:+ "spotify.com/track/" +:+ id +:+ b)
          = P ++ (la +:+ "spotify.com") :: "track" :: segs (id +:+ b)) in HP.
  rewrite HP in Hu. clear HP.
  destruct secure, Hkind as [->| ->]; split_segs P Hu.
Qed.

End NoMatch.

Section NoMatchMore.
Import StringMethods RegExp Segments Links.

Lemma spotify_album_none_on_apple (secure : bool) (storefront kind name tail : string) :
  kind = "song" \/ (kind = "album" /\ ends_with storefront "spotify.com" = false) ->
  all_chars (class_has AppleMusicService.no_slash) storefront = true ->
  all_chars (class_has AppleMusicService.no_slash) name = true ->
  all_chars (class_has AppleMusicService.no_slash) tail = true ->
  SpotifyService.extractAlbumIdFromUrl (apple_url secure storefront kind name tail) = None.
Proof.
  intros Hkind Hs Hn Ht. unfold SpotifyService.extractAlbumIdFromUrl.
  destruct (exec _ _) as [m|] eqn:E; [exfalso|reflexivity].
  apply exec_host_kind in E. destruct E as (a & id & b & Hu & _).
  apply (f_equal segs) in Hu.
  rewrite segs_apple_url in Hu by (try assumption; now destruct Hkind as [->|[-> _]]).
  destruct (segs_two a "spotify.com" "album" (id +:+ b) eq_refl eq_refl) as (P & la & HP).
  change (segs (a +:+ "spotify.com/album/" +:+ id +:+ b)
          = P ++ (la +:+ "spotify.com") :: "album" :: segs (id +:+ b)) in HP.
  rewrite HP in Hu. clear HP.
  destruct secure, Hkind as [->|[-> He]]; split_segs P Hu;
    rewrite ends_with_app in He; discriminate.
Qed.

Lemma spotify_track_none_on_album (secure open : bool) (id rest : string) :
  all_chars (class_has AppleMusicService.no_slash) (id +:+ rest) = true ->
  SpotifyService.extractTrackIdFromUrl (spotify_url secure open "album" id rest) = None.
Proof.
  intros Hi. unfold SpotifyService.extractTrackIdFromUrl.
  destruct (exec _ _) as [m|] eqn:E; [exfalso|reflexivity].
  apply exec_host_kind in E. destruct E as (a & id' & b & Hu & _).
  apply (f_equal segs) in Hu.
  rewrite segs_spotify_url in Hu by (try assumption; reflexivity).
  destruct (segs_two a "spotify.com" "track" (id' +:+ b) eq_refl eq_refl) as (P & la & HP).
  change (segs (a +:+ "spotify.com/track/" +:+ id' +:+ b)
          = P ++ (la +:+ "spotify.com") :: "track" :: segs (id' +:+ b)) in HP.
  rewrite HP in Hu. clear HP.
  destruct secure, open; split_segs P Hu.
Qed.

(** A match of one of the three patterns of Apple Music, in segments. *)
Lemma apple_match_segs (kind : string) (r : regex) (url : string) (m : match_result) :
  all_chars (class_has AppleMusicService.no_slash) kind = true ->
  exec (Seq (Lit "music.apple.com/")
          (Seq (Plus AppleMusicService.no_slash)
             (Seq (Lit (String "/" (kind +:+ "/")))
                (Seq (Plus AppleMusicService.no_slash) (Seq (Lit "/") r))))) url = Some m ->
  exists P la x y d b,
    segs url = P ++ (la +:+ "music.apple.com") :: x :: kind :: y :: segs (d +:+ b)
    /\ denotes r d ∅ (groups m).
Proof.
  intros Hk H. apply search_sound in H. destruct H as (a & b & Hu & Hd).
  apply denotes_apple in Hd. destruct Hd as (x & y & d & Hw & _ & Hx & _ & Hy & Hd).
  rewrite Hw in Hu. rewrite !append_assoc, !append_cons, !append_assoc in Hu.
  destruct (segs_four a "music.apple.com" x kind y (d +:+ b) eq_refl Hx Hk Hy)
    as (P & la & HP).
  exists P, la, x, y, d, b. split; [|exact Hd]. rewrite Hu, <- HP. reflexivity.
Qed.

Lemma apple_song_none_on_album (secure : bool) (storefront name tail : string) :
  all_chars (class_has AppleMusicService.no_slash) storefront = true ->
  all_chars (class_has AppleMusicService.no_slash) name = true ->
  all_chars (class_has AppleMusicService.no_slash) tail = true ->
  exec AppleMusicService.songRegex (apple_url secure storefront "album" name tail) = None.
Proof.
  intros Hs Hn Ht.
  destruct (exec _ _) as [m|] eqn:E; [exfalso|reflexivity].
  apply (apple_match_segs "song") in E; [|reflexivity].
  destruct E as (P & la & x & y & d & b & Hu & _).
  rewrite segs_apple_url in Hu by (try assumption; reflexivity).
  destruct secure; split_segs P Hu.
Qed.

Lemma run_unique (p : ascii -> bool) (t1 : string) :
  forall t2 s1 s2 : string,
    all_chars p t1 = true -> all_chars p t2 = true ->
    stops p s1 = true -> stops p s2 = true ->
    t1 +:+ s1 = t2 +:+ s2 -> t1 = t2 /\ s1 = s2.
Proof.
  induction t1 as [|c t1 IH]; intros t2 s1 s2 H1 H2 S1 S2 E.
  - destruct t2 as [|d t2]; [now rewrite !append_nil_l in E|].
    rewrite append_nil_l, append_cons in E. subst s1. simpl in S1, H2.
    apply andb_true_iff in H2. destruct H2 as [Hd _]. rewrite Hd in S1. discriminate.
  - destruct t2 as [|d t2].
    + rewrite append_nil_l, append_cons in E. subst s2. simpl in S2, H1.
      apply andb_true_iff in H1. destruct H1 as [Hc _]. rewrite Hc in S2. discriminate.
    + rewrite !append_cons in E. injection E as -> E. simpl in H1, H2.
      apply andb_true_iff in H1. apply andb_true_iff in H2.
      destruct (IH t2 s1 s2) as [-> ->]; tauto.
Qed.

Lemma apple_album_track_none (secure : bool) (storefront name album rest : string) :
  all_chars (class_has AppleMusicService.no_slash) storefront = true ->
  all_chars (class_has AppleMusicService.no_slash) name = true ->
  all_chars (class_has AppleMusicService.digit) album = true ->
  all_chars (class_has AppleMusicService.no_slash) rest = true ->
  stops (class_has AppleMusicService.digit) rest = true ->
  strip_prefix "?i=" rest = None ->
  exec AppleMusicService.albumTrackRegex
    (apple_url secure storefront "album" name (album +:+ rest)) = None.
Proof.
  intros Hs Hn Ha Hr Hstop Hq.
  assert (Ht : all_chars (class_has AppleMusicService.no_slash) (album +:+ rest) = true).
  { rewrite all_chars_app, Hr, andb_true_r.
    exact (all_chars_impl _ _ _ digit_no_slash Ha). }
  destruct (exec _ _) as [m|] eqn:E; [exfalso|reflexivity].
  apply (apple_match_segs "album") in E; [|reflexivity].
  destruct E as (P & la & x & y & d & b & Hu & Hd).
  rewrite segs_apple_url in Hu by (try assumption; reflexivity).
  denote. subst.
  destruct secure; split_segs P Hu;
    match goal with
    | H : [_] = segs _ |- _ =>
        symmetry in H; apply segs_single in H; rewrite !append_assoc in H;
        apply run_unique with (p := class_has AppleMusicService.digit) in H;
        [destruct H as [_ <-]; rewrite strip_prefix_app in Hq; discriminate
        | assumption | assumption | reflexivity | assumption]
    end.
Qed.

End NoMatchMore.

(** ** [detectMusicLink] *)

Section ExtractorSoundness.
Import StringMethods RegExp Segments Links.

Lemma spotify_track_sound (url id : string) :
  SpotifyService.extractTrackIdFromUrl url = Some id ->
  id <> EmptyString /\ all_chars (class_has SpotifyService.alnum) id = true
  /\ exists a b, url = a +:+ "spotify.com/track/" +:+ id +:+ b.
Proof.
  unfold SpotifyService.extractTrackIdFromUrl.
  destruct (exec _ _) as [m|] eqn:E; [|discriminate].
  apply exec_host_kind in E. destruct E as (a & id' & b & Hu & Hne & Hid & Hg).
  rewrite Hg. intros [= <-]. eauto.
Qed.

Lemma spotify_album_sound (url id : string) :
  SpotifyService.extractAlbumIdFromUrl url = Some id ->
  id <> EmptyString /\ all_chars (class_has SpotifyService.alnum) id = true
  /\ exists a b, url = a +:+ "spotify.com/album/" +:+ id +:+ b.
Proof.
  unfold SpotifyService.extractAlbumIdFromUrl.
  destruct (exec _ _) as [m|] eqn:E; [|discriminate].
  apply exec_host_kind in E. destruct E as (a & id' & b & Hu & Hne & Hid & Hg).
  rewrite Hg. intros [= <-]. eauto.
Qed.

Lemma apple_song_sound (url : string) (m : match_result) :
  exec AppleMusicService.songRegex url = Some m ->
  exists a x y id b,
    url = a +:+ "music.apple.com/" +:+ x +:+ "/song/" +:+ y +:+ "/" +:+ id +:+ b
    /\ id <> EmptyString /\ all_chars (class_has AppleMusicService.digit) id = true
    /\ groups m !! 1%nat = Some id.
Proof.
  intros H. apply search_sound in H. destruct H as (a & b & Hu & Hd).
  destruct m as [i w g]. cbn [whole groups] in *.
  apply denotes_apple in Hd. destruct Hd as (x & y & d & -> & _ & _ & _ & _ & Hd).
  denote. subst. rewrite !append_assoc, lookup_insert_eq.
  eexists a, x, y, _, b. split; [reflexivity | auto].
Qed.

Lemma apple_album_track_sound (url : string) (m : match_result) :
  exec AppleMusicService.albumTrackRegex url = Some m ->
  exists a x y album id b,
    url = a +:+ "music.apple.com/" +:+ x +:+ "/album/" +:+ y +:+ "/" +:+ album
          +:+ "?i=" +:+ id +:+ b
    /\ id <> EmptyString /\ all_chars (class_has AppleMusicService.digit) id = true
    /\ groups m !! 1%nat = Some id.
Proof.
  intros H. apply search_sound in H. destruct H as (a & b & Hu & Hd).
  destruct m as [i w g]. cbn [whole groups] in *.
  apply denotes_apple in Hd. destruct Hd as (x & y & d & -> & _ & _ & _ & _ & Hd).
  denote. subst. rewrite !append_assoc, lookup_insert_eq.
  eexists a, x, y, _, _, b. split; [reflexivity | auto].
Qed.

Lemma apple_album_sound (url id : string) :
  AppleMusicService.extractAlbumIdFromUrl url = Some id ->
  id <> EmptyString /\ all_chars (class_has AppleMusicService.digit) id = true
  /\ exists a x y b,
       url = a +:+ "music.apple.com/" +:+ x +:+ "/album/" +:+ y +:+ "/" +:+ id +:+ b.
Proof.
  unfold AppleMusicService.extractAlbumIdFromUrl.
  destruct (exec _ _) as [m|] eqn:H; [|discriminate].
  apply search_sound in H. destruct H as (a & b & Hu & Hd).
  destruct m as [i w g]. cbn [whole groups] in *.
  apply denotes_apple in Hd. destruct Hd as (x & y & d & -> & _ & _ & _ & _ & Hd).
  denote. subst. rewrite !append_assoc, lookup_insert_eq. intros [= <-].
  split; [assumption|]. split; [assumption|]. eexists a, x, y, b. reflexivity.
Qed.

Lemma apple_track_sound (url id : string) :
  AppleMusicService.extractTrackIdFromUrl url = Some id ->
  id <> EmptyString /\ all_chars (class_has AppleMusicService.digit) id = true
  /\ exists a b, url = a +:+ "music.apple.com/" +:+ b
                 /\ exists a' b', url = a' +:+ id +:+ b'.
Proof.
  unfold AppleMusicService.extractTrackIdFromUrl.
  destruct (exec AppleMusicService.songRegex url) as [m|] eqn:E1.
  - apply apple_song_sound in E1. destruct E1 as (a & x & y & id' & b & Hu & Hne & Hid & Hg).
    rewrite Hg. intros [= <-]. split; [assumption|]. split; [assumption|].
    eexists a, _. split; [exact Hu|].
    exists (a +:+ "music.apple.com/" +:+ x +:+ "/song/" +:+ y +:+ "/"), b.
    rewrite Hu, !append_assoc. reflexivity.
  - destruct (exec AppleMusicService.albumTrackRegex url) as [m|] eqn:E2; [|discriminate].
    apply apple_album_track_sound in E2.
    destruct E2 as (a & x & y & album & id' & b & Hu & Hne & Hid & Hg).
    rewrite Hg. intros [= <-]. split; [assumption|]. split; [assumption|].
    eexists a, _. split; [exact Hu|].
    exists (a +:+ "music.apple.com/" +:+ x +:+ "/album/" +:+ y +:+ "/" +:+ album +:+ "?i="), b.
    rewrite Hu, !append_assoc. reflexivity.
Qed.

Lemma spotify_valid (url : string) :
  (exists a b, url = a +:+ "spotify.com/" +:+ b) -> SpotifyService.isValidUrl url = true.
Proof.
  intros H. unfold SpotifyService.isValidUrl. apply orb_true_iff. left.
  now apply includes_spec.
Qed.

Lemma apple_valid (url : string) :
  (exists a b, url = a +:+ "music.apple.com/" +:+ b) ->
  AppleMusicService.isValidUrl url = true.
Proof. intros H. now apply includes_spec. Qed.

Lemma truthy_some (o : option string) :
  Converter.truthy o = true -> exists id, o = Some id /\ id <> EmptyString.
Proof.
  destruct o as [[|c s]|]; try discriminate. intros _.
  eexists. split; [reflexivity | discriminate].
Qed.

Lemma truthy_intro (id : string) : id <> EmptyString -> Converter.truthy (Some id) = true.
Proof. destruct id; [congruence | reflexivity]. Qed.

Lemma link_of_none (platform : string) (trackId albumId : option string) (url : string) :
  Converter.truthy trackId = false -> Converter.truthy albumId = false ->
  Converter.link_of platform trackId albumId url = None.
Proof. unfold Converter.link_of. now intros -> ->. Qed.

Lemma spotify_guard (url : string) :
  (if SpotifyService.isValidUrl url then
     Converter.link_of "spotify" (SpotifyService.extractTrackIdFromUrl url)
       (SpotifyService.extractAlbumIdFromUrl url) url
   else None)
  = Converter.link_of "spotify" (SpotifyService.extractTrackIdFromUrl url)
      (SpotifyService.extractAlbumIdFromUrl url) url.
Proof.
  destruct (SpotifyService.isValidUrl url) eqn:V; [reflexivity|]. symmetry.
  apply link_of_none.
  - destruct (Converter.truthy _) eqn:T; [|reflexivity].
    apply truthy_some in T. destruct T as (id & E & _).
    apply spotify_track_sound in E. destruct E as (_ & _ & a & b & ->).
    rewrite spotify_valid in V; [discriminate|]. exists a, ("track/" +:+ id +:+ b). reflexivity.
  - destruct (Converter.truthy _) eqn:T; [|reflexivity].
    apply truthy_some in T. destruct T as (id & E & _).
    apply spotify_album_sound in E. destruct E as (_ & _ & a & b & ->).
    rewrite spotify_valid in V; [discriminate|]. exists a, ("album/" +:+ id +:+ b). reflexivity.
Qed.

Lemma apple_guard (url : string) :
  (if AppleMusicService.isValidUrl url then
     Converter.link_of "apple_music" (AppleMusicService.extractTrackIdFromUrl url)
       (AppleMusicService.extractAlbumIdFromUrl url) url
   else None)
  = Converter.link_of "apple_music" (AppleMusicService.extractTrackIdFromUrl url)
      (AppleMusicService.extractAlbumIdFromUrl url) url.
Proof.
  destruct (AppleMusicService.isValidUrl url) eqn:V; [reflexivity|]. symmetry.
  apply link_of_none.
  - destruct (Converter.truthy _) eqn:T; [|reflexivity].
    apply truthy_some in T. destruct T as (id & E & _).
    apply apple_track_sound in E. destruct E as (_ & _ & a & b & Hu & _).
    rewrite apple_valid in V; [discriminate | eauto].
  - destruct (Converter.truthy _) eqn:T; [|reflexivity].
    apply truthy_some in T. destruct T as (id & E & _).
    apply apple_album_sound in E. destruct E as (_ & _ & a & x & y & b & ->).
    rewrite apple_valid in V; [discriminate | eauto].
Qed.

Lemma detect_patterns (url : string) :
  Converter.detectMusicLink (VStr url)
  = match Converter.link_of "spotify" (SpotifyService.extractTrackIdFromUrl url)
            (SpotifyService.extractAlbumIdFromUrl url) url with
    | Some l => Some l
    | None =>
        Converter.link_of "apple_music" (AppleMusicService.extractTrackIdFromUrl url)
          (AppleMusicService.extractAlbumIdFromUrl url) url
    end.
Proof.
  unfold Converter.detectMusicLink.
  destruct (String.eqb_spec url EmptyString) as [->|_]; [reflexivity|].
  now rewrite spotify_guard, apple_guard.
Qed.

End ExtractorSoundness.

(** ** Links and what they are taken for *)

Section Detection.
Import StringMethods RegExp Segments Links.

(** X8: [detectMusicLink] is decided by the five patterns alone, tried
    in a fixed order: Spotify track, Spotify album, Apple Music song,
    Apple Music album with a track parameter, Apple Music album.  The
    [isValidUrl] tests and the test for an empty string change
    nothing, and a value that is not a string gives [null]. *)
Theorem detectMusicLink_patterns (url : value) :
  Converter.detectMusicLink url
  = match url with
    | VStr url =>
        match Converter.link_of "spotify" (SpotifyService.extractTrackIdFromUrl url)
                (SpotifyService.extractAlbumIdFromUrl url) url with
        | Some l => Some l
        | None =>
            Converter.link_of "apple_music" (AppleMusicService.extractTrackIdFromUrl url)
              (AppleMusicService.extractAlbumIdFromUrl url) url
        end
    | _ => None
    end.
Proof. destruct url; try reflexivity. apply detect_patterns. Qed.

Lemma link_of_some (platform : string) (trackId albumId : option string) (url : string)
  (l : Converter.link) :
  Converter.link_of platform trackId albumId url = Some l ->
  Converter.platform l = platform /\ Converter.originalUrl l = url
  /\ Converter.id l <> EmptyString
  /\ ((Converter.type l = "track" /\ trackId = Some (Converter.id l))
      \/ (Converter.type l = "album" /\ albumId = Some (Converter.id l))).
Proof.
  unfold Converter.link_of.
  destruct (Converter.truthy trackId) eqn:T.
  - apply truthy_some in T. destruct T as (id & -> & Hne). intros [= <-]. simpl.
    repeat split; auto.
  - destruct (Converter.truthy albumId) eqn:T'; [|discriminate].
    apply truthy_some in T'. destruct T' as (id & -> & Hne). intros [= <-]. simpl.
    repeat split; auto.
Qed.

(** X9: a link that [detectMusicLink] returns carries the string it was
    given, the type [track] or [album], and an id that is not empty and
    occurs in that string; the id of a Spotify link consists of letters
    and digits, the id of an Apple Music link of digits, so no id holds
    a slash, a dot or a question mark. *)
Theorem detectMusicLink_sound (url : value) (l : Converter.link) :
  Converter.detectMusicLink url = Some l ->
  url = VStr (Converter.originalUrl l)
  /\ (Converter.type l = "track" \/ Converter.type l = "album")
  /\ Converter.id l <> EmptyString
  /\ (exists a b, Converter.originalUrl l = a +:+ Converter.id l +:+ b)
  /\ all_chars (class_has SpotifyService.alnum) (Converter.id l) = true
  /\ ((Converter.platform l = "spotify"
       /\ exists a b, Converter.originalUrl l
                      = a +:+ "spotify.com/" +:+ Converter.type l +:+ "/"
                        +:+ Converter.id l +:+ b)
      \/ (Converter.platform l = "apple_music"
          /\ all_chars (class_has AppleMusicService.digit) (Converter.id l) = true
          /\ exists a b, Converter.originalUrl l = a +:+ "music.apple.com/" +:+ b)).
Proof.
  destruct url as [| | | |url]; try discriminate. rewrite detect_patterns.
  destruct (Converter.link_of "spotify" _ _ url) as [l'|] eqn:S.
  - intros [= ->]. apply link_of_some in S.
    destruct S as (Hp & Hu & Hne & [[Ht E]|[Ht E]]); rewrite Hu, Ht.
    + apply spotify_track_sound in E. destruct E as (_ & Hid & a & b & E).
      repeat split; auto.
      * exists (a +:+ "spotify.com/track/"), b. now rewrite E, !append_assoc.
      * left. split; [assumption|]. exists a, b. exact E.
    + apply spotify_album_sound in E. destruct E as (_ & Hid & a & b & E).
      repeat split; auto.
      * exists (a +:+ "spotify.com/album/"), b. now rewrite E, !append_assoc.
      * left. split; [assumption|]. exists a, b. exact E.
  - intros A. apply link_of_some in A.
    destruct A as (Hp & Hu & Hne & [[Ht E]|[Ht E]]); rewrite Hu, Ht.
    + apply apple_track_sound in E. destruct E as (_ & Hid & a & b & E & a' & b' & E').
      repeat split; auto.
      * eauto.
      * exact (all_chars_impl _ _ _ digit_alnum Hid).
      * right. eauto.
    + apply apple_album_sound in E. destruct E as (_ & Hid & a & x & y & b & E).
      repeat split; auto.
      * exists (a +:+ "music.apple.com/" +:+ x +:+ "/album/" +:+ y +:+ "/"), b.
        now rewrite E, !append_assoc.
      * exact (all_chars_impl _ _ _ digit_alnum Hid).
      * right. eauto.
Qed.

Lemma detectMusicLink_sound_witness :
  let l := {| Converter.platform := "apple_music"; Converter.type := "track";
              Converter.id := "789012";
              Converter.originalUrl :=
                "https://music.apple.com/us/album/test-album/123456?i=789012" |} in
  VStr "https://music.apple.com/us/album/test-album/123456?i=789012"
  = VStr (Converter.originalUrl l)
  /\ (Converter.type l = "track" \/ Converter.type l = "album")
  /\ Converter.id l <> EmptyString
  /\ (exists a b, Converter.originalUrl l = a +:+ Converter.id l +:+ b)
  /\ all_chars (class_has SpotifyService.alnum) (Converter.id l) = true
  /\ ((Converter.platform l = "spotify"
       /\ exists a b, Converter.originalUrl l
                      = a +:+ "spotify.com/" +:+ Converter.type l +:+ "/"
                        +:+ Converter.id l +:+ b)
      \/ (Converter.platform l = "apple_music"
          /\ all_chars (class_has AppleMusicService.digit) (Converter.id l) = true
          /\ exists a b, Converter.originalUrl l = a +:+ "music.apple.com/" +:+ b)).
Proof.
  intros l.
  apply (detectMusicLink_sound
           (VStr "https://music.apple.com/us/album/test-album/123456?i=789012") l).
  vm_compute. reflexivity.
Defined.

Lemma alnum_free (id rest : string) :
  all_chars (class_has SpotifyService.alnum) id = true ->
  all_chars (class_has AppleMusicService.no_slash) rest = true ->
  all_chars (class_has AppleMusicService.no_slash) (id +:+ rest) = true.
Proof.
  intros Hi Hr. rewrite all_chars_app, Hr, andb_true_r.
  exact (all_chars_impl _ _ _ alnum_no_slash Hi).
Qed.

Lemma digit_free (id rest : string) :
  all_chars (class_has AppleMusicService.digit) id = true ->
  all_chars (class_has AppleMusicService.no_slash) rest = true ->
  all_chars (class_has AppleMusicService.no_slash) (id +:+ rest) = true.
Proof.
  intros Hi Hr. rewrite all_chars_app, Hr, andb_true_r.
  exact (all_chars_impl _ _ _ digit_no_slash Hi).
Qed.

Lemma detect_spotify (secure open : bool) (kind id rest : string) :
  id <> EmptyString -> all_chars (class_has SpotifyService.alnum) id = true ->
  stops (class_has SpotifyService.alnum) rest = true ->
  kind = "track"
  \/ (kind = "album" /\ all_chars (class_has AppleMusicService.no_slash) rest = true) ->
  Converter.detectMusicLink (VStr (spotify_url secure open kind id rest))
  = Some {| Converter.platform := "spotify"; Converter.type := kind; Converter.id := id;
            Converter.originalUrl := spotify_url secure open kind id rest |}.
Proof.
  intros Hne Hid Hrest [->|[-> Hfree]]; rewrite detect_patterns; unfold Converter.link_of.
  - rewrite spotify_track_found by assumption. now rewrite truthy_intro.
  - rewrite spotify_track_none_on_album by now apply alnum_free.
    rewrite spotify_album_found by assumption.
    change (Converter.truthy None) with false. cbv iota. now rewrite truthy_intro.
Qed.

(** X10: a Spotify link comes back with its id and type: for
    [http://] or [https://], the host [open.spotify.com] or
    [spotify.com], the path [/track/ID] or [/album/ID] with an id of
    letters and digits, and any text after the id that does not go on
    with a letter or a digit (for an album: and holds no slash). *)
Theorem detectMusicLink_spotify (secure open : bool) (kind id rest : string) :
  id <> EmptyString -> all_chars (class_has SpotifyService.alnum) id = true ->
  stops (class_has SpotifyService.alnum) rest = true ->
  kind = "track"
  \/ (kind = "album" /\ all_chars (class_has AppleMusicService.no_slash) rest = true) ->
  Converter.detectMusicLink (VStr (spotify_url secure open kind id rest))
  = Some {| Converter.platform := "spotify"; Converter.type := kind; Converter.id := id;
            Converter.originalUrl := spotify_url secure open kind id rest |}.
Proof. apply detect_spotify. Qed.

Lemma detectMusicLink_spotify_witness :
  Converter.detectMusicLink
    (VStr "https://open.spotify.com/track/4iV5W9uYEdYUVa79Axb7Rh?si=abc")
  = Some {| Converter.platform := "spotify"; Converter.type := "track";
            Converter.id := "4iV5W9uYEdYUVa79Axb7Rh";
            Converter.originalUrl :=
              "https://open.spotify.com/track/4iV5W9uYEdYUVa79Axb7Rh?si=abc" |}
  /\ Converter.detectMusicLink (VStr "http://spotify.com/album/1DFixLWuPkv3KT3TnV35m3")
     = Some {| Converter.platform := "spotify"; Converter.type := "album";
               Converter.id := "1DFixLWuPkv3KT3TnV35m3";
               Converter.originalUrl := "http://spotify.com/album/1DFixLWuPkv3KT3TnV35m3" |}.
Proof.
  split.
  - apply (detectMusicLink_spotify true true "track" "4iV5W9uYEdYUVa79Axb7Rh" "?si=abc");
      [discriminate | reflexivity | reflexivity | left; reflexivity].
  - apply (detectMusicLink_spotify false false "album" "1DFixLWuPkv3KT3TnV35m3" "");
      [discriminate | reflexivity | reflexivity | right; split; reflexivity].
Defined.

Lemma apple_branch (url : string) :
  SpotifyService.extractTrackIdFromUrl url = None ->
  SpotifyService.extractAlbumIdFromUrl url = None ->
  Converter.detectMusicLink (VStr url)
  = Converter.link_of "apple_music" (AppleMusicService.extractTrackIdFromUrl url)
      (AppleMusicService.extractAlbumIdFromUrl url) url.
Proof. intros H1 H2. rewrite detect_patterns, H1, H2. reflexivity. Qed.

Lemma apple_link_song (secure : bool) (storefront name id rest : string) :
  storefront <> EmptyString ->
  all_chars (class_has AppleMusicService.no_slash) storefront = true ->
  name <> EmptyString -> all_chars (class_has AppleMusicService.no_slash) name = true ->
  id <> EmptyString -> all_chars (class_has AppleMusicService.digit) id = true ->
  stops (class_has AppleMusicService.digit) rest = true ->
  let url := apple_url secure storefront "song" name (id +:+ rest) in
  Converter.link_of "apple_music" (AppleMusicService.extractTrackIdFromUrl url)
    (AppleMusicService.extractAlbumIdFromUrl url) url
  = Some {| Converter.platform := "apple_music"; Converter.type := "track";
            Converter.id := id; Converter.originalUrl := url |}.
Proof.
  intros Hs1 Hs2 Hn1 Hn2 Hi1 Hi2 Hrest url. unfold Converter.link_of.
  unfold AppleMusicService.extractTrackIdFromUrl. subst url.
  destruct (apple_song_found secure storefront name id rest) as (m & -> & ->); try assumption.
  now rewrite truthy_intro.
Qed.

Lemma apple_link_album_track (secure : bool) (storefront name album id rest : string) :
  storefront <> EmptyString ->
  all_chars (class_has AppleMusicService.no_slash) storefront = true ->
  name <> EmptyString -> all_chars (class_has AppleMusicService.no_slash) name = true ->
  album <> EmptyString -> all_chars (class_has AppleMusicService.digit) album = true ->
  id <> EmptyString -> all_chars (class_has AppleMusicService.digit) id = true ->
  stops (class_has AppleMusicService.digit) rest = true ->
  all_chars (class_has AppleMusicService.no_slash) rest = true ->
  let url := apple_url secure storefront "album" name (album +:+ "?i=" +:+ id +:+ rest) in
  Converter.link_of "apple_music" (AppleMusicService.extractTrackIdFromUrl url)
    (AppleMusicService.extractAlbumIdFromUrl url) url
  = Some {| Converter.platform := "apple_music"; Converter.type := "track";
            Converter.id := id; Converter.originalUrl := url |}.
Proof.
  intros Hs1 Hs2 Hn1 Hn2 Ha1 Ha2 Hi1 Hi2 Hrest Hfree url. unfold Converter.link_of.
  unfold AppleMusicService.extractTrackIdFromUrl. subst url.
  rewrite apple_song_none_on_album; try assumption.
  2:{ apply digit_free; [assumption|]. apply (digit_free id rest Hi2) in Hfree.
      exact Hfree. }
  destruct (apple_album_track_found secure storefront name album id rest) as (m & -> & ->);
    try assumption.
  now rewrite truthy_intro.
Qed.

Lemma apple_link_album (secure : bool) (storefront name album rest : string) :
  storefront <> EmptyString ->
  all_chars (class_has AppleMusicService.no_slash) storefront = true ->
  name <> EmptyString -> all_chars (class_has AppleMusicService.no_slash) name = true ->
  album <> EmptyString -> all_chars (class_has AppleMusicService.digit) album = true ->
  stops (class_has AppleMusicService.digit) rest = true ->
  all_chars (class_has AppleMusicService.no_slash) rest = true ->
  strip_prefix "?i=" rest = None ->
  let url := apple_url secure storefront "album" name (album +:+ rest) in
  Converter.link_of "apple_music" (AppleMusicService.extractTrackIdFromUrl url)
    (AppleMusicService.extractAlbumIdFromUrl url) url
  = Some {| Converter.platform := "apple_music"; Converter.type := "album";
            Converter.id := album; Converter.originalUrl := url |}.
Proof.
  intros Hs1 Hs2 Hn1 Hn2 Ha1 Ha2 Hrest Hfree Hq url. unfold Converter.link_of.
  unfold AppleMusicService.extractTrackIdFromUrl. subst url.
  rewrite apple_song_none_on_album; try assumption; [|now apply digit_free].
  rewrite apple_album_track_none; try assumption.
  rewrite apple_album_found; try assumption.
  change (Converter.truthy None) with false. cbv iota. now rewrite truthy_intro.
Qed.

End Detection.

Section AppleLinks.
Import StringMethods RegExp Segments Links.

(** X11: an Apple Music song link, [music.apple.com/STOREFRONT/song/
    NAME/ID] with a storefront and a name without a slash and an id of
    digits, comes back as an Apple Music track with that id, whatever
    follows the id that holds no slash and does not go on with a
    digit. *)
Theorem detectMusicLink_apple_song (secure : bool) (storefront name id rest : string) :
  storefront <> EmptyString ->
  all_chars (class_has AppleMusicService.no_slash) storefront = true ->
  name <> EmptyString -> all_chars (class_has AppleMusicService.no_slash) name = true ->
  id <> EmptyString -> all_chars (class_has AppleMusicService.digit) id = true ->
  stops (class_has AppleMusicService.digit) rest = true ->
  all_chars (class_has AppleMusicService.no_slash) rest = true ->
  Converter.detectMusicLink (VStr (apple_url secure storefront "song" name (id +:+ rest)))
  = Some {| Converter.platform := "apple_music"; Converter.type := "track";
            Converter.id := id;
            Converter.originalUrl := apple_url secure storefront "song" name (id +:+ rest) |}.
Proof.
  intros Hs1 Hs2 Hn1 Hn2 Hi1 Hi2 Hrest Hfree.
  pose proof (digit_free id rest Hi2 Hfree) as Ht.
  rewrite apple_branch.
  - now apply apple_link_song.
  - apply spotify_track_none_on_apple; auto.
  - apply spotify_album_none_on_apple; auto.
Qed.

Lemma detectMusicLink_apple_song_witness :
  Converter.detectMusicLink (VStr "https://music.apple.com/us/song/test-song/123456?l=en")
  = Some {| Converter.platform := "apple_music"; Converter.type := "track";
            Converter.id := "123456";
            Converter.originalUrl :=
              "https://music.apple.com/us/song/test-song/123456?l=en" |}.
Proof.
  apply (detectMusicLink_apple_song true "us" "test-song" "123456" "?l=en");
    try discriminate; reflexivity.
Defined.

(** X12: an Apple Music album link with a track parameter,
    [.../album/NAME/ALBUM?i=ID], comes back as a track, with the id of
    the parameter and not the id of the album, provided the storefront
    does not end in [spotify.com]. *)
Theorem detectMusicLink_apple_album_track (secure : bool)
  (storefront name album id rest : string) :
  storefront <> EmptyString ->
  all_chars (class_has AppleMusicService.no_slash) storefront = true ->
  ends_with storefront "spotify.com" = false ->
  name <> EmptyString -> all_chars (class_has AppleMusicService.no_slash) name = true ->
  album <> EmptyString -> all_chars (class_has AppleMusicService.digit) album = true ->
  id <> EmptyString -> all_chars (class_has AppleMusicService.digit) id = true ->
  stops (class_has AppleMusicService.digit) rest = true ->
  all_chars (class_has AppleMusicService.no_slash) rest = true ->
  Converter.detectMusicLink
    (VStr (apple_url secure storefront "album" name (album +:+ "?i=" +:+ id +:+ rest)))
  = Some {| Converter.platform := "apple_music"; Converter.type := "track";
            Converter.id := id;
            Converter.originalUrl :=
              apple_url secure storefront "album" name (album +:+ "?i=" +:+ id +:+ rest) |}.
Proof.
  intros Hs1 Hs2 He Hn1 Hn2 Ha1 Ha2 Hi1 Hi2 Hrest Hfree.
  assert (Ht : all_chars (class_has AppleMusicService.no_slash)
                 (album +:+ "?i=" +:+ id +:+ rest) = true).
  { apply digit_free; [assumption|]. exact (digit_free id rest Hi2 Hfree). }
  rewrite apple_branch.
  - now apply apple_link_album_track.
  - apply spotify_track_none_on_apple; auto.
  - apply spotify_album_none_on_apple; auto.
Qed.

Lemma detectMusicLink_apple_album_track_witness :
  Converter.detectMusicLink
    (VStr "https://music.apple.com/us/album/test-album/123456?i=789012")
  = Some {| Converter.platform := "apple_music"; Converter.type := "track";
            Converter.id := "789012";
            Converter.originalUrl :=
              "https://music.apple.com/us/album/test-album/123456?i=789012" |}.
Proof.
  apply (detectMusicLink_apple_album_track true "us" "test-album" "123456" "789012" "");
    try discriminate; reflexivity.
Defined.

(** X13: an Apple Music album link without a track parameter comes back
    as an album with its id, provided the storefront does not end in
    [spotify.com]. *)
Theorem detectMusicLink_apple_album (secure : bool) (storefront name album rest : string) :
  storefront <> EmptyString ->
  all_chars (class_has AppleMusicService.no_slash) storefront = true ->
  ends_with storefront "spotify.com" = false ->
  name <> EmptyString -> all_chars (class_has AppleMusicService.no_slash) name = true ->
  album <> EmptyString -> all_chars (class_has AppleMusicService.digit) album = true ->
  stops (class_has AppleMusicService.digit) rest = true ->
  all_chars (class_has AppleMusicService.no_slash) rest = true ->
  strip_prefix "?i=" rest = None ->
  Converter.detectMusicLink (VStr (apple_url secure storefront "album" name (album +:+ rest)))
  = Some {| Converter.platform := "apple_music"; Converter.type := "album";
            Converter.id := album;
            Converter.originalUrl :=
              apple_url secure storefront "album" name (album +:+ rest) |}.
Proof.
  intros Hs1 Hs2 He Hn1 Hn2 Ha1 Ha2 Hrest Hfree Hq.
  pose proof (digit_free album rest Ha2 Hfree) as Ht.
  rewrite apple_branch.
  - now apply apple_link_album.
  - apply spotify_track_none_on_apple; auto.
  - apply spotify_album_none_on_apple; auto.
Qed.

Lemma detectMusicLink_apple_album_witness :
  Converter.detectMusicLink (VStr "https://music.apple.com/gb/album/test-album/123456")
  = Some {| Converter.platform := "apple_music"; Converter.type := "album";
            Converter.id := "123456";
            Converter.originalUrl := "https://music.apple.com/gb/album/test-album/123456" |}.
Proof.
  apply (detectMusicLink_apple_album true "gb" "test-album" "123456" "");
    try discriminate; reflexivity.
Defined.

(** A storefront that ends in [spotify.com] turns an Apple Music album
    link into a Spotify album. *)
Example apple_album_taken_for_spotify :
  Converter.detectMusicLink (VStr "https://music.apple.com/spotify.com/album/x/123456")
  = Some {| Converter.platform := "spotify"; Converter.type := "album"; Converter.id := "x";
            Converter.originalUrl := "https://music.apple.com/spotify.com/album/x/123456" |}.
Proof. evaluate. Qed.

End AppleLinks.

Section ForeignLinks.
Import StringMethods RegExp.

(** X20: a string that holds neither [spotify.com/] nor
    [music.apple.com/] is no link: [detectMusicLink] gives [null].  The
    second test of Spotify's [isValidUrl], for [open.spotify.com/], adds
    nothing to the first. *)
Theorem detectMusicLink_foreign (url : string) :
  includes url "spotify.com/" = false -> includes url "music.apple.com/" = false ->
  SpotifyService.isValidUrl url = false
  /\ AppleMusicService.isValidUrl url = false
  /\ Converter.detectMusicLink (VStr url) = None.
Proof.
  intros Hs Ha.
  assert (V : SpotifyService.isValidUrl url = false).
  { unfold SpotifyService.isValidUrl. rewrite Hs. simpl.
    destruct (includes url "open.spotify.com/") eqn:E; [|reflexivity].
    apply includes_spec in E. destruct E as (a & b & ->).
    rewrite <- Hs. symmetry. apply includes_spec.
    exists (a +:+ "open."), b. now rewrite append_assoc. }
  split; [exact V|]. split; [exact Ha|].
  unfold Converter.detectMusicLink. unfold AppleMusicService.isValidUrl. rewrite V, Ha.
  now destruct (String.eqb url EmptyString).
Qed.

Lemma detectMusicLink_foreign_witness :
  SpotifyService.isValidUrl "https://youtube.com/watch?v=123" = false
  /\ AppleMusicService.isValidUrl "https://youtube.com/watch?v=123" = false
  /\ Converter.detectMusicLink (VStr "https://youtube.com/watch?v=123") = None.
Proof. apply (detectMusicLink_foreign "https://youtube.com/watch?v=123"); reflexivity. Defined.

End ForeignLinks.

(** ** The bot *)

Section SetFacts.
Context {A : Type} `{EqDecision A}.

Lemma has_spec (s : list A) (x : A) : JsSet.has s x = true <-> In x s.
Proof. unfold JsSet.has. rewrite bool_decide_eq_true. apply list_elem_of_In. Qed.

Lemma add_In (s : list A) (x y : A) : In y (JsSet.add s x) <-> In y s \/ y = x.
Proof.
  unfold JsSet.add. destruct (JsSet.has s x) eqn:H.
  - apply has_spec in H. split; [tauto | intros [?| ->]; assumption].
  - rewrite in_app_iff. simpl. intuition.
Qed.

Lemma add_NoDup (s : list A) (x : A) : List.NoDup s -> List.NoDup (JsSet.add s x).
Proof.
  intros Hs. unfold JsSet.add. destruct (JsSet.has s x) eqn:H; [assumption|].
  assert (Hx : ~ In x s) by (rewrite <- has_spec, H; discriminate).
  apply List.NoDup_rev in Hs. rewrite <- (rev_involutive (s ++ [x])).
  apply List.NoDup_rev. rewrite rev_app_distr. simpl. constructor; [|assumption].
  now rewrite <- in_rev.
Qed.

Lemma delete_In (s : list A) (x y : A) : In y (JsSet.delete s x) <-> In y s /\ y <> x.
Proof.
  unfold JsSet.delete. rewrite List.filter_In, negb_true_iff, bool_decide_eq_false. tauto.
Qed.

Lemma foldl_add_In (l acc : list A) (y : A) :
  In y (foldl JsSet.add acc l) <-> In y acc \/ In y l.
Proof.
  revert acc. induction l as [|x l IH]; intros acc; simpl; [tauto|].
  rewrite IH, add_In. intuition.
Qed.

Lemma foldl_add_NoDup (l acc : list A) :
  List.NoDup acc -> List.NoDup (foldl JsSet.add acc l).
Proof.
  revert acc. induction l as [|x l IH]; intros acc H; simpl; [assumption|].
  apply IH, add_NoDup, H.
Qed.

Lemma foldl_add_fresh (l acc : list A) :
  List.NoDup (acc ++ l) -> foldl JsSet.add acc l = acc ++ l.
Proof.
  revert acc. induction l as [|x l IH]; intros acc H; simpl; [now rewrite app_nil_r|].
  assert (Hx : JsSet.has acc x = false).
  { destruct (JsSet.has acc x) eqn:E; [|reflexivity]. apply has_spec in E.
    apply List.NoDup_remove_2 in H. exfalso. apply H. apply in_or_app. now left. }
  unfold JsSet.add at 2. rewrite Hx.
  rewrite IH; rewrite <- app_assoc; [reflexivity | exact H].
Qed.

Lemma foldl_add_head (l acc : list A) (a : A) :
  exists t, foldl JsSet.add (a :: acc) l = a :: t.
Proof.
  revert acc. induction l as [|x l IH]; intros acc; simpl; [eauto|].
  unfold JsSet.add at 2. destruct (JsSet.has (a :: acc) x); [apply IH|].
  apply (IH (acc ++ [x])).
Qed.

Lemma of_list_In (l : list A) (y : A) : In y (JsSet.of_list l) <-> In y l.
Proof. unfold JsSet.of_list. rewrite foldl_add_In. simpl. tauto. Qed.

Lemma of_list_NoDup (l : list A) : List.NoDup (JsSet.of_list l).
Proof. apply foldl_add_NoDup. constructor. Qed.

Lemma of_list_fresh (l : list A) : List.NoDup l -> JsSet.of_list l = l.
Proof. intros H. exact (foldl_add_fresh l [] H). Qed.

Lemma of_list_head (x : A) (l : list A) : exists t, JsSet.of_list (x :: l) = x :: t.
Proof. unfold JsSet.of_list. simpl. apply foldl_add_head. Qed.

End SetFacts.

Section LinksOfAMessage.
Import StringMethods RegExp Segments Links.

Lemma push_matches_app (text : string) (links : list string) (pattern : regex) :
  SMBot.push_matches text links pattern = links ++ scan pattern text 0.
Proof.
  unfold SMBot.push_matches, match_all.
  destruct (scan pattern text 0); [now rewrite app_nil_r | reflexivity].
Qed.

Lemma pushed_In (text : string) (ps : list regex) (acc : list string) (link : string) :
  In link (foldl (SMBot.push_matches text) acc ps)
  <-> In link acc \/ exists p, In p ps /\ In link (scan p text 0).
Proof.
  revert acc. induction ps as [|p ps IH]; intros acc; simpl.
  - split; [tauto | intros [H|(p & [] & _)]; exact H].
  - rewrite IH, push_matches_app, in_app_iff. split.
    + intros [[H|H]|(q & Hq & H)]; eauto 6.
    + intros [H|(q & [<-|Hq] & H)]; eauto 6.
Qed.

Lemma extracted_In (text link : string) :
  In link (SMBot.extractMusicLinks text)
  <-> exists p, In p SMBot.allPatterns /\ In link (scan p text 0).
Proof.
  unfold SMBot.extractMusicLinks. rewrite of_list_In, pushed_In. simpl. tauto.
Qed.

End LinksOfAMessage.

Section LinksDetected.
Import StringMethods RegExp Segments Links.

Lemma detected_spotify (secure open : bool) (kind id : string) :
  kind = "track" \/ kind = "album" ->
  id <> EmptyString -> all_chars (class_has SpotifyService.alnum) id = true ->
  let link := scheme secure +:+ (if open then "open." else "") +:+ "spotify.com/"
              +:+ kind +:+ "/" +:+ id in
  exists l, Converter.detectMusicLink (VStr link) = Some l /\ Converter.originalUrl l = link.
Proof.
  intros Hk Hne Hid link.
  assert (E : link = spotify_url secure open kind id EmptyString).
  { unfold link, spotify_url. now rewrite append_nil_r. }
  rewrite E. eexists. split; [apply detect_spotify|reflexivity]; auto.
  destruct Hk as [->| ->]; auto.
Qed.

Lemma detected_apple (url : string) (l : Converter.link) :
  Converter.link_of "apple_music" (AppleMusicService.extractTrackIdFromUrl url)
    (AppleMusicService.extractAlbumIdFromUrl url) url = Some l ->
  exists l', Converter.detectMusicLink (VStr url) = Some l' /\ Converter.originalUrl l' = url.
Proof.
  intros H. rewrite detect_patterns.
  destruct (Converter.link_of "spotify" _ _ url) as [l'|] eqn:S.
  - exists l'. split; [reflexivity|]. apply link_of_some in S. tauto.
  - exists l. split; [assumption|]. apply link_of_some in H. tauto.
Qed.

Lemma scheme_shape (t : string) (c c' : captures) :
  denotes (Opt (Lit "s")) t c c' ->
  exists secure, forall rest, "http" +:+ t +:+ "://" +:+ rest = scheme secure +:+ rest.
Proof.
  intros H. denote; subst; [now exists false | now exists true].
Qed.

Lemma pattern_detected (p : regex) (link : string) (caps : captures) :
  In p SMBot.allPatterns -> denotes p link ∅ caps ->
  exists l, Converter.detectMusicLink (VStr link) = Some l /\ Converter.originalUrl l = link.
Proof.
  intros Hp Hd. unfold SMBot.allPatterns, SMBot.spotifyPatterns, SMBot.appleMusicPatterns in Hp.
  cbn [app In] in Hp. unfold SMBot.http in Hp.
  destruct Hp as [<-|[<-|[<-|[<-|[<-|[<-|[]]]]]]];
    destruct Hd as (t1 & t2 & c1 & -> & [-> ->] & Hd);
    destruct Hd as (t3 & t4 & c2 & -> & Hs & Hd);
    destruct (scheme_shape _ _ _ Hs) as (secure & Hsec); clear Hs;
    destruct Hd as (t5 & t6 & c3 & -> & [-> ->] & Hd);
    rewrite Hsec.
  - denote. subst. apply (detected_spotify secure true "track"); auto.
  - denote. subst. apply (detected_spotify secure true "album"); auto.
  - denote. subst. apply (detected_spotify secure false "track"); auto.
  - denote. subst. apply (detected_spotify secure false "album"); auto.
  - denote. subst.
    match goal with
    | |- context [ _ +:+ ?x +:+ "/song/" +:+ ?y +:+ "/" +:+ ?d ] =>
        rewrite <- (append_nil_r d);
        apply (detected_apple (apple_url secure x "song" y (d +:+ EmptyString))
                 _ (apple_link_song secure x y d EmptyString
                      ltac:(assumption) ltac:(assumption) ltac:(assumption)
                      ltac:(assumption) ltac:(assumption) ltac:(assumption) eq_refl))
    end.
  - denote; subst.
    + match goal with
      | |- context [ _ +:+ ?x +:+ "/album/" +:+ ?y +:+ "/" +:+ ?d +:+ "" ] =>
          apply (detected_apple (apple_url secure x "album" y (d +:+ EmptyString))
                   _ (apple_link_album secure x y d EmptyString
                        ltac:(assumption) ltac:(assumption) ltac:(assumption)
                        ltac:(assumption) ltac:(assumption) ltac:(assumption)
                        eq_refl eq_refl eq_refl))
      end.
    + match goal with
      | |- context [ _ +:+ ?x +:+ "/album/" +:+ ?y +:+ "/" +:+ ?d +:+ "?i=" +:+ ?i ] =>
          rewrite <- (append_nil_r i);
          apply (detected_apple
                   (apple_url secure x "album" y (d +:+ "?i=" +:+ i +:+ EmptyString))
                   _ (apple_link_album_track secure x y d i EmptyString
                        ltac:(assumption) ltac:(assumption) ltac:(assumption)
                        ltac:(assumption) ltac:(assumption) ltac:(assumption)
                        ltac:(assumption) ltac:(assumption) eq_refl eq_refl))
      end.
Qed.

End LinksDetected.

Section BotLinks.
Import StringMethods RegExp Segments Links.

(** X14: every link [extractMusicLinks] finds in a message occurs in
    the message and is a link for [detectMusicLink]: the converter never
    answers [null] to a link the bot hands over. *)
Theorem extractMusicLinks_detected (text link : string) :
  In link (SMBot.extractMusicLinks text) ->
  (exists a b, text = a +:+ link +:+ b)
  /\ exists l, Converter.detectMusicLink (VStr link) = Some l
               /\ Converter.originalUrl l = link.
Proof.
  intros H. apply extracted_In in H. destruct H as (p & Hp & H).
  apply scan_sound in H. destruct H as (a & b & caps & Ht & Hd).
  split; [eauto|]. exact (pattern_detected p link caps Hp Hd).
Qed.

Lemma extractMusicLinks_detected_witness :
  (exists a b,
      "Listen to this: https://music.apple.com/us/song/test-song/123456 !"
      = a +:+ "https://music.apple.com/us/song/test-song/123456" +:+ b)
  /\ exists l,
       Converter.detectMusicLink (VStr "https://music.apple.com/us/song/test-song/123456")
       = Some l
       /\ Converter.originalUrl l = "https://music.apple.com/us/song/test-song/123456".
Proof.
  apply (extractMusicLinks_detected
           "Listen to this: https://music.apple.com/us/song/test-song/123456 !").
  vm_compute. left. reflexivity.
Defined.

Lemma match_all_In (text : string) (p : regex) (link : string) :
  In link (scan p text 0)
  <-> exists matches, match_all text p = Some matches /\ In link matches.
Proof.
  unfold match_all. destruct (scan p text 0) as [|x l].
  - split; [intros [] | intros (m & [=] & _)].
  - split; [eauto | intros (m & [= <-] & H); exact H].
Qed.

(** X15: [extractMusicLinks] returns every match of the six patterns,
    each link once. *)
Theorem extractMusicLinks_set (text : string) :
  List.NoDup (SMBot.extractMusicLinks text)
  /\ forall link,
       In link (SMBot.extractMusicLinks text)
       <-> exists pattern matches,
             In pattern SMBot.allPatterns
             /\ match_all text pattern = Some matches /\ In link matches.
Proof.
  split; [apply of_list_NoDup|]. intros link. rewrite extracted_In. split.
  - intros (p & Hp & H). apply match_all_In in H. destruct H as (m & Hm & H). eauto.
  - intros (p & m & Hp & Hm & H). exists p. split; [assumption|].
    apply match_all_In. eauto.
Qed.

Lemma pushed_flat (text : string) (ps : list regex) (acc : list string) :
  foldl (SMBot.push_matches text) acc ps
  = acc ++ flat_map (fun p => scan p text 0) ps.
Proof.
  revert acc. induction ps as [|p ps IH]; intros acc; simpl; [now rewrite app_nil_r|].
  now rewrite IH, push_matches_app, <- app_assoc.
Qed.

Lemma match_all_none (text : string) (p : regex) :
  match_all text p = None -> scan p text 0 = [].
Proof. unfold match_all. now destruct (scan p text 0). Qed.

Lemma match_all_some (text : string) (p : regex) (l : list string) :
  match_all text p = Some l -> scan p text 0 = l.
Proof. unfold match_all. destruct (scan p text 0); congruence. Qed.

Lemma no_link_in_nothing (p : regex) :
  In p SMBot.allPatterns -> scan p EmptyString 0 = [].
Proof.
  intros Hp. unfold SMBot.allPatterns, SMBot.spotifyPatterns, SMBot.appleMusicPatterns in Hp.
  cbn [app In] in Hp.
  destruct Hp as [<-|[<-|[<-|[<-|[<-|[<-|[]]]]]]]; reflexivity.
Qed.

(** X16: the link [handleTextMessage] converts is not the first link of
    the message but the first match of the first pattern that matches:
    Spotify before Apple Music, [open.spotify.com] before
    [spotify.com], tracks before albums. *)
Theorem handleTextMessage_first_pattern (b : SMBot.bot) (chatId : option Z)
  (text link : string) (more : list string) (before after : list regex) (pattern : regex) :
  SMBot.subscribed b chatId = true ->
  SMBot.allPatterns = before ++ pattern :: after ->
  Forall (fun p => match_all text p = None) before ->
  match_all text pattern = Some (link :: more) ->
  SMBot.handleTextMessage b chatId (Some text) = Some link.
Proof.
  intros Hsub Hps Hbefore Hm. unfold SMBot.handleTextMessage. rewrite Hsub. cbn [negb].
  apply match_all_some in Hm.
  destruct text as [|c text].
  { rewrite no_link_in_nothing in Hm; [discriminate|]. rewrite Hps.
    apply in_or_app. right. now left. }
  unfold SMBot.extractMusicLinks. rewrite pushed_flat, Hps, flat_map_app.
  cbn [flat_map app].
  assert (E : flat_map (fun p => scan p (String c text) 0) before = []).
  { clear Hps. induction Hbefore as [|p ps Hp _ IH]; [reflexivity|].
    cbn [flat_map]. now rewrite (match_all_none _ _ Hp), IH. }
  rewrite E, Hm. cbn [app].
  destruct (of_list_head link (more ++ flat_map (fun p => scan p (String c text) 0) after))
    as (t & ->).
  reflexivity.
Qed.

Lemma handleTextMessage_first_pattern_witness :
  SMBot.handleTextMessage {| SMBot.chats := [42]; SMBot.saved := None |} (Some 42)
    (Some "https://music.apple.com/us/song/test-song/123456 or https://open.spotify.com/album/1DFixLWuPkv3KT3TnV35m3")
  = Some "https://open.spotify.com/album/1DFixLWuPkv3KT3TnV35m3".
Proof.
  apply (handleTextMessage_first_pattern _ _ _ _ []
           [SMBot.http (Seq (Lit "open.spotify.com/track/") (Plus SpotifyService.alnum))]
           [SMBot.http (Seq (Lit "spotify.com/track/") (Plus SpotifyService.alnum));
            SMBot.http (Seq (Lit "spotify.com/album/") (Plus SpotifyService.alnum));
            SMBot.http (Seq (Lit "music.apple.com/")
              (Seq (Plus AppleMusicService.no_slash)
                 (Seq (Lit "/song/")
                    (Seq (Plus AppleMusicService.no_slash)
                       (Seq (Lit "/") (Plus AppleMusicService.digit))))));
            SMBot.http (Seq (Lit "music.apple.com/")
              (Seq (Plus AppleMusicService.no_slash)
                 (Seq (Lit "/album/")
                    (Seq (Plus AppleMusicService.no_slash)
                       (Seq (Lit "/")
                          (Seq (Plus AppleMusicService.digit)
                             (Opt (Group 1%nat
                                     (Seq (Lit "?i=")
                                        (Plus AppleMusicService.digit))))))))))]
           (SMBot.http (Seq (Lit "open.spotify.com/album/") (Plus SpotifyService.alnum)))).
  - reflexivity.
  - reflexivity.
  - repeat constructor.
  - vm_compute. reflexivity.
Defined.

End BotLinks.

Section Subscriptions.

Lemma add_remove_NoDup (b : SMBot.bot) (c : Z) :
  List.NoDup (SMBot.chats b) ->
  List.NoDup (SMBot.chats (SMBot.addChatId b c))
  /\ List.NoDup (SMBot.chats (SMBot.removeChatId b c)).
Proof.
  intros H. unfold SMBot.addChatId, SMBot.removeChatId.
  destruct (JsSet.has (SMBot.chats b) c); simpl; split; auto.
  - now apply List.NoDup_filter.
  - now apply add_NoDup.
Qed.

Lemma load_in_step (b : SMBot.bot) :
  List.NoDup (SMBot.chats (SMBot.loadChatIds b))
  /\ JsSet.of_list (default [] (SMBot.saved (SMBot.loadChatIds b)))
     = SMBot.chats (SMBot.loadChatIds b).
Proof. split; [apply of_list_NoDup | reflexivity]. Qed.

Lemma handle_in_step (botPassword : string) (b : SMBot.bot) (u : SMBot.update) :
  List.NoDup (SMBot.chats b)
  /\ JsSet.of_list (default [] (SMBot.saved b)) = SMBot.chats b ->
  List.NoDup (SMBot.chats (SMBot.handle botPassword b u))
  /\ JsSet.of_list (default [] (SMBot.saved (SMBot.handle botPassword b u)))
     = SMBot.chats (SMBot.handle botPassword b u).
Proof.
  intros [Hn Hs].
  assert (Ha : forall c,
             List.NoDup (SMBot.chats (SMBot.addChatId b c))
             /\ JsSet.of_list (default [] (SMBot.saved (SMBot.addChatId b c)))
                = SMBot.chats (SMBot.addChatId b c)).
  { intros c. pose proof (add_remove_NoDup b c Hn) as [H _]. split; [exact H|].
    revert H. unfold SMBot.addChatId. destruct (JsSet.has (SMBot.chats b) c); [auto|].
    simpl. apply of_list_fresh. }
  assert (Hr : forall c,
             List.NoDup (SMBot.chats (SMBot.removeChatId b c))
             /\ JsSet.of_list (default [] (SMBot.saved (SMBot.removeChatId b c)))
                = SMBot.chats (SMBot.removeChatId b c)).
  { intros c. pose proof (add_remove_NoDup b c Hn) as [_ H]. split; [exact H|].
    revert H. unfold SMBot.removeChatId. destruct (JsSet.has (SMBot.chats b) c); [|auto].
    simpl. apply of_list_fresh. }
  destruct u as [[c|] payload|[c|]|chatId text]; simpl; auto.
  - destruct (c =? 0); [auto|]. destruct (String.eqb payload botPassword); simpl; auto.
  - destruct (c =? 0); simpl; auto.
Qed.

Lemma handle_all_in_step (botPassword : string) (us : list SMBot.update) (b : SMBot.bot) :
  List.NoDup (SMBot.chats b)
  /\ JsSet.of_list (default [] (SMBot.saved b)) = SMBot.chats b ->
  List.NoDup (SMBot.chats (SMBot.handle_all botPassword b us))
  /\ JsSet.of_list (default [] (SMBot.saved (SMBot.handle_all botPassword b us)))
     = SMBot.chats (SMBot.handle_all botPassword b us).
Proof.
  revert b. induction us as [|u us IH]; intros b H; [exact H|].
  apply (IH (SMBot.handle botPassword b u)), handle_in_step, H.
Qed.

(** X17: what the bot saves is what it loads: after [loadChatIds] and
    any sequence of commands and messages, loading the chats again, as
    a restart does, gives the same subscribed chats in the same
    order. *)
Theorem loadChatIds_restores (botPassword : string) (b : SMBot.bot)
  (us : list SMBot.update) :
  SMBot.chats
    (SMBot.loadChatIds (SMBot.handle_all botPassword (SMBot.loadChatIds b) us))
  = SMBot.chats (SMBot.handle_all botPassword (SMBot.loadChatIds b) us).
Proof.
  destruct (handle_all_in_step botPassword us (SMBot.loadChatIds b) (load_in_step b))
    as [_ H].
  exact H.
Qed.

Lemma handle_origin (botPassword : string) (b : SMBot.bot) (u : SMBot.update) (c : Z) :
  In c (SMBot.chats (SMBot.handle botPassword b u)) ->
  In c (SMBot.chats b) \/ (c <> 0 /\ u = SMBot.StartCommand (Some c) botPassword).
Proof.
  destruct u as [[c'|] payload|[c'|]|chatId text]; simpl; auto.
  - destruct (Z.eqb_spec c' 0) as [|Hc']; [auto|].
    destruct (String.eqb_spec payload botPassword) as [->|]; simpl; [|auto].
    unfold SMBot.addChatId. destruct (JsSet.has (SMBot.chats b) c'); [auto|]. simpl.
    rewrite add_In. intros [H| ->]; auto.
  - destruct (c' =? 0); simpl; [auto|].
    unfold SMBot.removeChatId. destruct (JsSet.has (SMBot.chats b) c'); simpl; [|auto].
    rewrite delete_In. tauto.
Qed.

Lemma handle_all_origin (botPassword : string) (us : list SMBot.update) (b : SMBot.bot)
  (c : Z) :
  In c (SMBot.chats (SMBot.handle_all botPassword b us)) ->
  In c (SMBot.chats b)
  \/ (c <> 0 /\ In (SMBot.StartCommand (Some c) botPassword) us).
Proof.
  revert b. induction us as [|u us IH]; intros b; [auto|].
  intros H. apply (IH (SMBot.handle botPassword b u)) in H.
  destruct H as [H|[Hc H]]; [|right; split; [assumption | now right]].
  apply handle_origin in H. destruct H as [H|[Hc ->]]; [now left|].
  right. split; [assumption | now left].
Qed.

(** X18: a chat is subscribed only by [/start] with the password: a
    chat the bot holds after a sequence of updates was held before, or
    sent [/start] with exactly the configured password; and its id is
    not 0 in the second case. *)
Theorem subscribed_by_password (botPassword : string) (b : SMBot.bot)
  (us : list SMBot.update) (chatId : Z) :
  In chatId (SMBot.chats (SMBot.handle_all botPassword b us)) ->
  In chatId (SMBot.chats b)
  \/ (chatId <> 0 /\ In (SMBot.StartCommand (Some chatId) botPassword) us).
Proof. apply handle_all_origin. Qed.

Lemma subscribed_by_password_witness :
  In 7 (SMBot.chats {| SMBot.chats := []; SMBot.saved := None |})
  \/ (7 <> 0
      /\ In (SMBot.StartCommand (Some 7) "unsecure")
           [SMBot.StartCommand (Some 5) "guess"; SMBot.StartCommand (Some 7) "unsecure";
            SMBot.StopCommand (Some 5)]).
Proof.
  apply (subscribed_by_password "unsecure" {| SMBot.chats := []; SMBot.saved := None |}
           [SMBot.StartCommand (Some 5) "guess"; SMBot.StartCommand (Some 7) "unsecure";
            SMBot.StopCommand (Some 5)] 7).
  vm_compute. left. reflexivity.
Defined.

Lemma stop_removes (b : SMBot.bot) (c : Z) :
  c <> 0 -> ~ In c (SMBot.chats (SMBot.handleStopCommand b (Some c)).1).
Proof.
  intros Hc. unfold SMBot.handleStopCommand, SMBot.missing.
  destruct (Z.eqb_spec c 0); [contradiction|]. simpl.
  unfold SMBot.removeChatId. destruct (JsSet.has (SMBot.chats b) c) eqn:E; simpl.
  - rewrite delete_In. tauto.
  - rewrite <- has_spec, E. discriminate.
Qed.

(** X19: after [/stop] a chat stays unsubscribed until it sends
    [/start] with the password: whatever other updates follow, its
    messages are ignored. *)
Theorem handleStopCommand_stops (botPassword : string) (b : SMBot.bot)
  (us : list SMBot.update) (chatId : Z) (messageText : option string) :
  chatId <> 0 ->
  ~ In (SMBot.StartCommand (Some chatId) botPassword) us ->
  SMBot.handleTextMessage
    (SMBot.handle_all botPassword (SMBot.handleStopCommand b (Some chatId)).1 us)
    (Some chatId) messageText
  = None.
Proof.
  intros Hc Hus. unfold SMBot.handleTextMessage, SMBot.subscribed.
  destruct (JsSet.has _ chatId) eqn:E; [|reflexivity].
  apply has_spec, handle_all_origin in E. destruct E as [E|[_ E]].
  - now apply stop_removes in E.
  - contradiction.
Qed.

Lemma handleStopCommand_stops_witness :
  SMBot.handleTextMessage
    (SMBot.handle_all "unsecure"
       (SMBot.handleStopCommand {| SMBot.chats := [5; 7]; SMBot.saved := Some [5; 7] |}
          (Some 7)).1
       [SMBot.StartCommand (Some 7) "guess"; SMBot.StartCommand (Some 9) "unsecure"])
    (Some 7) (Some "https://open.spotify.com/track/4iV5W9uYEdYUVa79Axb7Rh")
  = None.
Proof.
  apply (handleStopCommand_stops "unsecure"
           {| SMBot.chats := [5; 7]; SMBot.saved := Some [5; 7] |}
           [SMBot.StartCommand (Some 7) "guess"; SMBot.StartCommand (Some 9) "unsecure"] 7).
  - discriminate.
  - intros [H|[H|[]]]; discriminate.
Defined.

End Subscriptions.

(** ** Songs built from the data of the services *)

Section AlbumIdOfASong.
Import StringMethods RegExp Segments Links.

Lemma apple_album_none_on_song (secure : bool) (storefront name tail : string) :
  all_chars (class_has AppleMusicService.no_slash) storefront = true ->
  all_chars (class_has AppleMusicService.no_slash) name = true ->
  all_chars (class_has AppleMusicService.no_slash) tail = true ->
  exec AppleMusicService.albumRegex (apple_url secure storefront "song" name tail) = None.
Proof.
  intros Hs Hn Ht.
  destruct (exec _ _) as [m|] eqn:E; [exfalso|reflexivity].
  apply (apple_match_segs "album") in E; [|reflexivity].
  destruct E as (P & la & x & y & d & b & Hu & _).
  rewrite segs_apple_url in Hu by (try assumption; reflexivity).
  destruct secure; split_segs P Hu.
Qed.

(** X21: [extractAlbumIdFromUrl] of Apple Music gives [null] for every
    song link: the pattern asks for [/album/].  (The test of the
    repository expects the id of the song here.) *)
Theorem extractAlbumIdFromUrl_song (secure : bool) (storefront name tail : string) :
  all_chars (class_has AppleMusicService.no_slash) storefront = true ->
  all_chars (class_has AppleMusicService.no_slash) name = true ->
  all_chars (class_has AppleMusicService.no_slash) tail = true ->
  AppleMusicService.extractAlbumIdFromUrl (apple_url secure storefront "song" name tail)
  = None.
Proof.
  intros Hs Hn Ht. unfold AppleMusicService.extractAlbumIdFromUrl.
  now rewrite apple_album_none_on_song.
Qed.

Lemma extractAlbumIdFromUrl_song_witness :
  AppleMusicService.extractAlbumIdFromUrl "https://music.apple.com/us/song/test-song/123456"
  = None.
Proof. apply (extractAlbumIdFromUrl_song true "us" "test-song" "123456"); reflexivity. Defined.

End AlbumIdOfASong.

Section Fallback.
Import StringMethods RegExp Segments Links.

Lemma segs_fallback (kind id : string) :
  all_chars (class_has AppleMusicService.no_slash) kind = true ->
  all_chars (class_has AppleMusicService.no_slash) id = true ->
  segs ("https://music.apple.com/" +:+ kind +:+ "/" +:+ id)
  = ["https:"; EmptyString; "music.apple.com"; kind; id].
Proof.
  intros Hk Hi. rewrite ?append_cons, ?append_nil_l. cbn.
  now rewrite segs_app_slash, (segs_free kind Hk), (segs_free id Hi).
Qed.

Lemma fallback_not_detected (kind id : string) :
  kind = "song" \/ kind = "album" ->
  all_chars (class_has AppleMusicService.no_slash) id = true ->
  Converter.detectMusicLink (VStr ("https://music.apple.com/" +:+ kind +:+ "/" +:+ id)) = None.
Proof.
  intros Hkind Hi.
  assert (Hk : all_chars (class_has AppleMusicService.no_slash) kind = true)
    by now destruct Hkind as [->| ->].
  pose proof (segs_fallback kind id Hk Hi) as Hsegs.
  set (url := "https://music.apple.com/" +:+ kind +:+ "/" +:+ id) in *.
  assert (S1 : SpotifyService.extractTrackIdFromUrl url = None).
  { unfold SpotifyService.extractTrackIdFromUrl.
    destruct (exec _ _) as [m|] eqn:E; [exfalso|reflexivity].
    apply exec_host_kind in E. destruct E as (a & id' & b & Hu & _).
    apply (f_equal segs) in Hu. rewrite Hsegs in Hu.
    destruct (segs_two a "spotify.com" "track" (id' +:+ b) eq_refl eq_refl) as (P & la & HP).
    change (segs (a +:+ "spotify.com/track/" +:+ id' +:+ b)
            = P ++ (la +:+ "spotify.com") :: "track" :: segs (id' +:+ b)) in HP.
    rewrite HP in Hu. clear HP Hsegs.
    destruct Hkind as [->| ->]; split_segs P Hu. }
  assert (S2 : SpotifyService.extractAlbumIdFromUrl url = None).
  { unfold SpotifyService.extractAlbumIdFromUrl.
    destruct (exec _ _) as [m|] eqn:E; [exfalso|reflexivity].
    apply exec_host_kind in E. destruct E as (a & id' & b & Hu & _).
    apply (f_equal segs) in Hu. rewrite Hsegs in Hu.
    destruct (segs_two a "spotify.com" "album" (id' +:+ b) eq_refl eq_refl) as (P & la & HP).
    change (segs (a +:+ "spotify.com/album/" +:+ id' +:+ b)
            = P ++ (la +:+ "spotify.com") :: "album" :: segs (id' +:+ b)) in HP.
    rewrite HP in Hu. clear HP Hsegs.
    destruct Hkind as [->| ->]; split_segs P Hu. }
  assert (A : forall kind' r,
             kind' = "song" \/ kind' = "album" ->
             exec (Seq (Lit "music.apple.com/")
                     (Seq (Plus AppleMusicService.no_slash)
                        (Seq (Lit (String "/" (kind' +:+ "/")))
                           (Seq (Plus AppleMusicService.no_slash) (Seq (Lit "/") r))))) url
             = None).
  { intros kind' r Hk'.
    destruct (exec _ _) as [m|] eqn:E; [exfalso|reflexivity].
    apply apple_match_segs in E; [|now destruct Hk' as [->| ->]].
    destruct E as (P & la & x & y & d & b & Hu & _). rewrite Hsegs in Hu. clear Hsegs.
    destruct Hkind as [->| ->], Hk' as [->| ->]; split_segs P Hu. }
  rewrite detect_patterns, S1, S2.
  unfold AppleMusicService.extractTrackIdFromUrl, AppleMusicService.extractAlbumIdFromUrl.
  unfold AppleMusicService.songRegex, AppleMusicService.albumTrackRegex,
    AppleMusicService.albumRegex.
  rewrite (A "song" _ (or_introl eq_refl)).
  rewrite !(A "album" _ (or_intror eq_refl)).
  reflexivity.
Qed.

(** X22: the link the Apple Music service makes up for a song or an
    album without a [url] attribute, [https://music.apple.com/song/ID]
    or [https://music.apple.com/album/ID], is no link for
    [detectMusicLink]. *)
Theorem fallback_externalUrl_not_detected (resource : AppleMusicService.Resource)
  (track album : obj) :
  JsValue.truthy
    (AppleMusicService.url
       (default AppleMusicService.no_attributes (AppleMusicService.attributes resource)))
  = false ->
  all_chars (class_has AppleMusicService.no_slash)
    (JsValue.to_string (AppleMusicService.id resource)) = true ->
  AppleMusicService.createSongFromAppleMusicTrack resource = Ok track ->
  AppleMusicService.createSongFromAppleMusicAlbum resource = Ok album ->
  get track "externalUrl"
  = VStr ("https://music.apple.com/song/" +:+ JsValue.to_string (AppleMusicService.id resource))
  /\ get album "externalUrl"
     = VStr ("https://music.apple.com/album/"
             +:+ JsValue.to_string (AppleMusicService.id resource))
  /\ Converter.detectMusicLink (get track "externalUrl") = None
  /\ Converter.detectMusicLink (get album "externalUrl") = None.
Proof.
  intros Hu Hi.
  unfold AppleMusicService.createSongFromAppleMusicTrack,
    AppleMusicService.createSongFromAppleMusicAlbum.
  destruct (AppleMusicService.imageUrl _) as [image|]; cbn [mbind result_bind];
    [|discriminate].
  intros [= <-] [= <-].
  assert (E1 : forall v1 v2 v3 v4 v5 v6 v7 v8 : value,
             get ({[ "id" := v1; "name" := v2; "artist" := v3; "album" := v4;
                     "imageUrl" := v5; "previewUrl" := v6; "externalUrl" := v7;
                     "platform" := v8 ]} : obj) "externalUrl" = v7).
  { intros. reflexivity. }
  rewrite !E1. unfold JsValue.or_else. rewrite Hu.
  repeat split.
  - exact (fallback_not_detected "song" _ (or_introl eq_refl) Hi).
  - exact (fallback_not_detected "album" _ (or_intror eq_refl) Hi).
Qed.

Lemma fallback_externalUrl_not_detected_witness :
  let resource := {| AppleMusicService.id := VStr "1440857781";
                     AppleMusicService.attributes := None |} in
  let fields (name url : string) : obj :=
    {[ "id" := VStr "1440857781"; "name" := VStr name; "artist" := VStr "Unknown Artist";
       "album" := VStr "Unknown Album"; "imageUrl" := VNull; "previewUrl" := VNull;
       "externalUrl" := VStr url; "platform" := VStr "apple_music" ]} in
  let track := fields "Unknown Track" "https://music.apple.com/song/1440857781" in
  let album := fields "Unknown Album" "https://music.apple.com/album/1440857781" in
  get track "externalUrl" = VStr "https://music.apple.com/song/1440857781"
  /\ get album "externalUrl" = VStr "https://music.apple.com/album/1440857781"
  /\ Converter.detectMusicLink (get track "externalUrl") = None
  /\ Converter.detectMusicLink (get album "externalUrl") = None.
Proof.
  intros resource fields track album.
  apply (fallback_externalUrl_not_detected resource track album); reflexivity.
Defined.

End Fallback.

Section Scorable.

Lemma score_of_texts (a b : obj) :
  Forall (fun k => raises (get a k) = false) compared_fields ->
  Forall (fun k => raises (get b k) = false) compared_fields ->
  exists score, calculateSongScore (Some a) (Some b) = Ok score.
Proof.
  unfold compared_fields. intros Ha Hb.
  apply Forall_cons in Ha. destruct Ha as [A1 Ha].
  apply Forall_cons in Ha. destruct Ha as [A2 Ha].
  apply Forall_cons in Ha. destruct Ha as [A3 _].
  apply Forall_cons in Hb. destruct Hb as [B1 Hb].
  apply Forall_cons in Hb. destruct Hb as [B2 Hb].
  apply Forall_cons in Hb. destruct Hb as [B3 _].
  unfold calculateSongScore.
  rewrite (normalize_raises (get a "name")), (normalize_raises (get a "artist")),
    (normalize_raises (get a "album")), (normalize_raises (get b "name")),
    (normalize_raises (get b "artist")), (normalize_raises (get b "album")).
  rewrite A1, A2, A3, B1, B2, B3. cbn [mbind result_bind]. eauto.
Qed.

Lemma or_else_text (v : value) (d : string) :
  raises v = false -> raises (JsValue.or_else v (VStr d)) = false.
Proof. unfold JsValue.or_else. now destruct (JsValue.truthy v). Qed.

Lemma spotify_track_texts (t : SpotifyService.Track) :
  raises (SpotifyService.track_name t) = false ->
  raises (SpotifyService.artistName (default [] (SpotifyService.track_artists t))) = false ->
  raises (from_option SpotifyService.album_name VUndefined (SpotifyService.track_album t))
  = false ->
  Forall (fun k => raises (get (SpotifyService.createSongFromSpotifyTrack t) k) = false)
    compared_fields.
Proof.
  intros H1 H2 H3. unfold SpotifyService.createSongFromSpotifyTrack.
  repeat constructor; [exact H1 | exact H2 | now apply or_else_text].
Qed.

Lemma spotify_album_texts (al : SpotifyService.Album) :
  raises (SpotifyService.name al) = false ->
  raises (SpotifyService.artistName (default [] (SpotifyService.artists al))) = false ->
  Forall (fun k => raises (get (SpotifyService.createSongFromSpotifyAlbum al) k) = false)
    compared_fields.
Proof.
  intros H1 H2. unfold SpotifyService.createSongFromSpotifyAlbum.
  repeat constructor; [exact H1 | exact H2 | exact H1].
Qed.

Lemma apple_track_texts (r : AppleMusicService.Resource) (song : obj) :
  let attributes :=
    default AppleMusicService.no_attributes (AppleMusicService.attributes r) in
  raises (AppleMusicService.name attributes) = false ->
  raises (AppleMusicService.artistName attributes) = false ->
  raises (AppleMusicService.albumName attributes) = false ->
  AppleMusicService.createSongFromAppleMusicTrack r = Ok song ->
  Forall (fun k => raises (get song k) = false) compared_fields.
Proof.
  intros attributes H1 H2 H3. unfold AppleMusicService.createSongFromAppleMusicTrack.
  destruct (AppleMusicService.imageUrl _) as [image|]; cbn [mbind result_bind];
    [|discriminate].
  intros [= <-]. repeat constructor; now apply or_else_text.
Qed.

Lemma apple_album_texts (r : AppleMusicService.Resource) (song : obj) :
  let attributes :=
    default AppleMusicService.no_attributes (AppleMusicService.attributes r) in
  raises (AppleMusicService.name attributes) = false ->
  raises (AppleMusicService.artistName attributes) = false ->
  AppleMusicService.createSongFromAppleMusicAlbum r = Ok song ->
  Forall (fun k => raises (get song k) = false) compared_fields.
Proof.
  intros attributes H1 H2. unfold AppleMusicService.createSongFromAppleMusicAlbum.
  destruct (AppleMusicService.imageUrl _) as [image|]; cbn [mbind result_bind];
    [|discriminate].
  intros [= <-]. repeat constructor; now apply or_else_text.
Qed.

(** X23: the scorer does not raise on the songs the services build:
    when the names of the track, of its first artist and of its album
    (for Apple Music: the attributes [name], [artistName] and
    [albumName]) are strings or are missing, any two songs built by the
    four [createSongFrom...] functions are scored without an
    exception. *)
Theorem built_songs_scored (t : SpotifyService.Track) (al : SpotifyService.Album)
  (r ra : AppleMusicService.Resource) (track album : obj) :
  let attributes :=
    default AppleMusicService.no_attributes (AppleMusicService.attributes r) in
  let album_attributes :=
    default AppleMusicService.no_attributes (AppleMusicService.attributes ra) in
  raises (SpotifyService.track_name t) = false ->
  raises (SpotifyService.artistName (default [] (SpotifyService.track_artists t))) = false ->
  raises (from_option SpotifyService.album_name VUndefined (SpotifyService.track_album t))
  = false ->
  raises (SpotifyService.name al) = false ->
  raises (SpotifyService.artistName (default [] (SpotifyService.artists al))) = false ->
  raises (AppleMusicService.name attributes) = false ->
  raises (AppleMusicService.artistName attributes) = false ->
  raises (AppleMusicService.albumName attributes) = false ->
  raises (AppleMusicService.name album_attributes) = false ->
  raises (AppleMusicService.artistName album_attributes) = false ->
  AppleMusicService.createSongFromAppleMusicTrack r = Ok track ->
  AppleMusicService.createSongFromAppleMusicAlbum ra = Ok album ->
  forall a b : obj,
    In a [SpotifyService.createSongFromSpotifyTrack t;
          SpotifyService.createSongFromSpotifyAlbum al; track; album] ->
    In b [SpotifyService.createSongFromSpotifyTrack t;
          SpotifyService.createSongFromSpotifyAlbum al; track; album] ->
    exists score, calculateSongScore (Some a) (Some b) = Ok score.
Proof.
  intros attributes album_attributes T1 T2 T3 L1 L2 R1 R2 R3 A1 A2 Ht Ha a b Hina Hinb.
  assert (H : forall s,
             In s [SpotifyService.createSongFromSpotifyTrack t;
                   SpotifyService.createSongFromSpotifyAlbum al; track; album] ->
             Forall (fun k => raises (get s k) = false) compared_fields).
  { intros s [<-|[<-|[<-|[<-|[]]]]].
    - now apply spotify_track_texts.
    - now apply spotify_album_texts.
    - now apply (apple_track_texts r).
    - now apply (apple_album_texts ra). }
  apply score_of_texts; auto.
Qed.

Lemma built_songs_scored_witness :
  let t := {| SpotifyService.track_id := VStr "track123";
              SpotifyService.track_name := VStr "Test Track";
              SpotifyService.track_artists := Some [];
              SpotifyService.track_album := None;
              SpotifyService.preview_url := VUndefined;
              SpotifyService.track_external_urls := None |} in
  let fields (name url : string) : obj :=
    {[ "id" := VStr "1440857781"; "name" := VStr name; "artist" := VStr "Unknown Artist";
       "album" := VStr "Unknown Album"; "imageUrl" := VNull; "previewUrl" := VNull;
       "externalUrl" := VStr url; "platform" := VStr "apple_music" ]} in
  exists score,
    calculateSongScore (Some (SpotifyService.createSongFromSpotifyTrack t))
      (Some (fields "Unknown Track" "https://music.apple.com/song/1440857781"))
    = Ok score.
Proof.
  intros t fields.
  apply (built_songs_scored t
           {| SpotifyService.album_id := VStr "album123"; SpotifyService.name := VNull;
              SpotifyService.artists := None; SpotifyService.images := None;
              SpotifyService.external_urls := None |}
           {| AppleMusicService.id := VStr "1440857781";
              AppleMusicService.attributes := None |}
           {| AppleMusicService.id := VStr "1440857781";
              AppleMusicService.attributes := None |}
           (fields "Unknown Track" "https://music.apple.com/song/1440857781")
           (fields "Unknown Album" "https://music.apple.com/album/1440857781"));
    try reflexivity.
  - left. reflexivity.
  - right. right. left. reflexivity.
Defined.

End Scorable.

(** ** The order of the candidates, and messages without links *)

Section Order.

Lemma below_transfer (originalSong : option obj) (m : Z) (l l' : list (option obj)) :
  Permutation l l' ->
  Forall (fun c' => exists s, scored originalSong c' s /\ s < m) l ->
  Forall (fun c' => exists s, scored originalSong c' s /\ s < m) l'.
Proof. intros HP H. rewrite <- HP. exact H. Qed.

Lemma below_weaken (originalSong : option obj) (m : Z) (l : list (option obj)) :
  Forall (fun c' => exists s, scored originalSong c' s /\ s < m) l ->
  Forall (fun c' => exists s, scored originalSong c' s /\ s <= m) l.
Proof.
  apply List.Forall_impl. intros c (s & Hs & Hlt). exists s. split; [assumption | lia].
Qed.

Lemma unique_best (originalSong : option obj) (l1 l2 : list (option obj))
  (c : option obj) (m : Z) :
  Forall (fun c' => exists s, scored originalSong c' s /\ s < m) l1 ->
  scored originalSong c m ->
  Forall (fun c' => exists s, scored originalSong c' s /\ s < m) l2 ->
  0 < m ->
  findBestMatch originalSong (Some (l1 ++ c :: l2))
  = Ok (if 60 <=? m then Some (with_matchScore c m) else None).
Proof.
  intros H1 Hc H2 Hm. unfold findBestMatch. rewrite length_middle.
  rewrite (for_of_first_max originalSong l1 c l2 m (None, 0) H1 Hc (below_weaken _ _ _ H2))
    by (simpl; lia).
  reflexivity.
Qed.

(** X24: the order of the candidates matters for ties only: when one
    candidate scores higher than every other, [findBestMatch] gives the
    same result for every arrangement of the candidates. *)
Theorem findBestMatch_order (originalSong : option obj) (l1 l2 arranged : list (option obj))
  (c : option obj) (m : Z) :
  Forall (fun c' => exists s, scored originalSong c' s /\ s < m) l1 ->
  scored originalSong c m ->
  Forall (fun c' => exists s, scored originalSong c' s /\ s < m) l2 ->
  Permutation (l1 ++ c :: l2) arranged ->
  findBestMatch originalSong (Some arranged)
  = findBestMatch originalSong (Some (l1 ++ c :: l2)).
Proof.
  intros H1 Hc H2 HP.
  destruct (Z.lt_ge_cases 0 m) as [Hm|Hm].
  - assert (Hin : In c arranged).
    { apply (Permutation_in c HP). apply in_or_app. right. now left. }
    apply in_split in Hin. destruct Hin as (k1 & k2 & ->).
    apply Permutation_app_inv in HP.
    assert (H12 : Forall (fun c' => exists s, scored originalSong c' s /\ s < m) (l1 ++ l2))
      by (apply Forall_app; split; assumption).
    apply (below_transfer _ _ _ _ HP) in H12. apply Forall_app in H12.
    destruct H12 as [K1 K2].
    rewrite (unique_best originalSong k1 k2 c m K1 Hc K2 Hm).
    rewrite (unique_best originalSong l1 l2 c m H1 Hc H2 Hm). reflexivity.
  - assert (Hall : forall l,
               Forall (fun c' => exists s, scored originalSong c' s /\ s <= m) l ->
               findBestMatch originalSong (Some l) = Ok None).
    { intros l Hl. unfold findBestMatch. destruct (length l =? 0)%nat; [reflexivity|].
      rewrite (for_of_keep originalSong l (None, 0)); [reflexivity|].
      eapply List.Forall_impl; [|exact Hl]. intros c' (s & Hs & Hle).
      exists s. split; [assumption | simpl; lia]. }
    assert (Hl : Forall (fun c' => exists s, scored originalSong c' s /\ s <= m)
                   (l1 ++ c :: l2)).
    { apply Forall_app. split; [now apply below_weaken|].
      constructor; [exists m; split; [assumption | lia] | now apply below_weaken]. }
    rewrite (Hall _ Hl). apply Hall. rewrite <- HP. exact Hl.
Qed.

Lemma findBestMatch_order_witness :
  let original := Some (song "Imagine" "John Lennon" "Imagine") in
  let c1 := Some (song "Imagine" "John Lennon" "The John Lennon Collection") in
  let c2 := Some (song "Imagine" "John Lennon" "Imagine") in
  let c3 := Some (song "Yesterday" "The Beatles" "Help!") in
  findBestMatch original (Some [c2; c3; c1]) = findBestMatch original (Some [c1; c2; c3]).
Proof.
  intros original c1 c2 c3.
  apply (findBestMatch_order original [c1] [c3] [c2; c3; c1] c2 100).
  - repeat constructor. exists 80. split; [reflexivity | lia].
  - reflexivity.
  - repeat constructor. exists 4. split; [reflexivity | lia].
  - apply perm_trans with (c2 :: c1 :: [c3]); [apply perm_swap|].
    apply perm_skip. apply perm_swap.
Defined.

End Order.

Section NoScheme.
Import StringMethods RegExp.

Lemma pattern_scheme (p : regex) (link : string) (caps : captures) :
  In p SMBot.allPatterns -> denotes p link ∅ caps -> exists rest, link = "http" +:+ rest.
Proof.
  intros Hp Hd. unfold SMBot.allPatterns, SMBot.spotifyPatterns, SMBot.appleMusicPatterns in Hp.
  cbn [app In] in Hp. unfold SMBot.http in Hp.
  destruct Hp as [<-|[<-|[<-|[<-|[<-|[<-|[]]]]]]];
    destruct Hd as (t1 & t2 & c1 & -> & [-> ->] & _); eauto.
Qed.

(** X25: a message without [http] holds no link for the bot, whatever
    hosts and ids it names, and is left unanswered. *)
Theorem extractMusicLinks_scheme (b : SMBot.bot) (chatId : option Z) (text : string) :
  includes text "http" = false ->
  SMBot.extractMusicLinks text = []
  /\ SMBot.handleTextMessage b chatId (Some text) = None.
Proof.
  intros H.
  assert (E : SMBot.extractMusicLinks text = []).
  { destruct (SMBot.extractMusicLinks text) as [|link l] eqn:E; [reflexivity|]. exfalso.
    assert (Hin : In link (SMBot.extractMusicLinks text)) by (rewrite E; now left).
    apply extracted_In in Hin. destruct Hin as (p & Hp & Hin).
    apply scan_sound in Hin. destruct Hin as (x & y & caps & Ht & Hd).
    destruct (pattern_scheme p link caps Hp Hd) as (rest & ->).
    assert (T : includes text "http" = true).
    { apply includes_spec. exists x, (rest +:+ y). now rewrite Ht, append_assoc. }
    congruence. }
  split; [exact E|]. unfold SMBot.handleTextMessage. rewrite E.
  destruct (negb _); [reflexivity|]. now destruct text.
Qed.

Lemma extractMusicLinks_scheme_witness :
  SMBot.extractMusicLinks "open.spotify.com/track/4iV5W9uYEdYUVa79Axb7Rh" = []
  /\ SMBot.handleTextMessage {| SMBot.chats := [42]; SMBot.saved := None |} (Some 42)
       (Some "open.spotify.com/track/4iV5W9uYEdYUVa79Axb7Rh") = None.
Proof.
  apply (extractMusicLinks_scheme _ _ "open.spotify.com/track/4iV5W9uYEdYUVa79Axb7Rh").
  reflexivity.
Defined.

End NoScheme.

